(** * The NEON float Conv2d functor of mace/kernels/arm/conv_2d.cc

    A shallow embedding of [Conv2dFunctor<DeviceType::NEON, float>::operator()]
    and of the generic kernel [Conv2dNCHW], followed by the properties of the
    dispatch-and-execution engine that the specification states about them.
    The bilinear resize functor of mace/kernels/resize_bilinear.h, with its
    interpolation tables and its two kernels, is embedded after it.

    Conventions.
    - [index_t] is the 64-bit signed integer of the library; values of that
      type are integers of [Z].  Signed overflow of [index_t] or [int]
      arithmetic is undefined behaviour and has no model; the conversions
      that are defined (narrowing to [int], multiplication by the unsigned
      [sizeof(float)]) are written out with their wrap-around.
    - [float] data is an abstract carrier with the operations the code uses
      (class [Scalar]); the algebraic laws a statement relies on are listed in
      the class [ScalarLaws], and the integers are an instance.
    - A raw buffer is a list; a read or write outside it is an error
      ([None]), as is a failed [MACE_CHECK]. *)

From Stdlib Require Import ZArith Lia.
From stdpp Require Import base numbers option list.

Local Open Scope Z_scope.

(** ** Machine integers *)

Module MachineInt.

Definition wrap_signed (bits z : Z) : Z :=
  (z + 2 ^ (bits - 1)) `mod` 2 ^ bits - 2 ^ (bits - 1).

(** Conversion of an [index_t] value to [int]. *)
Definition to_int (z : Z) : Z := wrap_signed 32 z.

(** Conversion to the unsigned 64-bit [size_t]. *)
Definition to_size_t (z : Z) : Z := z `mod` 2 ^ 64.

(** Conversion of a [size_t] value back to [index_t]. *)
Definition to_index_t (z : Z) : Z := wrap_signed 64 z.

Definition sizeof_float : Z := 4.

(** [x * sizeof(float)] with [x] signed: the usual arithmetic conversions
    make it an unsigned 64-bit product, stored back into an [index_t]. *)
Definition times_sizeof_float (x : Z) : Z :=
  to_index_t (to_size_t (to_size_t x * sizeof_float)).

(** [std::accumulate(first, last, 1, std::multiplies<index_t>())]: the
    initial value [1] is an [int], so the accumulator is an [int] and every
    product is converted back to [int]. *)
Definition accumulate_multiplies (shape : list Z) : Z :=
  fold_left (fun acc x => to_int (acc * x)) shape 1.

End MachineInt.

Import MachineInt.

(** ** Configuration *)

(** Modelled from the spec: the padding policy type is not in src; the
    symbolic policies are SAME and VALID. *)
Inductive Padding := VALID | SAME.

(** Modelled from the spec: the activation selector is not in src; it
    selects the identity, the clamp at zero or the clamp into [0, limit]. *)
Inductive ActivationType := NOOP | RELU | RELUX.

Definition USE_WINOGRAD : bool := true.
Definition WINOGRAD_OUT_TILE_SIZE : Z := 6.

(** Modelled from the spec: [RoundUp] of mace/utils is not in src; it rounds
    its first argument up to a multiple of the second, with the integer
    division of the language. *)
Definition RoundUp (i factor : Z) : Z := (i + factor - 1) `quot` factor * factor.

(** In the words of the specification: [r] is [i] rounded up to a multiple
    of [factor]. *)
Definition rounds_up (i factor r : Z) : Prop :=
  (factor | r) ∧ i ≤ r < i + factor.

(** ** ShapeResolver *)

(** Modelled from the spec: the output size of one spatial dimension,
    [floor((in + total_pad - dilation*(k-1) - 1) / stride) + 1]. *)
Definition output_extent (in_size total_pad dilation k stride : Z) : Z :=
  (in_size + total_pad - dilation * (k - 1) - 1) / stride + 1.

(** Modelled from the spec: [CalcNCHWOutputSize] (explicit padding, floor
    rounding) is not in src.  The output shape is [N, OutC, Hout, Wout]; a
    non-positive output size is a fatal check. *)
Definition CalcNCHWOutputSize (input_shape filter_shape paddings : list Z)
    (dilations strides : Z * Z) : option (list Z) :=
  match input_shape, filter_shape, paddings with
  | [n; _; in_h; in_w], [out_c; _; k_h; k_w], p_h :: p_w :: _ =>
      let out_h := output_extent in_h p_h (fst dilations) k_h (fst strides) in
      let out_w := output_extent in_w p_w (snd dilations) k_w (snd strides) in
      if decide (0 < out_h ∧ 0 < out_w) then Some [n; out_c; out_h; out_w]
      else None
  | _, _, _ => None
  end.

(** Modelled from the spec: the total padding of a symbolic policy.  VALID
    applies no padding; SAME pads so that a stride-1 output has the input's
    spatial size, which by the size formula is [dilation * (k - 1)]. *)
Definition policy_padding (padding_type : Padding) (dilation k : Z) : Z :=
  match padding_type with
  | VALID => 0
  | SAME => dilation * (k - 1)
  end.

(** Modelled from the spec: [CalcNCHWPaddingAndOutputSize] is not in src; it
    resolves the policy to a total padding per dimension and returns it with
    the output shape of the size formula. *)
Definition CalcNCHWPaddingAndOutputSize (input_shape filter_shape : list Z)
    (dilations strides : Z * Z) (padding_type : Padding)
    : option (list Z * list Z) :=
  match filter_shape with
  | [_; _; k_h; k_w] =>
      let paddings := [policy_padding padding_type (fst dilations) k_h;
                       policy_padding padding_type (snd dilations) k_w] in
      output_shape ← CalcNCHWOutputSize input_shape filter_shape paddings
                       dilations strides;
      Some (output_shape, paddings)
  | _ => None
  end.

(** Lines 102-117: the output shape and the padding totals of the call. *)
Definition resolve_shape (paddings_ : list Z) (padding_type_ : Padding)
    (dilations_ strides_ : Z * Z) (input_shape filter_shape : list Z)
    : option (list Z * list Z) :=
  match paddings_ with
  | [] => CalcNCHWPaddingAndOutputSize input_shape filter_shape dilations_
            strides_ padding_type_
  | _ =>
      output_shape ← CalcNCHWOutputSize input_shape filter_shape paddings_
                       dilations_ strides_;
      Some (output_shape, paddings_)
  end.

(** The total padding a call works with: the explicit amounts when the
    functor has them, the amounts of the policy otherwise. *)
Definition resolved_padding (paddings_ : list Z) (padding_type_ : Padding)
    (dilations_ : Z * Z) (k_h k_w : Z) : option (Z * Z) :=
  match paddings_ with
  | [] => Some (policy_padding padding_type_ (fst dilations_) k_h,
                policy_padding padding_type_ (snd dilations_) k_w)
  | p_h :: p_w :: _ => Some (p_h, p_w)
  | [_] => None
  end.

(** ** StrategySelector *)

Record Flags := {
  use_winograd : bool;
  use_neon_3x3_s1 : bool;
  use_neon_3x3_s2 : bool;
  use_neon_1x1_s1 : bool
}.

(** Lines 164-172. *)
Definition select_flags (filter_h filter_w stride_h stride_w
    dilation_h dilation_w input_channels channels : Z) : Flags :=
  {| use_winograd :=
       USE_WINOGRAD && (filter_h =? 3) && (filter_w =? 3)
       && (stride_h =? 1) && (stride_w =? 1)
       && (dilation_h =? 1) && (dilation_w =? 1)
       && (input_channels >=? 8) && (channels >=? 8);
     use_neon_3x3_s1 :=
       (filter_h =? 3) && (filter_w =? 3)
       && (stride_h =? 1) && (stride_w =? 1)
       && (dilation_h =? 1) && (dilation_w =? 1);
     use_neon_3x3_s2 :=
       (filter_h =? 3) && (filter_w =? 3)
       && (stride_h =? 2) && (stride_w =? 2)
       && (dilation_h =? 1) && (dilation_w =? 1);
     use_neon_1x1_s1 :=
       (filter_h =? 1) && (filter_w =? 1)
       && (stride_h =? 1) && (stride_w =? 1)
       && (dilation_h =? 1) && (dilation_w =? 1) |}.

Inductive Strategy :=
  | Winograd
  | NeonK3x3S1
  | NeonK3x3S2
  | NeonK1x1S1
  | Generic.

(** Lines 271-350: which closure [conv_func] is bound to. *)
Definition conv_func_strategy (fl : Flags) : Strategy :=
  if use_winograd fl then Winograd
  else if use_neon_3x3_s1 fl then NeonK3x3S1
  else if use_neon_3x3_s2 fl then NeonK3x3S2
  else if use_neon_1x1_s1 fl then NeonK1x1S1
  else Generic.

(** The selector in the words of the specification: the applicability
    condition of each fast strategy, listed in priority order, the first
    match winning and the generic strategy being the fallback. *)
Definition applies (s : Strategy) (filter_h filter_w stride_h stride_w
    dilation_h dilation_w in_channels out_channels : Z) : bool :=
  match s with
  | Winograd =>
      bool_decide (filter_h = 3 ∧ filter_w = 3 ∧ stride_h = 1 ∧ stride_w = 1
                   ∧ dilation_h = 1 ∧ dilation_w = 1
                   ∧ 8 ≤ in_channels ∧ 8 ≤ out_channels)
  | NeonK3x3S1 =>
      bool_decide (filter_h = 3 ∧ filter_w = 3 ∧ stride_h = 1 ∧ stride_w = 1
                   ∧ dilation_h = 1 ∧ dilation_w = 1)
  | NeonK3x3S2 =>
      bool_decide (filter_h = 3 ∧ filter_w = 3 ∧ stride_h = 2 ∧ stride_w = 2
                   ∧ dilation_h = 1 ∧ dilation_w = 1)
  | NeonK1x1S1 =>
      bool_decide (filter_h = 1 ∧ filter_w = 1 ∧ stride_h = 1 ∧ stride_w = 1
                   ∧ dilation_h = 1 ∧ dilation_w = 1)
  | Generic => true
  end.

Definition priority_order : list Strategy :=
  [Winograd; NeonK3x3S1; NeonK3x3S2; NeonK1x1S1; Generic].

Definition StrategySelector (filter_h filter_w stride_h stride_w
    dilation_h dilation_w in_channels out_channels : Z) : option Strategy :=
  List.find (fun s => applies s filter_h filter_w stride_h stride_w
                        dilation_h dilation_w in_channels out_channels)
            priority_order.

(** ** TilingPlanner *)

Record Tiling := {
  extra_input_height : Z;
  extra_input_width : Z;
  extra_output_height : Z;
  extra_output_width : Z;
  pad_top : Z;
  pad_bottom : Z;
  pad_left : Z;
  pad_right : Z;
  transformed_input_shape : list Z;
  transformed_output_shape : list Z;
  transformed_filter_shape : list Z
}.

(** [if (extra != padded) pad += (extra - padded);] with [pad] an [int] and
    the difference an [index_t]. *)
Definition add_shortfall (pad extra padded : Z) : Z :=
  if decide (extra ≠ padded) then to_int (pad + (extra - padded)) else pad.

(** Lines 145-155 and 178-228. *)
Definition plan_tiling (fl : Flags)
    (batch channels height width input_channels input_height input_width : Z)
    (paddings0 paddings1 : Z) : Tiling :=
  let padded_input_height := input_height + paddings0 in
  let padded_input_width := input_width + paddings1 in
  let pad_top := Z.shiftr paddings0 1 in
  let pad_bottom := paddings0 - pad_top in
  let pad_left := Z.shiftr paddings1 1 in
  let pad_right := paddings1 - pad_left in
  if use_winograd fl then
    let extra_output_height := RoundUp height WINOGRAD_OUT_TILE_SIZE in
    let extra_input_height :=
      Z.max padded_input_height (extra_output_height + 2) in
    let extra_output_width := RoundUp width WINOGRAD_OUT_TILE_SIZE in
    let extra_input_width :=
      Z.max padded_input_width (extra_output_width + 2) in
    let tile_height_count := extra_output_height `quot` WINOGRAD_OUT_TILE_SIZE in
    let tile_width_count := extra_output_width `quot` WINOGRAD_OUT_TILE_SIZE in
    let tile_count := tile_height_count * tile_width_count in
    let in_tile_area :=
      (WINOGRAD_OUT_TILE_SIZE + 2) * (WINOGRAD_OUT_TILE_SIZE + 2) in
    {| extra_input_height := extra_input_height;
       extra_input_width := extra_input_width;
       extra_output_height := extra_output_height;
       extra_output_width := extra_output_width;
       pad_top := pad_top;
       pad_bottom :=
         add_shortfall pad_bottom extra_input_height padded_input_height;
       pad_left := pad_left;
       pad_right :=
         add_shortfall pad_right extra_input_width padded_input_width;
       transformed_input_shape :=
         [in_tile_area; batch; input_channels; tile_count];
       transformed_output_shape :=
         [in_tile_area; batch; channels; tile_count];
       transformed_filter_shape := [in_tile_area; channels; input_channels] |}
  else if use_neon_3x3_s1 fl then
    let extra_output_height := RoundUp height 2 in
    let extra_input_height :=
      Z.max padded_input_height (extra_output_height + 2) in
    let extra_output_width := RoundUp width 4 in
    let extra_input_width :=
      Z.max padded_input_width (extra_output_width + 2) in
    {| extra_input_height := extra_input_height;
       extra_input_width := extra_input_width;
       extra_output_height := extra_output_height;
       extra_output_width := extra_output_width;
       pad_top := pad_top;
       pad_bottom :=
         add_shortfall pad_bottom extra_input_height padded_input_height;
       pad_left := pad_left;
       pad_right :=
         add_shortfall pad_right extra_input_width padded_input_width;
       transformed_input_shape := [];
       transformed_output_shape := [];
       transformed_filter_shape := [] |}
  else if use_neon_3x3_s2 fl then
    let extra_output_height := height in
    let extra_input_height :=
      Z.max padded_input_height ((extra_output_height - 1) * 2 + 3) in
    let extra_output_width := RoundUp width 4 in
    let extra_input_width :=
      Z.max padded_input_width ((extra_output_width - 1) * 2 + 3) in
    {| extra_input_height := extra_input_height;
       extra_input_width := extra_input_width;
       extra_output_height := extra_output_height;
       extra_output_width := extra_output_width;
       pad_top := pad_top;
       pad_bottom :=
         add_shortfall pad_bottom extra_input_height padded_input_height;
       pad_left := pad_left;
       pad_right :=
         add_shortfall pad_right extra_input_width padded_input_width;
       transformed_input_shape := [];
       transformed_output_shape := [];
       transformed_filter_shape := [] |}
  else
    {| extra_input_height := padded_input_height;
       extra_input_width := padded_input_width;
       extra_output_height := height;
       extra_output_width := width;
       pad_top := pad_top;
       pad_bottom := pad_bottom;
       pad_left := pad_left;
       pad_right := pad_right;
       transformed_input_shape := [];
       transformed_output_shape := [];
       transformed_filter_shape := [] |}.

(** ** ScratchArena *)

Record ScratchSizes := {
  transformed_input_size : Z;
  transformed_output_size : Z;
  padded_input_size : Z;
  padded_output_size : Z;
  total_scratch_size : Z
}.

(** The two tests that guard the padded buffers (lines 249, 255, 354, 366
    and 378). *)
Definition needs_padded_input (t : Tiling) (input_height input_width : Z)
    : bool :=
  bool_decide (extra_input_height t ≠ input_height
               ∨ extra_input_width t ≠ input_width).

Definition needs_padded_output (t : Tiling) (height width : Z) : bool :=
  bool_decide (extra_output_height t ≠ height
               ∨ extra_output_width t ≠ width).

(** Lines 230-260. *)
Definition scratch_sizes (fl : Flags) (t : Tiling)
    (batch channels height width input_channels input_height input_width : Z)
    : ScratchSizes :=
  let total_scratch_size := 0 in
  let transformed_input_size :=
    if use_winograd fl
    then times_sizeof_float (accumulate_multiplies (transformed_input_shape t))
    else 0 in
  let transformed_output_size :=
    if use_winograd fl
    then times_sizeof_float (accumulate_multiplies (transformed_output_shape t))
    else 0 in
  let total_scratch_size :=
    if use_winograd fl
    then total_scratch_size + (transformed_input_size + transformed_output_size)
    else total_scratch_size in
  let padded_input_size :=
    if needs_padded_input t input_height input_width
    then times_sizeof_float
           (batch * input_channels
            * (input_height + pad_top t + pad_bottom t)
            * (input_width + pad_left t + pad_right t))
    else 0 in
  let total_scratch_size :=
    if needs_padded_input t input_height input_width
    then total_scratch_size + padded_input_size
    else total_scratch_size in
  let padded_output_size :=
    if needs_padded_output t height width
    then times_sizeof_float
           (batch * channels * extra_output_height t * extra_output_width t)
    else 0 in
  let total_scratch_size :=
    if needs_padded_output t height width
    then total_scratch_size + padded_output_size
    else total_scratch_size in
  {| transformed_input_size := transformed_input_size;
     transformed_output_size := transformed_output_size;
     padded_input_size := padded_input_size;
     padded_output_size := padded_output_size;
     total_scratch_size := total_scratch_size |}.

(** Modelled from the spec: the scratch buffer class is not in src.  The
    arena is a byte buffer with a capacity and a cursor; a view is an offset
    and a length in it. *)
Record ScratchBuffer := {
  size_ : Z;
  offset_ : Z
}.

(** Modelled from the spec: a view handed out by the arena, not in src. *)
Record BufferSlice := {
  slice_offset : Z;
  slice_length : Z
}.

(** Modelled from the spec: rewinds the cursor to zero. *)
Definition Rewind (s : ScratchBuffer) : ScratchBuffer :=
  {| size_ := size_ s; offset_ := 0 |}.

(** Modelled from the spec: grows the capacity if the new total exceeds it;
    the arena never shrinks. *)
Definition GrowSize (s : ScratchBuffer) (size : Z) : ScratchBuffer :=
  if decide (size_ s < size) then {| size_ := size; offset_ := offset_ s |}
  else s.

(** Modelled from the spec: hands out the next view, of the requested size,
    at the cursor, and moves the cursor past it. *)
Definition Scratch (s : ScratchBuffer) (size : Z)
    : ScratchBuffer * BufferSlice :=
  ({| size_ := size_ s; offset_ := offset_ s + size |},
   {| slice_offset := offset_ s; slice_length := size |}).

Record ScratchViews := {
  transformed_input_view : BufferSlice;
  transformed_output_view : BufferSlice;
  padded_input_view : BufferSlice;
  padded_output_view : BufferSlice
}.

(** Lines 261-268. *)
Definition init_scratch (scratch_ : ScratchBuffer) (sz : ScratchSizes)
    : ScratchBuffer * ScratchViews :=
  let scratch_ := Rewind scratch_ in
  let scratch_ := GrowSize scratch_ (total_scratch_size sz) in
  let '(scratch_, transformed_input) :=
    Scratch scratch_ (transformed_input_size sz) in
  let '(scratch_, transformed_output) :=
    Scratch scratch_ (transformed_output_size sz) in
  let '(scratch_, padded_input) := Scratch scratch_ (padded_input_size sz) in
  let '(scratch_, padded_output) := Scratch scratch_ (padded_output_size sz) in
  (scratch_,
   {| transformed_input_view := transformed_input;
      transformed_output_view := transformed_output;
      padded_input_view := padded_input;
      padded_output_view := padded_output |}).

(** Two views of the arena share no byte. *)
Definition disjoint_views (a b : BufferSlice) : Prop :=
  slice_offset a + slice_length a ≤ slice_offset b
  ∨ slice_offset b + slice_length b ≤ slice_offset a.

(** ** The geometry of one call *)

Definition MACE_CHECK (P : Prop) `{Decision P} : option unit :=
  if decide P then Some () else None.

Record Plan := {
  output_shape : list Z;
  paddings : Z * Z;
  batch : Z;
  channels : Z;
  height : Z;
  width : Z;
  input_batch : Z;
  input_channels : Z;
  input_height : Z;
  input_width : Z;
  filter_h : Z;
  filter_w : Z;
  stride_h : Z;
  stride_w : Z;
  dilation_h : Z;
  dilation_w : Z;
  flags : Flags;
  tiling : Tiling;
  sizes : ScratchSizes
}.

(** Lines 102-260 of [operator()], as far as they depend on shapes and
    configuration only. *)
Definition plan (paddings_ : list Z) (padding_type_ : Padding)
    (dilations_ strides_ : Z * Z) (input_shape filter_shape : list Z)
    : option Plan :=
  '(output_shape, paddings) ←
    resolve_shape paddings_ padding_type_ dilations_ strides_
      input_shape filter_shape;
  batch ← output_shape !! 0%nat;
  channels ← output_shape !! 1%nat;
  height ← output_shape !! 2%nat;
  width ← output_shape !! 3%nat;
  input_batch ← input_shape !! 0%nat;
  input_channels ← input_shape !! 1%nat;
  input_height ← input_shape !! 2%nat;
  input_width ← input_shape !! 3%nat;
  filter_h ← filter_shape !! 2%nat;
  filter_w ← filter_shape !! 3%nat;
  filter_dim0 ← filter_shape !! 0%nat;
  _ ← MACE_CHECK (filter_dim0 = channels);
  filter_dim1 ← filter_shape !! 1%nat;
  _ ← MACE_CHECK (filter_dim1 = input_channels);
  let stride_h := fst strides_ in
  let stride_w := snd strides_ in
  let dilation_h := fst dilations_ in
  let dilation_w := snd dilations_ in
  _ ← MACE_CHECK (batch = input_batch);
  paddings0 ← paddings !! 0%nat;
  paddings1 ← paddings !! 1%nat;
  let fl := select_flags filter_h filter_w stride_h stride_w
              dilation_h dilation_w input_channels channels in
  let t := plan_tiling fl batch channels height width
             input_channels input_height input_width paddings0 paddings1 in
  let sz := scratch_sizes fl t batch channels height width
              input_channels input_height input_width in
  Some {| output_shape := output_shape;
          paddings := (paddings0, paddings1);
          batch := batch; channels := channels;
          height := height; width := width;
          input_batch := input_batch; input_channels := input_channels;
          input_height := input_height; input_width := input_width;
          filter_h := filter_h; filter_w := filter_w;
          stride_h := stride_h; stride_w := stride_w;
          dilation_h := dilation_h; dilation_w := dilation_w;
          flags := fl; tiling := t; sizes := sz |}.

(** The plan of a call on 4-dimensional shapes [n, ic, ih, iw] and
    [oc, ic, kh, kw] with total padding [(ph, pw)], written out. *)
Definition planned (n ic ih iw oc kh kw ph pw : Z)
    (dilations_ strides_ : Z * Z) : Plan :=
  let oh := output_extent ih ph (fst dilations_) kh (fst strides_) in
  let ow := output_extent iw pw (snd dilations_) kw (snd strides_) in
  let fl := select_flags kh kw (fst strides_) (snd strides_)
              (fst dilations_) (snd dilations_) ic oc in
  let t := plan_tiling fl n oc oh ow ic ih iw ph pw in
  {| output_shape := [n; oc; oh; ow];
     paddings := (ph, pw);
     batch := n; channels := oc; height := oh; width := ow;
     input_batch := n; input_channels := ic;
     input_height := ih; input_width := iw;
     filter_h := kh; filter_w := kw;
     stride_h := fst strides_; stride_w := snd strides_;
     dilation_h := fst dilations_; dilation_w := snd dilations_;
     flags := fl; tiling := t;
     sizes := scratch_sizes fl t n oc oh ow ic ih iw |}.

(** ** Data: scalars, buffers and tensors *)

Class Scalar (F : Type) := {
  fzero : F;
  fadd : F → F → F;
  fmul : F → F → F;
  fmax : F → F → F;
  fmin : F → F → F
}.

(** The laws of the carrier that the statements below rely on: a zero filter
    contributes nothing, adding to zero is exact, and [fmax]/[fmin] are the
    bounds of an order [fle]. *)
Class ScalarLaws (F : Type) `{Scalar F} := {
  fle : F → F → Prop;
  fadd_zero_l : ∀ x, fadd fzero x = x;
  fmul_zero_r : ∀ x, fmul x fzero = fzero;
  fmax_ge_r : ∀ x y, fle y (fmax x y);
  fmin_le_r : ∀ x y, fle (fmin x y) y;
  fmin_glb : ∀ x y z, fle z x → fle z y → fle z (fmin x y)
}.

#[export] Instance Z_Scalar : Scalar Z :=
  {| fzero := 0; fadd := Z.add; fmul := Z.mul; fmax := Z.max; fmin := Z.min |}.

#[export] Instance Z_ScalarLaws : ScalarLaws Z :=
  {| fle := Z.le;
     fadd_zero_l := Z.add_0_l;
     fmul_zero_r := Z.mul_0_r;
     fmax_ge_r := Z.le_max_r;
     fmin_le_r := Z.le_min_r;
     fmin_glb := Z.min_glb |}.

Record Tensor (F : Type) := {
  shape : list Z;
  data : list F
}.
Arguments Build_Tensor {F} _ _.
Arguments shape {F} _.
Arguments data {F} _.

(** A counted loop [for (index_t i = start; ...; ++i)] over a state that the
    body may fail to update. *)
Fixpoint loop_from {S : Type} (i : Z) (n : nat) (body : Z → S → option S)
    (s : S) : option S :=
  match n with
  | O => Some s
  | Datatypes.S k => s' ← body i s; loop_from (i + 1) k body s'
  end.

(** [for (index_t i = 0; i < n; ++i) body]. *)
Definition for_range {S : Type} (n : Z) (body : Z → S → option S) (s : S)
    : option S :=
  loop_from 0 (Z.to_nat n) body s.

Definition num_elements (shape : list Z) : Z := foldr Z.mul 1 shape.

Section Kernels.
Context {F : Type} `{Scalar F}.

(** What a cell of freshly sized, not yet written memory reads as. *)
Variable uninit : F.

Definition load (buf : list F) (offset : Z) : option F :=
  if decide (0 ≤ offset) then buf !! Z.to_nat offset else None.

Definition store (buf : list F) (offset : Z) (v : F) : option (list F) :=
  if decide (0 ≤ offset < Z.of_nat (length buf))
  then Some (<[Z.to_nat offset := v]> buf)
  else None.

(** Modelled from the spec: [Tensor::size] is not in src; the number of
    elements of the dense array. *)
Definition size (t : Tensor F) : Z := num_elements (shape t).

(** Modelled from the spec: [Tensor::Resize] is not in src; it sets the
    shape and makes the buffer hold that many elements, keeping the earlier
    contents where there are any. *)
Definition Resize (t : Tensor F) (shape : list Z) : Tensor F :=
  {| shape := shape;
     data := resize (Z.to_nat (num_elements shape)) uninit (data t) |}.

(** Modelled from the spec: [Tensor::Clear] is not in src; it zeroes the
    whole buffer. *)
Definition Clear (t : Tensor F) : Tensor F :=
  {| shape := shape t; data := replicate (length (data t)) fzero |}.

(** Modelled from the spec: the tensor constructor over a view of the
    scratch arena is not in src; the tensor has no shape and no elements
    before it is sized. *)
Definition scratch_tensor (view : BufferSlice) : Tensor F :=
  {| shape := []; data := [] |}.

(** Lines 17-58. *)
Definition Conv2dNCHW (input filter : list F)
    (batch in_height in_width in_channels out_height out_width out_channels
     filter_height filter_width stride_h stride_w dilation_h dilation_w : Z)
    (output : list F) : option (list F) :=
  for_range batch (λ b,
    for_range out_channels (λ m,
      for_range out_height (λ h,
        for_range out_width (λ w,
          let out_offset :=
            ((b * out_channels + m) * out_height + h) * out_width + w in
          for_range in_channels (λ c,
            for_range filter_height (λ kh,
              for_range filter_width (λ kw output,
                let ih := h * stride_h + kh * dilation_h in
                let iw := w * stride_w + kw * dilation_w in
                let in_offset :=
                  ((b * in_channels + c) * in_height + ih) * in_width + iw in
                let filter_offset :=
                  (((m * in_channels) + c) * filter_height + kh)
                  * filter_width + kw in
                x ← load input in_offset;
                k ← load filter filter_offset;
                acc ← load output out_offset;
                store output out_offset (fadd acc (fmul x k)))))))))
    output.

(** The first [n] cells of a buffer set to zero. *)
Definition zero_region (n : Z) (buf : list F) : list F :=
  ((λ _, fzero) <$> take (Z.to_nat n) buf) ++ drop (Z.to_nat n) buf.

(** Modelled from the spec: the fused kernels are declared [extern] and
    are not in src.  By their contract each one fully overwrites its output
    with the same mathematical convolution as the generic strategy, for its
    fixed filter size, stride and dilation.  The 1x1 kernel is declared with
    one height and one width, which are the extents of its input and of its
    output. *)
Definition Conv2dNeonK1x1S1 (input filter : list F)
    (batch height width in_channels out_channels : Z) (output : list F)
    : option (list F) :=
  Conv2dNCHW input filter batch height width in_channels height width
    out_channels 1 1 1 1 1 1
    (zero_region (batch * out_channels * height * width) output).

(** Modelled from the spec: the fused 3x3 stride-1 kernel, not in src,
    under the same contract. *)
Definition Conv2dNeonK3x3S1 (input filter : list F)
    (batch in_height in_width in_channels out_height out_width
     out_channels : Z) (output : list F) : option (list F) :=
  Conv2dNCHW input filter batch in_height in_width in_channels
    out_height out_width out_channels 3 3 1 1 1 1
    (zero_region (batch * out_channels * out_height * out_width) output).

(** Modelled from the spec: the fused 3x3 stride-2 kernel, not in src,
    under the same contract. *)
Definition Conv2dNeonK3x3S2 (input filter : list F)
    (batch in_height in_width in_channels out_height out_width
     out_channels : Z) (output : list F) : option (list F) :=
  Conv2dNCHW input filter batch in_height in_width in_channels
    out_height out_width out_channels 3 3 2 2 1 1
    (zero_region (batch * out_channels * out_height * out_width) output).

(** Modelled from the spec: the filter transform of the Winograd kernel is
    not in src.  The model keeps the filter's values as their own
    transform, so that the convolution computed from the cache is the one
    every strategy has to compute. *)
Definition TransformFilter (filter : list F) : list F := filter.

(** Modelled from the spec: [WinoGradConv3x3s1] is not in src.  It
    transforms the filter into the cache unless told that the cache is
    filled, and computes the 3x3 stride-1 convolution from the cache,
    overwriting an output of [in - 2] rows and columns.  The result is the
    cache, whether a transform ran, and the output. *)
Definition WinoGradConv3x3s1 (input filter : list F)
    (batch in_height in_width in_channels out_channels out_tile_size : Z)
    (transformed_filter : list F) (is_filter_transformed : bool)
    (output : list F) : option (list F * bool * list F) :=
  let out_height := in_height - 2 in
  let out_width := in_width - 2 in
  let transformed_filter :=
    if is_filter_transformed then transformed_filter
    else TransformFilter filter in
  output ← Conv2dNCHW input transformed_filter batch in_height in_width
             in_channels out_height out_width out_channels 3 3 1 1 1 1
             (zero_region (batch * out_channels * out_height * out_width)
                output);
  Some (transformed_filter, negb is_filter_transformed, output).

(** [memcpy(dst + dst_offset, src + src_offset, sizeof(float) * n)]. *)
Definition memcpy (dst : list F) (dst_offset : Z) (src : list F)
    (src_offset n : Z) : option (list F) :=
  for_range n (λ i dst,
    x ← load src (src_offset + i);
    store dst (dst_offset + i) x) dst.

(** Modelled from the spec: the padder is not in src.  It sizes and zeroes
    a buffer of the padded shape and copies the input into the region
    offset by [(pad_top, pad_left)]. *)
Definition ConstructNCHWInputWithSpecificPadding (input : Tensor F)
    (pad_top pad_bottom pad_left pad_right : Z) (padded : Tensor F)
    : option (Tensor F) :=
  match shape input with
  | [batch; channels; height; width] =>
      let padded_height := height + pad_top + pad_bottom in
      let padded_width := width + pad_left + pad_right in
      let padded :=
        Clear (Resize padded
                 [batch; channels; padded_height; padded_width]) in
      padded_data ←
        for_range batch (λ b,
          for_range channels (λ c,
            for_range height (λ h padded_data,
              memcpy padded_data
                (((b * channels + c) * padded_height + (h + pad_top))
                 * padded_width + pad_left)
                (data input)
                (((b * channels + c) * height + h) * width)
                width)))
          (data padded);
      Some {| shape := shape padded; data := padded_data |}
  | _ => None
  end.

(** Lines 378-394: the rows of the logical output copied out of the
    oversized buffer. *)
Definition unpack_output (pad_output_data : list F)
    (batch channels height width extra_output_height extra_output_width : Z)
    (output_data : list F) : option (list F) :=
  for_range batch (λ b,
    for_range channels (λ c,
      for_range height (λ h output_data,
        memcpy output_data
          (b * channels * height * width + c * height * width + h * width)
          pad_output_data
          (b * channels * extra_output_height * extra_output_width
           + c * extra_output_height * extra_output_width
           + h * extra_output_width)
          width)))
    output_data.

(** Lines 396-405. *)
Definition add_bias (bias_data : list F) (batch channels height width : Z)
    (output_data : list F) : option (list F) :=
  for_range batch (λ b,
    for_range channels (λ c,
      for_range (height * width) (λ i output_data,
        let offset := (b * channels + c) * height * width + i in
        x ← load output_data offset;
        bias_c ← load bias_data c;
        store output_data offset (fadd x bias_c))))
    output_data.

(** Modelled from the spec: the activation is not in src; it is the
    identity, a clamp at zero, or a clamp into [0, limit]. *)
Definition activate (activation : ActivationType) (relux_max_limit : F)
    (x : F) : F :=
  match activation with
  | NOOP => x
  | RELU => fmax x fzero
  | RELUX => fmin (fmax x fzero) relux_max_limit
  end.

(** Modelled from the spec: [DoActivation] applied in place (the call of
    line 407 passes the output as both source and destination) to the
    first [size] elements. *)
Definition DoActivation (buffer : list F) (size : Z)
    (activation : ActivationType) (relux_max_limit : F) : option (list F) :=
  for_range size (λ i buffer,
    x ← load buffer i;
    store buffer i (activate activation relux_max_limit x)) buffer.

(** The members of the functor; [filter_transforms] is a ghost counter of
    the filter transforms executed so far. *)
Record Conv2dFunctor := {
  strides_ : Z * Z;
  padding_type_ : Padding;
  paddings_ : list Z;
  dilations_ : Z * Z;
  activation_ : ActivationType;
  relux_max_limit_ : F;
  is_filter_transformed_ : bool;
  transformed_filter_ : Tensor F;
  scratch_ : ScratchBuffer;
  filter_transforms : nat
}.

Definition with_scratch (self : Conv2dFunctor) (scratch : ScratchBuffer)
    (transformed_filter : Tensor F) : Conv2dFunctor :=
  {| strides_ := strides_ self;
     padding_type_ := padding_type_ self;
     paddings_ := paddings_ self;
     dilations_ := dilations_ self;
     activation_ := activation_ self;
     relux_max_limit_ := relux_max_limit_ self;
     is_filter_transformed_ := is_filter_transformed_ self;
     transformed_filter_ := transformed_filter;
     scratch_ := scratch;
     filter_transforms := filter_transforms self |}.

(** The state after the Winograd closure ran: the cache holds the
    transform and the flag is set. *)
Definition with_transformed_filter (self : Conv2dFunctor)
    (transformed_filter : list F) (transformed : bool) : Conv2dFunctor :=
  {| strides_ := strides_ self;
     padding_type_ := padding_type_ self;
     paddings_ := paddings_ self;
     dilations_ := dilations_ self;
     activation_ := activation_ self;
     relux_max_limit_ := relux_max_limit_ self;
     is_filter_transformed_ := true;
     transformed_filter_ :=
       {| shape := shape (transformed_filter_ self);
          data := transformed_filter |};
     scratch_ := scratch_ self;
     filter_transforms :=
       (filter_transforms self + if transformed then 1 else 0)%nat |}.

(** The filter values the Winograd kernel convolves with on a call: the
    cache when the flag says it is filled, the transform of the filter of
    the call otherwise. *)
Definition filter_in_use (self : Conv2dFunctor) (filter : Tensor F)
    : list F :=
  if is_filter_transformed_ self then data (transformed_filter_ self)
  else TransformFilter (data filter).

(** The two buffers a strategy may write, and which of them
    [pad_output_ptr] points to: the output tensor itself unless the output
    extents were extended. *)
Inductive OutputPtr := to_output | to_padded_output.

Record OutputStore := {
  output_data : list F;
  padded_output_data : list F
}.

Definition deref (m : OutputStore) (ptr : OutputPtr) : list F :=
  match ptr with
  | to_output => output_data m
  | to_padded_output => padded_output_data m
  end.

Definition assign (m : OutputStore) (ptr : OutputPtr) (buf : list F)
    : OutputStore :=
  match ptr with
  | to_output =>
      {| output_data := buf; padded_output_data := padded_output_data m |}
  | to_padded_output =>
      {| output_data := output_data m; padded_output_data := buf |}
  end.

(** Lines 271-350: the closure bound to [conv_func], applied to
    [pad_input_data] and [pad_output_data]. *)
Definition conv_func (p : Plan) (self : Conv2dFunctor)
    (input_data filter_data pad_input : list F) (pad_output : OutputPtr)
    (m : OutputStore) : option (Conv2dFunctor * OutputStore) :=
  let t := tiling p in
  match conv_func_strategy (flags p) with
  | Winograd =>
      '(transformed_filter, transformed, out) ←
        WinoGradConv3x3s1 pad_input filter_data (batch p)
          (extra_input_height t) (extra_input_width t)
          (input_channels p) (channels p) WINOGRAD_OUT_TILE_SIZE
          (data (transformed_filter_ self)) (is_filter_transformed_ self)
          (deref m pad_output);
      Some (with_transformed_filter self transformed_filter transformed,
            assign m pad_output out)
  | NeonK3x3S1 =>
      out ← Conv2dNeonK3x3S1 pad_input filter_data (batch p)
              (extra_input_height t) (extra_input_width t)
              (input_channels p)
              (extra_output_height t) (extra_output_width t) (channels p)
              (deref m pad_output);
      Some (self, assign m pad_output out)
  | NeonK3x3S2 =>
      out ← Conv2dNeonK3x3S2 pad_input filter_data (batch p)
              (extra_input_height t) (extra_input_width t)
              (input_channels p)
              (extra_output_height t) (extra_output_width t) (channels p)
              (deref m pad_output);
      Some (self, assign m pad_output out)
  | NeonK1x1S1 =>
      out ← Conv2dNeonK1x1S1 input_data filter_data (batch p)
              (height p) (width p) (input_channels p) (channels p)
              (output_data m);
      Some (self, assign m to_output out)
  | Generic =>
      out ← Conv2dNCHW pad_input filter_data (batch p)
              (extra_input_height t) (extra_input_width t)
              (input_channels p)
              (extra_output_height t) (extra_output_width t) (channels p)
              (to_int (filter_h p)) (to_int (filter_w p))
              (to_int (stride_h p)) (to_int (stride_w p))
              (to_int (dilation_h p)) (to_int (dilation_w p))
              (deref m pad_output);
      Some (self, assign m pad_output out)
  end.

(** Lines 352-371: the buffers handed to the strategy. *)
Definition prepare_input (p : Plan) (input padded_input : Tensor F)
    : option (Tensor F) :=
  let t := tiling p in
  if needs_padded_input t (input_height p) (input_width p)
  then ConstructNCHWInputWithSpecificPadding input
         (pad_top t) (pad_bottom t) (pad_left t) (pad_right t)
         (Clear padded_input)
  else Some input.

Definition prepare_output (p : Plan) (output padded_output : Tensor F)
    : OutputPtr * OutputStore :=
  let t := tiling p in
  if needs_padded_output t (height p) (width p)
  then (to_padded_output,
        {| output_data := data output;
           padded_output_data :=
             data (Clear (Resize padded_output
                            [batch p; channels p; extra_output_height t;
                             extra_output_width t])) |})
  else (to_output,
        {| output_data := data output;
           padded_output_data := data padded_output |}).

(** Lines 377-394: the strategy's output cropped to the logical shape. *)
Definition crop_output (p : Plan) (pad_output : OutputPtr) (m : OutputStore)
    : option (list F) :=
  let t := tiling p in
  if needs_padded_output t (height p) (width p)
  then unpack_output (deref m pad_output) (batch p) (channels p)
         (height p) (width p)
         (extra_output_height t) (extra_output_width t) (output_data m)
  else Some (output_data m).

(** Lines 396-408: bias and activation. *)
Definition bias_and_activation (p : Plan) (self : Conv2dFunctor)
    (bias : option (Tensor F)) (output_data : list F) (output_size : Z)
    : option (list F) :=
  output_data ←
    match bias with
    | Some bias =>
        add_bias (data bias) (batch p) (channels p) (height p) (width p)
          output_data
    | None => Some output_data
    end;
  DoActivation output_data output_size
    (activation_ self) (relux_max_limit_ self).

(** Lines 377-408: crop, bias and activation. *)
Definition post_process (p : Plan) (self : Conv2dFunctor)
    (bias : option (Tensor F)) (pad_output : OutputPtr) (m : OutputStore)
    (output_size : Z) : option (list F) :=
  output_data ← crop_output p pad_output m;
  bias_and_activation p self bias output_data output_size.

(** Lines 261-408 of [operator()]: what the call does once its geometry is
    planned and the output tensor is sized and cleared.  The transformed
    input and output tensors of lines 264-273 are work space of the Winograd
    kernel; the model has their sizes and views and nothing else of them. *)
Definition execute (p : Plan) (self : Conv2dFunctor)
    (input filter : Tensor F) (bias : option (Tensor F))
    (output : Tensor F) : option (Conv2dFunctor * Tensor F) :=
  let '(scratch, views) := init_scratch (scratch_ self) (sizes p) in
  let padded_input := scratch_tensor (padded_input_view views) in
  let padded_output := scratch_tensor (padded_output_view views) in
  let transformed_filter :=
    if use_winograd (flags p) && negb (is_filter_transformed_ self)
    then Resize (transformed_filter_ self)
           (transformed_filter_shape (tiling p))
    else transformed_filter_ self in
  let self := with_scratch self scratch transformed_filter in
  pad_input ← prepare_input p input padded_input;
  let '(pad_output, m) := prepare_output p output padded_output in
  '(self, m) ←
    conv_func p self (data input) (data filter) (data pad_input)
      pad_output m;
  output_data ← post_process p self bias pad_output m (size output);
  Some (self, {| shape := shape output; data := output_data |}).

(** The functor a successful call on the Winograd strategy leaves behind. *)
Definition after_winograd_call (p : Plan) (self : Conv2dFunctor)
    (filter : Tensor F) : Conv2dFunctor :=
  with_transformed_filter
    (with_scratch self (fst (init_scratch (scratch_ self) (sizes p)))
       (if use_winograd (flags p) && negb (is_filter_transformed_ self)
        then Resize (transformed_filter_ self)
               (transformed_filter_shape (tiling p))
        else transformed_filter_ self))
    (filter_in_use self filter) (negb (is_filter_transformed_ self)).

(** [Conv2dFunctor<DeviceType::NEON, float>::operator()]: the functor
    after the call and the output tensor, or [None] when a check fails or
    a buffer is accessed outside its bounds. *)
Definition Conv2dFunctor_operator (self : Conv2dFunctor)
    (input filter : Tensor F) (bias : option (Tensor F))
    (output : Tensor F) : option (Conv2dFunctor * Tensor F) :=
  p ← plan (paddings_ self) (padding_type_ self) (dilations_ self)
        (strides_ self) (shape input) (shape filter);
  execute p self input filter bias (Clear (Resize output (output_shape p))).

(** The generic direct convolution as the reference of a call: the same
    call with no fast strategy selected, so that lines 331-349 run on the
    naturally padded input. *)
Definition force_generic (p : Plan) : Plan :=
  let fl := {| use_winograd := false; use_neon_3x3_s1 := false;
               use_neon_3x3_s2 := false; use_neon_1x1_s1 := false |} in
  let t := plan_tiling fl (batch p) (channels p) (height p) (width p)
             (input_channels p) (input_height p) (input_width p)
             (fst (paddings p)) (snd (paddings p)) in
  {| output_shape := output_shape p;
     paddings := paddings p;
     batch := batch p; channels := channels p;
     height := height p; width := width p;
     input_batch := input_batch p; input_channels := input_channels p;
     input_height := input_height p; input_width := input_width p;
     filter_h := filter_h p; filter_w := filter_w p;
     stride_h := stride_h p; stride_w := stride_w p;
     dilation_h := dilation_h p; dilation_w := dilation_w p;
     flags := fl; tiling := t;
     sizes := scratch_sizes fl t (batch p) (channels p) (height p) (width p)
                (input_channels p) (input_height p) (input_width p) |}.

(** The call with the generic strategy in place of the selected one. *)
Definition reference_operator (self : Conv2dFunctor)
    (input filter : Tensor F) (bias : option (Tensor F))
    (output : Tensor F) : option (Conv2dFunctor * Tensor F) :=
  p ← plan (paddings_ self) (padding_type_ self) (dilations_ self)
        (strides_ self) (shape input) (shape filter);
  execute (force_generic p) self input filter bias
    (Clear (Resize output (output_shape p))).

(** One operator instance invoked on a sequence of inputs with the filter
    it is bound to; the outputs are listed in call order. *)
Fixpoint invoke_all (self : Conv2dFunctor) (filter : Tensor F)
    (calls : list (Tensor F * option (Tensor F) * Tensor F))
    : option (Conv2dFunctor * list (Tensor F)) :=
  match calls with
  | [] => Some (self, [])
  | (input, bias, output) :: calls =>
      '(self, out) ← Conv2dFunctor_operator self input filter bias output;
      '(self, outs) ← invoke_all self filter calls;
      Some (self, out :: outs)
  end.

End Kernels.

Arguments Conv2dFunctor F : clear implicits.
Arguments OutputStore F : clear implicits.

(** ** Concrete calls over the integers *)

(** A functor that has not been invoked yet, with an empty scratch arena. *)
Definition fresh_functor (strides : Z * Z) (padding_type : Padding)
    (paddings : list Z) (dilations : Z * Z) (activation : ActivationType)
    (limit : Z) : Conv2dFunctor Z :=
  {| strides_ := strides; padding_type_ := padding_type;
     paddings_ := paddings; dilations_ := dilations;
     activation_ := activation; relux_max_limit_ := limit;
     is_filter_transformed_ := false;
     transformed_filter_ := {| shape := []; data := [] |};
     scratch_ := {| size_ := 0; offset_ := 0 |};
     filter_transforms := 0 |}.

(** A tensor of the given shape with every element equal to [v]. *)
Definition filled (shape : list Z) (v : Z) : Tensor Z :=
  {| shape := shape; data := replicate (Z.to_nat (num_elements shape)) v |}.

(** ** The value of one output element *)

Section OutputElement.
Context {F : Type} `{Scalar F}.

(** The innermost three loops of [Conv2dNCHW] (lines 40-53) read and write
    one output element only; this is what they do to its value. *)
Definition conv_cell (input filter : list F)
    (in_height in_width in_channels filter_height filter_width
     stride_h stride_w dilation_h dilation_w : Z) (b m h w : Z) (acc : F)
    : option F :=
  for_range in_channels (λ c,
    for_range filter_height (λ kh,
      for_range filter_width (λ kw acc,
        let ih := h * stride_h + kh * dilation_h in
        let iw := w * stride_w + kw * dilation_w in
        let in_offset :=
          ((b * in_channels + c) * in_height + ih) * in_width + iw in
        let filter_offset :=
          (((m * in_channels) + c) * filter_height + kh)
          * filter_width + kw in
        x ← load input in_offset;
        k ← load filter filter_offset;
        Some (fadd acc (fmul x k))))) acc.

(** A read-modify-write of the element at [offset]. *)
Definition update_cell (f : F → option F) (offset : Z) (buf : list F)
    : option (list F) :=
  acc ← load buf offset;
  acc' ← f acc;
  store buf offset acc'.

End OutputElement.

(** ** Loops that write a range of elements once *)

(** [g] succeeds on every buffer that holds the elements from [lo] to
    [lo + len], replaces each of them by [val] of its offset and of its
    earlier value, and leaves every other element and the length as they
    were. *)
Definition sweeps {F : Type} (g : list F → option (list F)) (lo len : Z)
    (val : Z → F → option F) : Prop :=
  ∀ buf : list F,
    0 ≤ lo → lo + len ≤ Z.of_nat (length buf) →
    ∃ buf',
      g buf = Some buf'
      ∧ length buf' = length buf
      ∧ (∀ off, lo ≤ off < lo + len →
                is_Some (load buf' off)
                ∧ load buf' off = load buf off ≫= val off)
      ∧ (∀ off, ¬ (lo ≤ off < lo + len) → load buf' off = load buf off).

(** ** The padded image *)

(** The element at row [r] and column [s] of the image of batch [b] and
    channel [c], once the input is surrounded by zeros with [pad_top] rows
    above it and [pad_left] columns to its left. *)
Definition padded_pixel {F : Type} `{Scalar F} (input : list F)
    (channels height width pad_top pad_left : Z) (b c r s : Z) : option F :=
  if decide (pad_top ≤ r < pad_top + height
             ∧ pad_left ≤ s < pad_left + width)
  then load input
         (((b * channels + c) * height + (r - pad_top)) * width
          + (s - pad_left))
  else Some fzero.

(** * The bilinear resize functor of mace/kernels/resize_bilinear.h *)

(** The float operations of the resize kernels beyond those of [Scalar]:
    subtraction, division, the conversion of an integer to [float] and
    [static_cast<index_t>] of a [float].  The integers with truncating
    division are an instance. *)
Class Float (F : Type) := {
  fsub : F → F → F;
  fdiv : F → F → F;
  of_index : Z → F;
  to_index : F → Z
}.

#[global] Instance Z_Float : Float Z :=
  {| fsub := Z.sub; fdiv := Z.quot; of_index := id; to_index := id |}.

(** [for (index_t i = hi; i >= 0; --i)]. *)
Fixpoint loop_down {S : Type} (n : nat) (body : Z → S → option S) (s : S)
    : option S :=
  match n with
  | O => Some s
  | Datatypes.S k => s' ← body (Z.of_nat k) s; loop_down k body s'
  end.

Definition for_down_from {S : Type} (hi : Z) (body : Z → S → option S)
    (s : S) : option S :=
  loop_down (Z.to_nat (hi + 1)) body s.

(** An assignment to one field of the element [table[i]]. *)
Definition modify {A : Type} (table : list A) (i : Z) (f : A → A)
    : option (list A) :=
  e ← load table i;
  store table i (f e).

Section ResizeBilinear.
Context {F : Type} `{Scalar F} `{Float F}.

Record CachedInterpolation := {
  lower : Z;
  upper : Z;
  lerp : F
}.

Definition with_lower (v : Z) (e : CachedInterpolation)
    : CachedInterpolation :=
  {| lower := v; upper := upper e; lerp := lerp e |}.

Definition with_upper (v : Z) (e : CachedInterpolation)
    : CachedInterpolation :=
  {| lower := lower e; upper := v; lerp := lerp e |}.

Definition with_lerp (v : F) (e : CachedInterpolation)
    : CachedInterpolation :=
  {| lower := lower e; upper := upper e; lerp := v |}.

(** Lines 38-44. *)
Definition CalculateResizeScale (in_size out_size : Z)
    (align_corners : bool) : F :=
  if align_corners && bool_decide (1 < out_size)
  then fdiv (of_index (in_size - 1)) (of_index (out_size - 1))
  else fdiv (of_index in_size) (of_index out_size).

(** Lines 46-59. *)
Definition ComputeInterpolationWeights (out_size in_size : Z) (scale : F)
    (interpolation : list CachedInterpolation)
    : option (list CachedInterpolation) :=
  interpolation ← modify interpolation out_size (with_lower 0);
  interpolation ← modify interpolation out_size (with_upper 0);
  for_down_from (out_size - 1) (λ i interpolation,
    let in_ := fmul (of_index i) scale in
    interpolation ← modify interpolation i (with_lower (to_index in_));
    interpolation ←
      modify interpolation i
        (λ e, with_upper (Z.min (lower e + 1) (in_size - 1)) e);
    modify interpolation i
      (λ e, with_lerp (fsub in_ (of_index (lower e))) e)) interpolation.

(** Lines 69-79: [ComputeLerp<float>]. *)
Definition ComputeLerp_float
    (top_left top_right bottom_left bottom_right x_lerp y_lerp : F) : F :=
  let top := fadd top_left (fmul (fsub top_right top_left) x_lerp) in
  let bottom :=
    fadd bottom_left (fmul (fsub bottom_right bottom_left) x_lerp) in
  fadd top (fmul (fsub bottom top) y_lerp).

(** Lines 81-91: [ComputeLerp<uint8_t>].  The differences of the pixels are
    integer differences, converted to [float] for the products.
    [Saturate_roundf] stands for [Saturate<uint8_t>] after [roundf]; they
    are library functions outside this file. *)
Definition ComputeLerp_uint8 (Saturate_roundf : F → Z)
    (top_left top_right bottom_left bottom_right : Z) (x_lerp y_lerp : F)
    : Z :=
  let top :=
    fadd (of_index top_left) (fmul (of_index (top_right - top_left)) x_lerp) in
  let bottom :=
    fadd (of_index bottom_left)
      (fmul (of_index (bottom_right - bottom_left)) x_lerp) in
  Saturate_roundf (fadd top (fmul (fsub bottom top) y_lerp)).

(** Lines 93-134: [ResizeImageNCHW<T>], with the [ComputeLerp] of its
    element type. *)
Definition ResizeImageNCHW {T : Type}
    (ComputeLerp : T → T → T → T → F → F → T) (images : list T)
    (batch_size in_height in_width out_height out_width channels : Z)
    (xs ys : list CachedInterpolation) (output : list T)
    : option (list T) :=
  for_range batch_size (λ b,
    for_range channels (λ c,
      let channel_input := (b * channels + c) * in_height * in_width in
      let channel_output := (b * channels + c) * out_height * out_width in
      for_range out_height (λ y output,
        ys_y ← load ys y;
        let y_lower_input := channel_input + lower ys_y * in_width in
        let y_upper_input := channel_input + upper ys_y * in_width in
        let ys_lerp := lerp ys_y in
        for_range out_width (λ x output,
          xs_x ← load xs x;
          let xs_lerp := lerp xs_x in
          top_left ← load images (y_lower_input + lower xs_x);
          top_right ← load images (y_lower_input + upper xs_x);
          bottom_left ← load images (y_upper_input + lower xs_x);
          bottom_right ← load images (y_upper_input + upper xs_x);
          store output (channel_output + (y * out_width + x))
            (ComputeLerp top_left top_right bottom_left bottom_right
               xs_lerp ys_lerp)) output)))
    output.

(** Lines 136-176: [ResizeImageNHWC<T>]. *)
Definition ResizeImageNHWC {T : Type}
    (ComputeLerp : T → T → T → T → F → F → T) (images : list T)
    (batch_size in_height in_width out_height out_width channels : Z)
    (xs ys : list CachedInterpolation) (output : list T)
    : option (list T) :=
  for_range batch_size (λ b,
    let input_base := b * channels * in_height * in_width in
    let output_base := b * channels * out_height * out_width in
    for_range out_height (λ y output,
      ys_y ← load ys y;
      let y_lower_input := input_base + lower ys_y * in_width * channels in
      let y_upper_input := input_base + upper ys_y * in_width * channels in
      let ys_lerp := lerp ys_y in
      for_range out_width (λ x output,
        xs_x ← load xs x;
        let xs_lerp := lerp xs_x in
        let top_left := y_lower_input + lower xs_x * channels in
        let top_right := y_lower_input + upper xs_x * channels in
        let bottom_left := y_upper_input + lower xs_x * channels in
        let bottom_right := y_upper_input + upper xs_x * channels in
        let output_ptr := output_base + (y * out_width + x) * channels in
        for_range channels (λ c output,
          tl ← load images (top_left + c);
          tr ← load images (top_right + c);
          bl ← load images (bottom_left + c);
          br ← load images (bottom_right + c);
          store output (output_ptr + c)
            (ComputeLerp tl tr bl br xs_lerp ys_lerp)) output) output))
    output.

(** The members of [ResizeBilinearFunctor]. *)
Record ResizeBilinearFunctor := {
  align_corners_ : bool;
  out_height_ : Z;
  out_width_ : Z
}.

(** Lines 180-187 and 249-256: the constructor. *)
Definition ResizeBilinearFunctor_new (size : list Z) (align_corners : bool)
    : option ResizeBilinearFunctor :=
  _ ← MACE_CHECK (length size = 2%nat);
  out_height ← size !! 0%nat;
  out_width ← size !! 1%nat;
  Some {| align_corners_ := align_corners;
          out_height_ := out_height; out_width_ := out_width |}.

(** The tables [std::vector<CachedInterpolation>(n)] starts from. *)
Definition fresh_table (n : Z) : list CachedInterpolation :=
  replicate (Z.to_nat n) {| lower := 0; upper := 0; lerp := fzero |}.

(** Lines 216-237 and 285-306: the scales, the two tables and the kernel of
    the layout. *)
Definition resize_image {T : Type}
    (kernel : list T → Z → Z → Z → Z → Z → Z →
              list CachedInterpolation → list CachedInterpolation →
              list T → option (list T))
    (align_corners : bool) (input_data : list T)
    (batch in_height in_width out_height out_width channels : Z)
    (output_data : list T) : option (list T) :=
  let height_scale :=
    CalculateResizeScale in_height out_height align_corners in
  let width_scale := CalculateResizeScale in_width out_width align_corners in
  let ys := fresh_table (out_height + 1) in
  let xs := fresh_table (out_width + 1) in
  ys ← ComputeInterpolationWeights out_height in_height height_scale ys;
  xs ← ComputeInterpolationWeights out_width in_width width_scale xs;
  kernel input_data batch in_height in_width out_height out_width channels
    xs ys output_data.

(** Lines 189-240: [ResizeBilinearFunctor<D, T>::operator()] on the NCHW
    layout, for [float].  [MACE_RETURN_IF_ERROR] of the allocation of the
    output has no failing case here. *)
Definition ResizeBilinearFunctor_operator (uninit : F)
    (self : ResizeBilinearFunctor) (input output : Tensor F)
    : option (Tensor F) :=
  batch ← shape input !! 0%nat;
  channels ← shape input !! 1%nat;
  in_height ← shape input !! 2%nat;
  in_width ← shape input !! 3%nat;
  let out_height := out_height_ self in
  let out_width := out_width_ self in
  _ ← MACE_CHECK (0 < out_height ∧ 0 < out_width);
  let out_shape := [batch; channels; out_height; out_width] in
  let output := Resize uninit output out_shape in
  if decide (out_height = in_height ∧ out_width = in_width) then
    output_data ←
      memcpy (data output) 0 (data input) 0
        (batch * channels * in_height * in_width);
    Some {| shape := out_shape; data := output_data |}
  else
    output_data ←
      resize_image (ResizeImageNCHW ComputeLerp_float) (align_corners_ self)
        (data input) batch in_height in_width out_height out_width channels
        (data output);
    Some {| shape := out_shape; data := output_data |}.

(** Lines 258-309: [ResizeBilinearFunctor<D, uint8_t>::operator()], on the
    NHWC layout. *)
Definition ResizeBilinearFunctor_uint8_operator (Saturate_roundf : F → Z)
    (uninit : Z) (self : ResizeBilinearFunctor) (input output : Tensor Z)
    : option (Tensor Z) :=
  batch ← shape input !! 0%nat;
  in_height ← shape input !! 1%nat;
  in_width ← shape input !! 2%nat;
  channels ← shape input !! 3%nat;
  let out_height := out_height_ self in
  let out_width := out_width_ self in
  _ ← MACE_CHECK (0 < out_height ∧ 0 < out_width);
  let out_shape := [batch; out_height; out_width; channels] in
  let output := Resize uninit output out_shape in
  if decide (out_height = in_height ∧ out_width = in_width) then
    output_data ←
      memcpy (data output) 0 (data input) 0
        (batch * in_height * in_width * channels);
    Some {| shape := out_shape; data := output_data |}
  else
    output_data ←
      resize_image (ResizeImageNHWC (ComputeLerp_uint8 Saturate_roundf))
        (align_corners_ self) (data input)
        batch in_height in_width out_height out_width channels
        (data output);
    Some {| shape := out_shape; data := output_data |}.

End ResizeBilinear.

Arguments CachedInterpolation F : clear implicits.

(** * Properties *)

(** ** Machine integers *)

Lemma to_int_small z : - 2 ^ 31 ≤ z < 2 ^ 31 → to_int z = z.
Proof.
  intros Hz. unfold to_int, wrap_signed.
  replace (2 ^ (32 - 1)) with (2 ^ 31) by reflexivity.
  rewrite Z.mod_small; lia.
Qed.

Lemma to_int_congruent z : ∃ k, to_int z = z + k * 2 ^ 32.
Proof.
  unfold to_int, wrap_signed.
  exists (- ((z + 2 ^ (32 - 1)) `div` 2 ^ 32)).
  pose proof (Z.div_mod (z + 2 ^ (32 - 1)) (2 ^ 32)). lia.
Qed.

Lemma to_int_mul_l a x : to_int (to_int a * x) = to_int (a * x).
Proof.
  destruct (to_int_congruent a) as [k ->].
  unfold to_int, wrap_signed. f_equal.
  replace ((a + k * 2 ^ 32) * x + 2 ^ (32 - 1))
    with (a * x + 2 ^ (32 - 1) + (k * x) * 2 ^ 32) by ring.
  apply Z_mod_plus_full.
Qed.

Lemma accumulate_multiplies_4 a b c d :
  accumulate_multiplies [a; b; c; d] = to_int (a * b * c * d).
Proof.
  unfold accumulate_multiplies. cbn [fold_left].
  repeat (rewrite to_int_mul_l; rewrite <- ?Z.mul_assoc).
  f_equal. ring.
Qed.

Lemma times_sizeof_float_small x :
  0 ≤ x < 2 ^ 61 → times_sizeof_float x = 4 * x.
Proof.
  intros Hx. unfold times_sizeof_float, to_index_t, to_size_t, wrap_signed,
    sizeof_float.
  replace (2 ^ (64 - 1)) with (2 ^ 63) by reflexivity.
  rewrite (Z.mod_small x), (Z.mod_small (x * 4)), Z.mod_small; lia.
Qed.

(** ** Rounding *)

Lemma RoundUp_rounds_up i factor :
  0 ≤ i → 0 < factor → rounds_up i factor (RoundUp i factor).
Proof.
  intros Hi Hf. unfold rounds_up, RoundUp.
  rewrite Z.quot_div_nonneg by lia.
  split; [apply Z.divide_factor_r |].
  pose proof (Z.div_mod (i + factor - 1) factor).
  pose proof (Z.mod_pos_bound (i + factor - 1) factor). lia.
Qed.

Lemma rounds_up_unique i factor r r' :
  rounds_up i factor r → rounds_up i factor r' → r = r'.
Proof.
  intros [[k ->] Hr] [[k' ->] Hr']. f_equal. nia.
Qed.

(** ** StrategySelector *)

Section Selector.
Variables filter_h filter_w stride_h stride_w dilation_h dilation_w : Z.
Variables in_channels out_channels : Z.

Local Abbreviation fl :=
  (select_flags filter_h filter_w stride_h stride_w
     dilation_h dilation_w in_channels out_channels).

Ltac flag_reflect :=
  unfold select_flags, applies, USE_WINOGRAD; simpl;
  let HP := fresh "HP" in
  let Ht := fresh "Ht" in
  case_bool_decide as HP;
  [ destruct_and!; subst; simpl;
    rewrite ?andb_true_iff, ?Z.geb_le; done
  | apply not_true_is_false; intros Ht; apply HP;
    rewrite ?andb_true_iff, ?Z.eqb_eq, ?Z.geb_le in Ht; tauto ].

Lemma use_winograd_applies :
  use_winograd fl
  = applies Winograd filter_h filter_w stride_h stride_w
      dilation_h dilation_w in_channels out_channels.
Proof. flag_reflect. Qed.

Lemma use_neon_3x3_s1_applies :
  use_neon_3x3_s1 fl
  = applies NeonK3x3S1 filter_h filter_w stride_h stride_w
      dilation_h dilation_w in_channels out_channels.
Proof. flag_reflect. Qed.

Lemma use_neon_3x3_s2_applies :
  use_neon_3x3_s2 fl
  = applies NeonK3x3S2 filter_h filter_w stride_h stride_w
      dilation_h dilation_w in_channels out_channels.
Proof. flag_reflect. Qed.

Lemma use_neon_1x1_s1_applies :
  use_neon_1x1_s1 fl
  = applies NeonK1x1S1 filter_h filter_w stride_h stride_w
      dilation_h dilation_w in_channels out_channels.
Proof. flag_reflect. Qed.

Lemma selector_first_match :
  StrategySelector filter_h filter_w stride_h stride_w
    dilation_h dilation_w in_channels out_channels
  = Some (conv_func_strategy fl)
  ∧ (conv_func_strategy fl = Winograd
     ↔ filter_h = 3 ∧ filter_w = 3 ∧ stride_h = 1 ∧ stride_w = 1
       ∧ dilation_h = 1 ∧ dilation_w = 1
       ∧ 8 ≤ in_channels ∧ 8 ≤ out_channels).
Proof.
  unfold StrategySelector, conv_func_strategy, priority_order.
  rewrite use_winograd_applies, use_neon_3x3_s1_applies,
    use_neon_3x3_s2_applies, use_neon_1x1_s1_applies.
  cbn [List.find].
  split.
  - repeat match goal with
           | |- context [if applies ?s ?a ?b ?c ?d ?e ?f ?g ?h then _ else _] =>
               destruct (applies s a b c d e f g h) eqn:?
           end; done.
  - assert (Hw : applies Winograd filter_h filter_w stride_h stride_w
                   dilation_h dilation_w in_channels out_channels = true
                 ↔ filter_h = 3 ∧ filter_w = 3 ∧ stride_h = 1 ∧ stride_w = 1
                   ∧ dilation_h = 1 ∧ dilation_w = 1
                   ∧ 8 ≤ in_channels ∧ 8 ≤ out_channels)
      by apply bool_decide_eq_true.
    rewrite <- Hw.
    repeat match goal with
           | |- context [if applies ?s ?a ?b ?c ?d ?e ?f ?g ?h then _ else _] =>
               destruct (applies s a b c d e f g h) eqn:?
           end; split; congruence.
Qed.

End Selector.

(** ** TilingPlanner *)

Section TilingPlanner.
Variable fl : Flags.
Variables batch channels height width : Z.
Variables input_channels input_height input_width : Z.
Variables paddings0 paddings1 : Z.

Local Abbreviation t :=
  (plan_tiling fl batch channels height width
     input_channels input_height input_width paddings0 paddings1).
Local Abbreviation padded_input_height := (input_height + paddings0).
Local Abbreviation padded_input_width := (input_width + paddings1).

(** C4: the extended extents of each strategy.  Winograd rounds the output
    height and width up to multiples of 6 and the fused 3x3 stride-1 kernel
    to multiples of 2 and 4, both with
    [extra_input = max(natural padded input, extra_output + 2)]; the fused
    3x3 stride-2 kernel keeps the height, rounds the width up to a multiple
    of 4 and takes [max(natural padded input, (extra_output - 1) * 2 + 3)];
    the fused 1x1 kernel and the generic strategy extend nothing. *)
Theorem tiling_extents_per_strategy :
  0 ≤ height → 0 ≤ width →
  match conv_func_strategy fl with
  | Winograd =>
      rounds_up height 6 (extra_output_height t)
      ∧ rounds_up width 6 (extra_output_width t)
      ∧ extra_input_height t
        = Z.max padded_input_height (extra_output_height t + 2)
      ∧ extra_input_width t
        = Z.max padded_input_width (extra_output_width t + 2)
  | NeonK3x3S1 =>
      rounds_up height 2 (extra_output_height t)
      ∧ rounds_up width 4 (extra_output_width t)
      ∧ extra_input_height t
        = Z.max padded_input_height (extra_output_height t + 2)
      ∧ extra_input_width t
        = Z.max padded_input_width (extra_output_width t + 2)
  | NeonK3x3S2 =>
      extra_output_height t = height
      ∧ rounds_up width 4 (extra_output_width t)
      ∧ extra_input_height t
        = Z.max padded_input_height ((extra_output_height t - 1) * 2 + 3)
      ∧ extra_input_width t
        = Z.max padded_input_width ((extra_output_width t - 1) * 2 + 3)
  | NeonK1x1S1 | Generic =>
      extra_output_height t = height
      ∧ extra_output_width t = width
      ∧ extra_input_height t = padded_input_height
      ∧ extra_input_width t = padded_input_width
  end.
Proof.
  intros Hh Hw. unfold conv_func_strategy, plan_tiling, WINOGRAD_OUT_TILE_SIZE.
  destruct (use_winograd fl); [|destruct (use_neon_3x3_s1 fl);
    [|destruct (use_neon_3x3_s2 fl); [|destruct (use_neon_1x1_s1 fl)]]];
    cbn [extra_output_height extra_output_width extra_input_height
         extra_input_width];
    repeat match goal with |- _ ∧ _ => split end;
    first [reflexivity | apply RoundUp_rounds_up; lia].
Qed.

Lemma shiftr_1_bounds p : 0 ≤ p → 0 ≤ Z.shiftr p 1 ≤ p.
Proof.
  intros Hp. rewrite Z.shiftr_div_pow2 by lia. change (2 ^ 1) with 2.
  pose proof (Z.div_mod p 2). pose proof (Z.mod_pos_bound p 2). lia.
Qed.

Lemma add_shortfall_exact pad extra padded :
  0 ≤ pad < 2 ^ 29 → padded ≤ extra < padded + 2 ^ 30 + 8 →
  add_shortfall pad extra padded = pad + (extra - padded).
Proof.
  intros Hpad Hextra. unfold add_shortfall.
  case_decide; [apply to_int_small|]; lia.
Qed.

(** C5: the total padding of each dimension is split as
    [before = total >> 1] and [after = total - before]; the shortfall between
    the extended and the natural padded input extent is never negative and is
    added to the bottom and right padding only, so the padding fills the
    extended extent exactly, and the top and left padding are the same
    whichever strategy the planner works for. *)
Theorem shortfall_goes_to_after_padding :
  0 ≤ height < 2 ^ 29 → 0 ≤ width < 2 ^ 29 →
  0 ≤ input_height → 0 ≤ input_width →
  0 ≤ paddings0 < 2 ^ 29 → 0 ≤ paddings1 < 2 ^ 29 →
  pad_top t = Z.shiftr paddings0 1
  ∧ pad_left t = Z.shiftr paddings1 1
  ∧ pad_bottom t
    = (paddings0 - Z.shiftr paddings0 1)
      + (extra_input_height t - padded_input_height)
  ∧ pad_right t
    = (paddings1 - Z.shiftr paddings1 1)
      + (extra_input_width t - padded_input_width)
  ∧ 0 ≤ extra_input_height t - padded_input_height
  ∧ 0 ≤ extra_input_width t - padded_input_width
  ∧ input_height + pad_top t + pad_bottom t = extra_input_height t
  ∧ input_width + pad_left t + pad_right t = extra_input_width t
  ∧ ∀ fl',
      pad_top (plan_tiling fl' batch channels height width input_channels
                 input_height input_width paddings0 paddings1) = pad_top t
      ∧ pad_left (plan_tiling fl' batch channels height width input_channels
                    input_height input_width paddings0 paddings1)
        = pad_left t.
Proof.
  intros Hh Hw Hih Hiw Hp0 Hp1.
  pose proof (shiftr_1_bounds paddings0 ltac:(lia)) as Hs0.
  pose proof (shiftr_1_bounds paddings1 ltac:(lia)) as Hs1.
  destruct (RoundUp_rounds_up height 6 ltac:(lia) ltac:(lia)) as [_ Hh6].
  destruct (RoundUp_rounds_up width 6 ltac:(lia) ltac:(lia)) as [_ Hw6].
  destruct (RoundUp_rounds_up height 2 ltac:(lia) ltac:(lia)) as [_ Hh2].
  destruct (RoundUp_rounds_up width 4 ltac:(lia) ltac:(lia)) as [_ Hw4].
  assert (Htop : ∀ fl', pad_top (plan_tiling fl' batch channels height width
            input_channels input_height input_width paddings0 paddings1)
          = Z.shiftr paddings0 1
          ∧ pad_left (plan_tiling fl' batch channels height width
            input_channels input_height input_width paddings0 paddings1)
          = Z.shiftr paddings1 1).
  { intros fl'. unfold plan_tiling.
    destruct (use_winograd fl'), (use_neon_3x3_s1 fl'),
      (use_neon_3x3_s2 fl'); done. }
  destruct (Htop fl) as [Ht Hl].
  assert (Hbody :
    pad_bottom t = (paddings0 - Z.shiftr paddings0 1)
                   + (extra_input_height t - padded_input_height)
    ∧ pad_right t = (paddings1 - Z.shiftr paddings1 1)
                    + (extra_input_width t - padded_input_width)
    ∧ 0 ≤ extra_input_height t - padded_input_height
    ∧ 0 ≤ extra_input_width t - padded_input_width).
  { unfold plan_tiling, WINOGRAD_OUT_TILE_SIZE.
    destruct (use_winograd fl); [|destruct (use_neon_3x3_s1 fl);
      [|destruct (use_neon_3x3_s2 fl)]];
      cbn [pad_bottom pad_right extra_input_height extra_input_width];
      rewrite ?add_shortfall_exact by lia; lia. }
  destruct Hbody as (Hb & Hr & Hsh & Hsw).
  repeat match goal with |- _ ∧ _ => split end; try done; try lia.
  intros fl'. destruct (Htop fl') as [-> ->]. done.
Qed.

End TilingPlanner.

(** ** ScratchArena *)

Section ScratchArena.
Variable fl : Flags.
Variable t : Tiling.
Variables batch channels height width : Z.
Variables input_channels input_height input_width : Z.
Variable scratch : ScratchBuffer.

Local Abbreviation sz :=
  (scratch_sizes fl t batch channels height width
     input_channels input_height input_width).
Local Abbreviation views := (snd (init_scratch scratch sz)).
Local Abbreviation scratch' := (fst (init_scratch scratch sz)).

Lemma total_scratch_size_sum :
  total_scratch_size sz
  = transformed_input_size sz + transformed_output_size sz
    + padded_input_size sz + padded_output_size sz.
Proof.
  unfold scratch_sizes.
  cbn [total_scratch_size transformed_input_size transformed_output_size
       padded_input_size padded_output_size].
  destruct (use_winograd fl), (needs_padded_input t input_height input_width),
    (needs_padded_output t height width); lia.
Qed.

Lemma init_scratch_views :
  transformed_input_view views
  = {| slice_offset := 0; slice_length := transformed_input_size sz |}
  ∧ transformed_output_view views
    = {| slice_offset := transformed_input_size sz;
         slice_length := transformed_output_size sz |}
  ∧ padded_input_view views
    = {| slice_offset :=
           transformed_input_size sz + transformed_output_size sz;
         slice_length := padded_input_size sz |}
  ∧ padded_output_view views
    = {| slice_offset :=
           transformed_input_size sz + transformed_output_size sz
           + padded_input_size sz;
         slice_length := padded_output_size sz |}
  ∧ offset_ scratch' = total_scratch_size sz
  ∧ size_ scratch' = Z.max (size_ scratch) (total_scratch_size sz).
Proof.
  pose proof total_scratch_size_sum as Hsum.
  unfold init_scratch, Scratch, GrowSize, Rewind.
  case_decide as Hgrow; cbn [size_] in Hgrow; cbn [fst snd transformed_input_view transformed_output_view
    padded_input_view padded_output_view offset_ size_];
    repeat match goal with |- _ ∧ _ => split end;
    first [reflexivity | f_equal; lia | lia].
Qed.

(** C6 (as amended): the byte total of a call is the exact sum of its four
    components.  The transformed buffers are counted for Winograd only, the
    padded input only if the extended input extents differ from the input
    tensor's own height or width, the padded output only if the extended
    output extents differ from the logical output.  The arena hands out
    views that follow one another from offset zero in the order transformed
    input, transformed output, padded input, padded output, share no byte,
    end at the total, fit the capacity, and are empty for unused
    components. *)
Theorem scratch_total_and_views :
  0 ≤ transformed_input_size sz → 0 ≤ transformed_output_size sz →
  0 ≤ padded_input_size sz → 0 ≤ padded_output_size sz →
  total_scratch_size sz
  = transformed_input_size sz + transformed_output_size sz
    + padded_input_size sz + padded_output_size sz
  ∧ (use_winograd fl = false →
     transformed_input_size sz = 0 ∧ transformed_output_size sz = 0)
  ∧ (extra_input_height t = input_height →
     extra_input_width t = input_width → padded_input_size sz = 0)
  ∧ (extra_output_height t = height →
     extra_output_width t = width → padded_output_size sz = 0)
  ∧ slice_offset (transformed_input_view views) = 0
  ∧ slice_offset (transformed_output_view views)
    = slice_offset (transformed_input_view views)
      + slice_length (transformed_input_view views)
  ∧ slice_offset (padded_input_view views)
    = slice_offset (transformed_output_view views)
      + slice_length (transformed_output_view views)
  ∧ slice_offset (padded_output_view views)
    = slice_offset (padded_input_view views)
      + slice_length (padded_input_view views)
  ∧ slice_offset (padded_output_view views)
    + slice_length (padded_output_view views) = total_scratch_size sz
  ∧ slice_length (transformed_input_view views) = transformed_input_size sz
  ∧ slice_length (transformed_output_view views) = transformed_output_size sz
  ∧ slice_length (padded_input_view views) = padded_input_size sz
  ∧ slice_length (padded_output_view views) = padded_output_size sz
  ∧ disjoint_views (transformed_input_view views)
      (transformed_output_view views)
  ∧ disjoint_views (transformed_input_view views) (padded_input_view views)
  ∧ disjoint_views (transformed_input_view views) (padded_output_view views)
  ∧ disjoint_views (transformed_output_view views) (padded_input_view views)
  ∧ disjoint_views (transformed_output_view views) (padded_output_view views)
  ∧ disjoint_views (padded_input_view views) (padded_output_view views)
  ∧ offset_ scratch' = total_scratch_size sz
  ∧ total_scratch_size sz ≤ size_ scratch'
  ∧ size_ scratch ≤ size_ scratch'.
Proof.
  intros Hti Hto Hpi Hpo.
  destruct init_scratch_views as (-> & -> & -> & -> & -> & ->).
  pose proof total_scratch_size_sum as Hsum.
  unfold disjoint_views. cbn [slice_offset slice_length].
  repeat match goal with |- _ ∧ _ => split end; try lia.
  - intros Hw. unfold scratch_sizes.
    cbn [transformed_input_size transformed_output_size]. by rewrite Hw.
  - intros Hh Hw. unfold scratch_sizes, needs_padded_input.
    cbn [padded_input_size]. rewrite bool_decide_eq_false_2; [done | tauto].
  - intros Hh Hw. unfold scratch_sizes, needs_padded_output.
    cbn [padded_output_size]. rewrite bool_decide_eq_false_2; [done | tauto].
Qed.

End ScratchArena.

(** C6 as stated fails: for a 4x4 input with total padding 2 and a 3x3
    stride-1 filter the extended input extents equal the natural padded
    extents (6x6), and the padded-input buffer is counted all the same. *)
Lemma padded_input_counted_without_extension :
  ∃ p, plan [2; 2] VALID (1, 1) (1, 1) [1; 1; 4; 4] [1; 1; 3; 3] = Some p
       ∧ extra_input_height (tiling p) = input_height p + fst (paddings p)
       ∧ extra_input_width (tiling p) = input_width p + snd (paddings p)
       ∧ padded_input_size (sizes p) = 144
       ∧ total_scratch_size (sizes p) = 144.
Proof. eexists. split; [reflexivity |]. repeat split. Qed.

Lemma scratch_total_and_views_witness :
  let fl := select_flags 3 3 1 1 1 1 8 8 in
  let t := plan_tiling fl 1 8 5 5 8 5 5 2 2 in
  let sz := scratch_sizes fl t 1 8 5 5 8 5 5 in
  let views := snd (init_scratch {| size_ := 0; offset_ := 0 |} sz) in
  total_scratch_size sz = 7296
  ∧ padded_output_view views
    = {| slice_offset := 6144; slice_length := 1152 |}
  ∧ disjoint_views (padded_input_view views) (padded_output_view views).
Proof.
  intros fl t sz views.
  pose proof (scratch_total_and_views fl t 1 8 5 5 8 5 5
                {| size_ := 0; offset_ := 0 |}
                ltac:(vm_compute; discriminate)
                ltac:(vm_compute; discriminate)
                ltac:(vm_compute; discriminate)
                ltac:(vm_compute; discriminate)) as Hthm.
  split; [reflexivity | split; [reflexivity | apply Hthm]].
Defined.

Lemma tiling_extents_per_strategy_witness :
  rounds_up 5 6
    (extra_output_height
       (plan_tiling (select_flags 3 3 1 1 1 1 8 8) 1 8 5 5 8 5 5 2 2))
  ∧ extra_input_height
      (plan_tiling (select_flags 3 3 1 1 1 1 8 8) 1 8 5 5 8 5 5 2 2) = 8.
Proof.
  pose proof (tiling_extents_per_strategy (select_flags 3 3 1 1 1 1 8 8)
                1 8 5 5 8 5 5 2 2 ltac:(lia) ltac:(lia)) as Hthm.
  split; [apply Hthm | reflexivity].
Defined.

Lemma shortfall_goes_to_after_padding_witness :
  pad_top (plan_tiling (select_flags 3 3 1 1 1 1 8 8) 1 8 5 5 8 5 5 2 2) = 1
  ∧ pad_bottom (plan_tiling (select_flags 3 3 1 1 1 1 8 8) 1 8 5 5 8 5 5 2 2)
    = (2 - Z.shiftr 2 1) + (8 - (5 + 2)).
Proof.
  pose proof (shortfall_goes_to_after_padding (select_flags 3 3 1 1 1 1 8 8)
                1 8 5 5 8 5 5 2 2 ltac:(lia) ltac:(lia) ltac:(lia) ltac:(lia)
                ltac:(lia) ltac:(lia)) as (Ht & _ & Hb & _).
  split; [exact Ht | exact Hb].
Defined.

(** ** ShapeResolver *)

Lemma plan_resolved paddings_ padding_type_ dilations_ strides_
    n ic ih iw oc kh kw ph pw :
  resolved_padding paddings_ padding_type_ dilations_ kh kw = Some (ph, pw) →
  0 < output_extent ih ph (fst dilations_) kh (fst strides_) →
  0 < output_extent iw pw (snd dilations_) kw (snd strides_) →
  plan paddings_ padding_type_ dilations_ strides_
    [n; ic; ih; iw] [oc; ic; kh; kw]
  = Some (planned n ic ih iw oc kh kw ph pw dilations_ strides_).
Proof.
  intros Hpad Hh Hw. unfold plan, resolve_shape, planned.
  destruct paddings_ as [|p0 [|p1 rest]]; simpl in Hpad; simplify_eq.
  - unfold CalcNCHWPaddingAndOutputSize, CalcNCHWOutputSize.
    rewrite decide_True by done. cbn. unfold MACE_CHECK.
    rewrite !decide_True by done. reflexivity.
  - unfold CalcNCHWOutputSize.
    rewrite decide_True by done. cbn. unfold MACE_CHECK.
    rewrite !decide_True by done. reflexivity.
Qed.

Section Operator.
Context {F : Type} `{Scalar F}.
Variable uninit : F.




End Operator.


(** ** Loops and buffers *)

Section Loops.
Context {S : Type}.
Implicit Types (body : Z → S → option S) (s : S).

Lemma loop_from_invariant (P : Z → S → Prop) body n i s :
  P i s →
  (∀ j s, i ≤ j < i + Z.of_nat n → P j s →
          ∃ s', body j s = Some s' ∧ P (j + 1) s') →
  ∃ s', loop_from i n body s = Some s' ∧ P (i + Z.of_nat n) s'.
Proof.
  revert i s. induction n as [|n IH]; intros i s Hs Hstep.
  - exists s. split; [done |]. by replace (i + Z.of_nat 0) with i by lia.
  - destruct (Hstep i s ltac:(lia) Hs) as (s1 & Hbody & Hs1).
    destruct (IH (i + 1) s1 Hs1) as (s' & Hloop & Hs').
    { intros j s2 Hj. apply Hstep. lia. }
    exists s'. cbn [loop_from]. rewrite Hbody. cbn. split; [done |].
    by replace (i + Z.of_nat (Datatypes.S n)) with (i + 1 + Z.of_nat n)
      by lia.
Qed.

Lemma for_range_invariant (P : Z → S → Prop) body n s :
  0 ≤ n → P 0 s →
  (∀ j s, 0 ≤ j < n → P j s → ∃ s', body j s = Some s' ∧ P (j + 1) s') →
  ∃ s', for_range n body s = Some s' ∧ P n s'.
Proof.
  intros Hn Hs Hstep. unfold for_range.
  destruct (loop_from_invariant P body (Z.to_nat n) 0 s Hs)
    as (s' & Hloop & Hs').
  { intros j s1 Hj. apply Hstep. lia. }
  exists s'. split; [done |]. by replace n with (0 + Z.of_nat (Z.to_nat n))
    by lia.
Qed.


End Loops.

Lemma flat_index_bounds q r Q M :
  0 ≤ q < Q → 0 ≤ r < M → 0 ≤ q * M + r < Q * M.
Proof.
  intros Hq Hr. assert (0 ≤ q * M) by nia.
  assert (q * M ≤ (Q - 1) * M) by (apply Z.mul_le_mono_nonneg_r; lia). lia.
Qed.

Lemma flat_index_inj q r q' r' M :
  0 ≤ r < M → 0 ≤ r' < M → q * M + r = q' * M + r' → q = q' ∧ r = r'.
Proof.
  intros Hr Hr' Heq.
  assert (q = q') as ->; [|lia].
  destruct (Z.lt_total q q') as [Hlt | [-> | Hlt]]; [|done|].
  - assert ((q + 1) * M ≤ q' * M) by (apply Z.mul_le_mono_nonneg_r; lia). lia.
  - assert ((q' + 1) * M ≤ q * M) by (apply Z.mul_le_mono_nonneg_r; lia). lia.
Qed.

Section Buffers.
Context {F : Type}.
Implicit Types (buf : list F) (off : Z).

Lemma load_is_Some buf off :
  0 ≤ off < Z.of_nat (length buf) → ∃ x, load buf off = Some x.
Proof.
  intros Hoff. unfold load. rewrite decide_True by lia.
  destruct (lookup_lt_is_Some_2 buf (Z.to_nat off)) as [x Hx]; [lia | eauto].
Qed.

Lemma load_Some_bounds buf off x :
  load buf off = Some x → 0 ≤ off < Z.of_nat (length buf).
Proof.
  unfold load. case_decide; [|done]. intros Hx%lookup_lt_Some. lia.
Qed.

Lemma store_is_Some buf off v :
  0 ≤ off < Z.of_nat (length buf) → ∃ buf', store buf off v = Some buf'.
Proof. intros Hoff. unfold store. rewrite decide_True by lia. eauto. Qed.

Lemma store_length buf off v buf' :
  store buf off v = Some buf' → length buf' = length buf.
Proof.
  unfold store. case_decide; [|done]. intros [= <-]. apply length_insert.
Qed.

Lemma load_store_eq buf off v buf' :
  store buf off v = Some buf' → load buf' off = Some v.
Proof.
  unfold store, load. case_decide as Hoff; [|done]. intros [= <-].
  rewrite decide_True by lia. apply list_lookup_insert_eq. lia.
Qed.

Lemma load_store_ne buf off v buf' off' :
  store buf off v = Some buf' → off' ≠ off → load buf' off' = load buf off'.
Proof.
  unfold store, load. case_decide as Hoff; [|done]. intros [= <-] Hne.
  case_decide; [|done]. apply list_lookup_insert_ne. lia.
Qed.

Lemma store_same buf off v :
  load buf off = Some v → store buf off v = Some buf.
Proof.
  intros Hload. pose proof (load_Some_bounds _ _ _ Hload) as Hoff.
  unfold store, load in *. rewrite decide_True in Hload by lia.
  rewrite decide_True by lia. f_equal. by apply list_insert_id.
Qed.

Lemma load_replicate n (x : F) off :
  0 ≤ off < n → load (replicate (Z.to_nat n) x) off = Some x.
Proof.
  intros Hoff. unfold load. rewrite decide_True by lia.
  apply lookup_replicate_2. lia.
Qed.

Lemma buffer_eq buf buf' :
  length buf = length buf' → (∀ off, load buf off = load buf' off) →
  buf = buf'.
Proof.
  intros Hlen Hload. apply list_eq. intros i.
  specialize (Hload (Z.of_nat i)). unfold load in Hload.
  rewrite !decide_True, !Nat2Z.id in Hload by lia. done.
Qed.

End Buffers.

(** ** The generic kernel on a zero filter *)

Section GenericKernel.
Context {F : Type} `{HS : Scalar F} `{HL : !ScalarLaws F}.


End GenericKernel.

(** ** PostProcessor *)

Section PostProcessor.
Context {F : Type} `{HS : Scalar F} `{HL : !ScalarLaws F}.

Lemma add_bias_spec (bias_data out : list F) batch channels height width :
  0 ≤ batch → 0 ≤ channels → 0 ≤ height * width →
  Z.of_nat (length out) = batch * channels * (height * width) →
  channels ≤ Z.of_nat (length bias_data) →
  ∃ out',
    add_bias bias_data batch channels height width out = Some out'
    ∧ length out' = length out
    ∧ ∀ b c i,
        0 ≤ b < batch → 0 ≤ c < channels → 0 ≤ i < height * width →
        ∃ x bias_c,
          load out ((b * channels + c) * (height * width) + i) = Some x
          ∧ load bias_data c = Some bias_c
          ∧ load out' ((b * channels + c) * (height * width) + i)
            = Some (fadd x bias_c).
Proof.
  intros Hb Hc Hhw Hlen Hbias.
  set (HW := height * width) in *.
  pose (Inv := λ (k : Z) (buf : list F),
    length buf = length out
    ∧ (∀ off, k ≤ off → load buf off = load out off)
    ∧ ∀ b c i,
        0 ≤ b < batch → 0 ≤ c < channels → 0 ≤ i < HW →
        (b * channels + c) * HW + i < k →
        ∃ x bias_c,
          load out ((b * channels + c) * HW + i) = Some x
          ∧ load bias_data c = Some bias_c
          ∧ load buf ((b * channels + c) * HW + i) = Some (fadd x bias_c)).
  assert (Hflat : ∀ b c i,
    0 ≤ b < batch → 0 ≤ c < channels → 0 ≤ i < HW →
    0 ≤ (b * channels + c) * HW + i < batch * channels * HW).
  { intros b c i Hb' Hc' Hi.
    apply flat_index_bounds; [|done]. by apply flat_index_bounds. }
  unfold add_bias.
  destruct (for_range_invariant (λ b, Inv (b * channels * HW))
    (λ b, for_range channels (λ c, for_range (height * width)
       (λ i output_data,
          x ← load output_data ((b * channels + c) * height * width + i);
          bias_c ← load bias_data c;
          store output_data ((b * channels + c) * height * width + i)
            (fadd x bias_c))))
    batch out Hb) as (out' & Hloop & Hlen' & _ & Hdone).
  - split; [done |]. split; [done |].
    intros b c i Hb' Hc' Hi Hlt.
    pose proof (Hflat b c i Hb' Hc' Hi). lia.
  - intros b buf0 Hb' Hinv0.
    destruct (for_range_invariant (λ c, Inv ((b * channels + c) * HW))
      (λ c, for_range (height * width) (λ i output_data,
          x ← load output_data ((b * channels + c) * height * width + i);
          bias_c ← load bias_data c;
          store output_data ((b * channels + c) * height * width + i)
            (fadd x bias_c)))
      channels buf0 Hc) as (buf1 & Hloop1 & Hinv1).
    + by replace ((b * channels + 0) * HW) with (b * channels * HW) by ring.
    + intros c buf2 Hc' Hinv2.
      destruct (for_range_invariant
        (λ i, Inv ((b * channels + c) * HW + i))
        (λ i output_data,
          x ← load output_data ((b * channels + c) * height * width + i);
          bias_c ← load bias_data c;
          store output_data ((b * channels + c) * height * width + i)
            (fadd x bias_c))
        HW buf2 Hhw) as (buf3 & Hloop3 & Hinv3).
      * by replace ((b * channels + c) * HW + 0)
          with ((b * channels + c) * HW) by ring.
      * intros i buf4 Hi (Hlen4 & Hrest4 & Hdone4).
        replace ((b * channels + c) * height * width + i)
          with ((b * channels + c) * HW + i) by (unfold HW; ring).
        pose proof (Hflat b c i Hb' Hc' Hi) as Hk.
        set (k := (b * channels + c) * HW + i) in *.
        destruct (load_is_Some out k) as [x Hx]; [lia |].
        destruct (load_is_Some bias_data c) as [bias_c Hbc]; [lia |].
        destruct (store_is_Some buf4 k (fadd x bias_c)) as [buf5 Hstore];
          [lia |].
        exists buf5. rewrite (Hrest4 k) by lia. rewrite Hx. cbn.
        rewrite Hbc. cbn. split; [done |].
        split; [by rewrite (store_length _ _ _ _ Hstore) |].
        split.
        -- intros off Hoff.
           rewrite (load_store_ne _ _ _ _ _ Hstore) by lia.
           apply Hrest4. lia.
        -- intros b' c' i' Hb'' Hc'' Hi' Hlt.
           destruct (decide ((b' * channels + c') * HW + i' = k)) as [Heq | Hne].
           ++ unfold k in Heq.
              apply flat_index_inj in Heq as [Heq ->]; [|done..].
              apply flat_index_inj in Heq as [-> ->]; [|done..].
              exists x, bias_c. fold k.
              by rewrite (load_store_eq _ _ _ _ Hstore).
           ++ rewrite (load_store_ne _ _ _ _ _ Hstore) by done.
              apply Hdone4; [done.. | lia].
      * exists buf3. split; [done |].
        by replace ((b * channels + (c + 1)) * HW)
          with ((b * channels + c) * HW + HW) by ring.
    + exists buf1. split; [done |].
      by replace ((b + 1) * channels * HW)
        with ((b * channels + channels) * HW) by ring.
  - exists out'. split; [done |]. split; [done |].
    intros b c i Hb' Hc' Hi. apply Hdone; [done.. |].
    pose proof (Hflat b c i Hb' Hc' Hi). lia.
Qed.

Lemma load_fmap (f : F → F) (buf : list F) off :
  load (f <$> buf) off = f <$> load buf off.
Proof. unfold load. case_decide; [apply list_lookup_fmap | done]. Qed.

Lemma DoActivation_spec (buf : list F) activation limit :
  DoActivation buf (Z.of_nat (length buf)) activation limit
  = Some (activate activation limit <$> buf).
Proof.
  unfold DoActivation.
  destruct (for_range_invariant
    (λ k buf', length buf' = length buf
               ∧ ∀ off, load buf' off
                        = if decide (off < k)
                          then activate activation limit <$> load buf off
                          else load buf off)
    (λ i buffer, x ← load buffer i;
                 store buffer i (activate activation limit x))
    (Z.of_nat (length buf)) buf ltac:(lia)) as (out & -> & Hlen & Hout).
  - split; [done |]. intros off. case_decide as Hoff; [|done].
    unfold load. by rewrite decide_False by lia.
  - intros i buf' Hi [Hlen' Hinv].
    destruct (load_is_Some buf i) as [x Hx]; [lia |].
    destruct (store_is_Some buf' i (activate activation limit x))
      as [buf'' Hstore]; [lia |].
    exists buf''. rewrite (Hinv i), decide_False, Hx by lia. cbn.
    split; [done |]. split; [by rewrite (store_length _ _ _ _ Hstore) |].
    intros off. destruct (decide (off = i)) as [-> | Hne].
    + rewrite (load_store_eq _ _ _ _ Hstore), decide_True, Hx by lia. done.
    + rewrite (load_store_ne _ _ _ _ _ Hstore), Hinv by done.
      repeat case_decide; (done || lia).
  - f_equal. apply buffer_eq; [by rewrite length_fmap |].
    intros off. rewrite Hout, load_fmap. case_decide as Hoff; [done |].
    unfold load. case_decide; [|done].
    rewrite lookup_ge_None_2 by lia. done.
Qed.


End PostProcessor.

(** ** Padder *)

Lemma flat_row_bounds q r n Q M :
  0 ≤ q < Q → 0 ≤ r → 0 ≤ n → r + n ≤ M →
  0 ≤ q * M + r ∧ q * M + r + n ≤ Q * M.
Proof.
  intros Hq Hr Hn Hrn. assert (0 ≤ q * M) by nia.
  assert (q * M ≤ (Q - 1) * M) by (apply Z.mul_le_mono_nonneg_r; lia). lia.
Qed.

Section Padder.
Context {F : Type} `{HS : Scalar F}.
Variable uninit : F.

Lemma memcpy_length (dst src : list F) dst_offset src_offset n :
  0 ≤ n →
  0 ≤ dst_offset → dst_offset + n ≤ Z.of_nat (length dst) →
  0 ≤ src_offset → src_offset + n ≤ Z.of_nat (length src) →
  ∃ dst', memcpy dst dst_offset src src_offset n = Some dst'
          ∧ length dst' = length dst.
Proof.
  intros Hn Hd0 Hd1 Hs0 Hs1. unfold memcpy.
  apply (for_range_invariant (λ _ d, length d = length dst)); [done..|].
  intros i d Hi Hlen.
  destruct (load_is_Some src (src_offset + i)) as [x ->]; [lia |].
  destruct (store_is_Some d (dst_offset + i) x) as [d' Hstore]; [lia |].
  exists d'. cbn. split; [done |].
  by rewrite (store_length _ _ _ _ Hstore).
Qed.

Lemma length_Clear_Resize (t : Tensor F) shape :
  0 ≤ num_elements shape →
  Z.of_nat (length (data (Clear (Resize uninit t shape))))
  = num_elements shape.
Proof.
  intros Hn. cbn [Clear Resize data].
  rewrite length_replicate, length_resize. lia.
Qed.

Lemma Clear_Resize_zeros (t : Tensor F) shape :
  Clear (Resize uninit t shape)
  = {| shape := shape;
       data := replicate (Z.to_nat (num_elements shape)) fzero |}.
Proof. unfold Clear, Resize. cbn. by rewrite length_resize. Qed.

Lemma padder_total (input padded : Tensor F)
    batch channels height width pad_top pad_bottom pad_left pad_right :
  shape input = [batch; channels; height; width] →
  Z.of_nat (length (data input)) = batch * channels * height * width →
  0 ≤ batch → 0 ≤ channels → 0 ≤ height → 0 ≤ width →
  0 ≤ pad_top → 0 ≤ pad_bottom → 0 ≤ pad_left → 0 ≤ pad_right →
  ∃ result,
    ConstructNCHWInputWithSpecificPadding uninit input
      pad_top pad_bottom pad_left pad_right padded = Some result
    ∧ shape result
      = [batch; channels; height + pad_top + pad_bottom;
         width + pad_left + pad_right]
    ∧ Z.of_nat (length (data result))
      = batch * channels * (height + pad_top + pad_bottom)
        * (width + pad_left + pad_right).
Proof.
  intros Hshape Hlen Hb Hc Hh Hw Hpt Hpb Hpl Hpr.
  unfold ConstructNCHWInputWithSpecificPadding. rewrite Hshape.
  set (PH := height + pad_top + pad_bottom).
  set (PW := width + pad_left + pad_right).
  rewrite Clear_Resize_zeros. cbn [data shape].
  set (zeros := replicate _ fzero).
  assert (Hzeros : Z.of_nat (length zeros) = batch * channels * PH * PW).
  { unfold zeros. rewrite length_replicate. cbn [num_elements foldr].
    assert (0 ≤ batch * channels * PH * PW)
      by (repeat apply Z.mul_nonneg_nonneg; lia).
    rewrite Z2Nat.id; lia. }
  destruct (for_range_invariant
    (λ _ (d : list F), length d = length zeros)
    (λ b, for_range channels (λ c, for_range height (λ h padded_data,
       memcpy padded_data
         (((b * channels + c) * PH + (h + pad_top)) * PW + pad_left)
         (data input) (((b * channels + c) * height + h) * width) width)))
    batch zeros Hb eq_refl) as (d & -> & Hd).
  - intros b d0 Hb' Hd0.
    apply (for_range_invariant (λ _ (d : list F), length d = length zeros));
      [done..|].
    intros c d1 Hc' Hd1.
    apply (for_range_invariant (λ _ (d : list F), length d = length zeros));
      [done..|].
    intros h d2 Hh' Hd2.
    pose proof (flat_index_bounds b c batch channels Hb' Hc') as H1.
    assert (0 ≤ h + pad_top < PH) as Hrow by (unfold PH; lia).
    pose proof (flat_index_bounds _ _ _ _ H1 Hrow) as H2.
    pose proof (flat_row_bounds _ pad_left width _ PW H2 Hpl Hw
                  ltac:(unfold PW; lia)) as [H3 H4].
    pose proof (flat_index_bounds _ _ _ _ H1 Hh') as G2.
    pose proof (flat_row_bounds _ 0 width _ width G2 ltac:(lia) Hw
                  ltac:(lia)) as [G3 G4].
    destruct (memcpy_length d2 (data input)
                (((b * channels + c) * PH + (h + pad_top)) * PW + pad_left)
                (((b * channels + c) * height + h) * width) width)
      as (d3 & Hcopy & Hd3); [lia..|].
    exists d3. split; [done | congruence].
  - cbn. eexists. split; [reflexivity |]. cbn [shape data].
    split; [done |]. rewrite Hd. done.
Qed.

End Padder.

(** ** A zero filter on the generic strategy, end to end *)

Lemma output_extent_window in_size total_pad dilation k stride :
  0 < stride →
  (output_extent in_size total_pad dilation k stride - 1) * stride
  + (k - 1) * dilation < in_size + total_pad.
Proof.
  intros Hs. unfold output_extent.
  pose proof (Z.mul_div_le (in_size + total_pad - dilation * (k - 1) - 1)
                stride Hs). nia.
Qed.

Section ZeroFilter.
Context {F : Type} `{HS : Scalar F} `{HL : !ScalarLaws F}.
Variable uninit : F.

Lemma generic_tiling batch channels height width input_channels
    input_height input_width paddings0 paddings1 fl :
  conv_func_strategy fl = Generic →
  plan_tiling fl batch channels height width input_channels
    input_height input_width paddings0 paddings1
  = {| extra_input_height := input_height + paddings0;
       extra_input_width := input_width + paddings1;
       extra_output_height := height;
       extra_output_width := width;
       pad_top := Z.shiftr paddings0 1;
       pad_bottom := paddings0 - Z.shiftr paddings0 1;
       pad_left := Z.shiftr paddings1 1;
       pad_right := paddings1 - Z.shiftr paddings1 1;
       transformed_input_shape := [];
       transformed_output_shape := [];
       transformed_filter_shape := [] |}.
Proof.
  unfold conv_func_strategy, plan_tiling.
  by destruct (use_winograd fl), (use_neon_3x3_s1 fl), (use_neon_3x3_s2 fl),
    (use_neon_1x1_s1 fl).
Qed.



End ZeroFilter.

(** ** The output is cleared before the strategy runs *)

Section ClearedOutput.
Context {F : Type} `{HS : Scalar F}.
Variable uninit : F.


End ClearedOutput.

(** ** Inversion of the plan *)

Lemma CalcNCHWOutputSize_inv input_shape filter_shape paddings dilations
    strides output_shape :
  CalcNCHWOutputSize input_shape filter_shape paddings dilations strides
  = Some output_shape →
  ∃ n ic ih iw oc ic' kh kw ph pw rest,
    input_shape = [n; ic; ih; iw]
    ∧ filter_shape = [oc; ic'; kh; kw]
    ∧ paddings = ph :: pw :: rest
    ∧ 0 < output_extent ih ph (fst dilations) kh (fst strides)
    ∧ 0 < output_extent iw pw (snd dilations) kw (snd strides)
    ∧ output_shape
      = [n; oc; output_extent ih ph (fst dilations) kh (fst strides);
         output_extent iw pw (snd dilations) kw (snd strides)].
Proof.
  unfold CalcNCHWOutputSize. intros Hcalc.
  destruct input_shape as [|n [|ic [|ih [|iw [|]]]]]; try done.
  destruct filter_shape as [|oc [|ic' [|kh [|kw [|]]]]]; try done.
  destruct paddings as [|ph [|pw rest]]; try done.
  case_decide as Hpos; [|done]. injection Hcalc as <-.
  exists n, ic, ih, iw, oc, ic', kh, kw, ph, pw, rest.
  repeat split; tauto.
Qed.

Lemma plan_inv paddings_ padding_type_ dilations_ strides_ input_shape
    filter_shape p :
  plan paddings_ padding_type_ dilations_ strides_ input_shape filter_shape
  = Some p →
  ∃ n ic ih iw oc kh kw ph pw,
    input_shape = [n; ic; ih; iw]
    ∧ filter_shape = [oc; ic; kh; kw]
    ∧ resolved_padding paddings_ padding_type_ dilations_ kh kw
      = Some (ph, pw)
    ∧ 0 < output_extent ih ph (fst dilations_) kh (fst strides_)
    ∧ 0 < output_extent iw pw (snd dilations_) kw (snd strides_)
    ∧ p = planned n ic ih iw oc kh kw ph pw dilations_ strides_.
Proof.
  intros Hplan.
  assert (∃ n ic ih iw oc ic' kh kw ph pw,
    input_shape = [n; ic; ih; iw] ∧ filter_shape = [oc; ic'; kh; kw]
    ∧ resolved_padding paddings_ padding_type_ dilations_ kh kw
      = Some (ph, pw)
    ∧ 0 < output_extent ih ph (fst dilations_) kh (fst strides_)
    ∧ 0 < output_extent iw pw (snd dilations_) kw (snd strides_))
    as (n & ic & ih & iw & oc & ic' & kh & kw & ph & pw
        & -> & -> & Hpad & Hoh & How).
  { unfold plan in Hplan.
    apply bind_Some in Hplan as ([output_shape pads] & Hres & _).
    unfold resolve_shape in Hres.
    destruct paddings_ as [|p0 rest0].
    - unfold CalcNCHWPaddingAndOutputSize in Hres.
      destruct filter_shape as [|oc [|ic' [|kh [|kw [|]]]]]; try done.
      apply bind_Some in Hres as (oshape & Hcalc & _).
      apply CalcNCHWOutputSize_inv in Hcalc
        as (n & ic & ih & iw & oc2 & ic2 & kh2 & kw2 & ph & pw & rest
            & -> & Hf & Hp & Hoh & How & _).
      simplify_eq. eexists _, _, _, _, _, _, _, _, _, _.
      repeat split; (reflexivity || eassumption).
    - apply bind_Some in Hres as (oshape & Hcalc & _).
      apply CalcNCHWOutputSize_inv in Hcalc
        as (n & ic & ih & iw & oc2 & ic2 & kh2 & kw2 & ph & pw & rest
            & -> & -> & Hp & Hoh & How & _).
      simplify_eq. eexists _, _, _, _, _, _, _, _, _, _.
      repeat split; (reflexivity || eassumption). }
  assert (ic' = ic) as ->.
  { unfold plan in Hplan.
    apply bind_Some in Hplan as ([output_shape pads] & _ & Hplan).
    repeat (apply bind_Some in Hplan as (? & ? & Hplan)).
    unfold MACE_CHECK in *. repeat case_decide; simplify_eq.
    cbn in *. congruence. }
  rewrite (plan_resolved _ _ _ _ n ic ih iw oc kh kw ph pw Hpad Hoh How)
    in Hplan.
  injection Hplan as <-.
  by exists n, ic, ih, iw, oc, kh, kw, ph, pw.
Qed.


(** C3: the strategy bound to [conv_func] is the first strategy of the
    priority order Winograd, fused 3x3 stride-1, fused 3x3 stride-2, fused
    1x1 stride-1, generic whose condition holds of the eight selection
    parameters, and Winograd is chosen exactly for a 3x3 filter with stride
    1, dilation 1 and at least 8 input and 8 output channels.  In a call
    these parameters are the filter's height and width, the strides and
    dilations of the functor, and the channel counts of input and output;
    nothing else of the call enters the selection. *)
Theorem strategy_is_first_match :
  (∀ filter_h filter_w stride_h stride_w dilation_h dilation_w
     in_channels out_channels,
     StrategySelector filter_h filter_w stride_h stride_w
       dilation_h dilation_w in_channels out_channels
     = Some (conv_func_strategy
               (select_flags filter_h filter_w stride_h stride_w
                  dilation_h dilation_w in_channels out_channels))
     ∧ (conv_func_strategy
          (select_flags filter_h filter_w stride_h stride_w
             dilation_h dilation_w in_channels out_channels) = Winograd
        ↔ filter_h = 3 ∧ filter_w = 3 ∧ stride_h = 1 ∧ stride_w = 1
          ∧ dilation_h = 1 ∧ dilation_w = 1
          ∧ 8 ≤ in_channels ∧ 8 ≤ out_channels))
  ∧ (∀ paddings_ padding_type_ dilations_ strides_ input_shape filter_shape
       p,
       plan paddings_ padding_type_ dilations_ strides_ input_shape
         filter_shape = Some p →
       StrategySelector (filter_h p) (filter_w p) (stride_h p) (stride_w p)
         (dilation_h p) (dilation_w p) (input_channels p) (channels p)
       = Some (conv_func_strategy (flags p))
       ∧ filter_shape !! 2%nat = Some (filter_h p)
       ∧ filter_shape !! 3%nat = Some (filter_w p)
       ∧ (stride_h p, stride_w p) = strides_
       ∧ (dilation_h p, dilation_w p) = dilations_
       ∧ input_shape !! 1%nat = Some (input_channels p)
       ∧ filter_shape !! 0%nat = Some (channels p)).
Proof.
  split.
  - intros. apply selector_first_match.
  - intros paddings_ padding_type_ dilations_ strides_ input_shape
      filter_shape p Hplan.
    apply plan_inv in Hplan
      as (n & ic & ih & iw & oc & kh & kw & ph & pw
          & -> & -> & _ & _ & _ & ->).
    unfold planned.
    cbn [filter_h filter_w stride_h stride_w dilation_h dilation_w
         input_channels channels flags].
    split; [apply selector_first_match |].
    destruct strides_, dilations_. done.
Qed.

Lemma strategy_is_first_match_witness :
  StrategySelector 3 3 1 1 1 1 8 8 = Some Winograd
  ∧ (conv_func_strategy ∘ flags <$>
       plan [] SAME (1, 1) (1, 1) [1; 8; 5; 5] [8; 8; 3; 3]) = Some Winograd.
Proof.
  destruct strategy_is_first_match as [_ Hcall].
  destruct (Hcall [] SAME (1, 1) (1, 1) [1; 8; 5; 5] [8; 8; 3; 3]
              (planned 1 8 5 5 8 3 3 2 2 (1, 1) (1, 1)) eq_refl)
    as (Hselected & _).
  split; [exact Hselected | reflexivity].
Defined.

(** ** The filter-transform cache *)

Section FilterTransformCache.
Context {F : Type} `{HS : Scalar F}.
Variable uninit : F.

Lemma post_process_config p (self self' : Conv2dFunctor F) bias ptr m n :
  activation_ self' = activation_ self →
  relux_max_limit_ self' = relux_max_limit_ self →
  post_process p self' bias ptr m n = post_process p self bias ptr m n.
Proof.
  intros Hact Hlimit. unfold post_process, bias_and_activation.
  by rewrite Hact, Hlimit.
Qed.

Lemma execute_winograd p (self : Conv2dFunctor F) input filter bias output :
  conv_func_strategy (flags p) = Winograd →
  execute uninit p self input filter bias output
  = (pad_input ←
       prepare_input uninit p input {| shape := []; data := [] |};
     let prepared :=
       prepare_output uninit p output {| shape := []; data := [] |} in
     out ←
       Conv2dNCHW (data pad_input) (filter_in_use self filter) (batch p)
         (extra_input_height (tiling p)) (extra_input_width (tiling p))
         (input_channels p)
         (extra_input_height (tiling p) - 2)
         (extra_input_width (tiling p) - 2) (channels p) 3 3 1 1 1 1
         (zero_region
            (batch p * channels p * (extra_input_height (tiling p) - 2)
             * (extra_input_width (tiling p) - 2))
            (deref (snd prepared) (fst prepared)));
     output_data ←
       post_process p self bias (fst prepared)
         (assign (snd prepared) (fst prepared) out) (size output);
     Some (after_winograd_call uninit p self filter,
           {| shape := shape output; data := output_data |})).
Proof.
  intros Hstrategy. unfold execute, after_winograd_call, scratch_tensor.
  destruct (init_scratch _ _) as [scratch views]. cbn [fst].
  destruct (prepare_input _ _ _ _) as [pad_input|]; [|done].
  cbn [mbind option_bind].
  destruct (prepare_output _ _ _ _) as [ptr m]. cbn [fst snd].
  unfold conv_func. rewrite Hstrategy. unfold WinoGradConv3x3s1.
  unfold filter_in_use at 1.
  cbn [is_filter_transformed_ transformed_filter_ with_scratch].
  assert (Hcache :
    (if is_filter_transformed_ self
     then data (if use_winograd (flags p) && negb (is_filter_transformed_ self)
                then Resize uninit (transformed_filter_ self)
                       (transformed_filter_shape (tiling p))
                else transformed_filter_ self)
     else TransformFilter (data filter))
    = (if is_filter_transformed_ self then data (transformed_filter_ self)
       else TransformFilter (data filter))).
  { destruct (is_filter_transformed_ self); [|done].
    by rewrite andb_false_r. }
  rewrite Hcache.
  destruct (Conv2dNCHW _ _ _ _ _ _ _ _ _ _ _ _ _ _ _ _) as [out|]; [|done].
  cbn [mbind option_bind].
  rewrite (post_process_config p self); [|done..].
  destruct (post_process _ _ _ _ _ _) as [output_data|]; [|done].
  reflexivity.
Qed.

Lemma winograd_selected n ic ih iw oc ph pw :
  8 ≤ ic → 8 ≤ oc →
  conv_func_strategy
    (flags (planned n ic ih iw oc 3 3 ph pw (1, 1) (1, 1))) = Winograd.
Proof.
  intros Hic Hoc. unfold planned. cbn [flags fst snd].
  unfold conv_func_strategy. rewrite use_winograd_applies. cbn [applies].
  by rewrite bool_decide_eq_true_2.
Qed.

Lemma operator_winograd (self self' : Conv2dFunctor F) input filter bias
    output out oc ic :
  shape filter = [oc; ic; 3; 3] → 8 ≤ ic → 8 ≤ oc →
  strides_ self = (1, 1) → dilations_ self = (1, 1) →
  Conv2dFunctor_operator uninit self input filter bias output
  = Some (self', out) →
  ∃ p, plan (paddings_ self) (padding_type_ self) (dilations_ self)
         (strides_ self) (shape input) (shape filter) = Some p
       ∧ conv_func_strategy (flags p) = Winograd
       ∧ execute uninit p self input filter bias
           (Clear (Resize uninit output (output_shape p)))
         = Some (self', out)
       ∧ self' = after_winograd_call uninit p self filter.
Proof.
  intros Hfilter Hic Hoc Hstrides Hdilations Hop.
  unfold Conv2dFunctor_operator in Hop.
  apply bind_Some in Hop as (p & Hplan & Hex).
  exists p. split; [done |].
  assert (Hstrategy : conv_func_strategy (flags p) = Winograd).
  { apply plan_inv in Hplan
      as (n & ic' & ih & iw & oc' & kh & kw & ph & pw
          & _ & Hf & _ & _ & _ & ->).
    rewrite Hfilter in Hf. injection Hf as <- <- <- <-.
    rewrite Hstrides, Hdilations. by apply winograd_selected. }
  split; [done |]. split; [done |].
  rewrite execute_winograd in Hex by done.
  apply bind_Some in Hex as (pad_input & _ & Hex). cbn zeta in Hex.
  apply bind_Some in Hex as (conv & _ & Hex).
  apply bind_Some in Hex as (output_data & _ & Hex).
  by injection Hex as <- _.
Qed.

Lemma invoke_all_keeps_cache (filter : Tensor F) oc ic calls :
  shape filter = [oc; ic; 3; 3] → 8 ≤ ic → 8 ≤ oc →
  ∀ (self self' : Conv2dFunctor F) outs,
    strides_ self = (1, 1) → dilations_ self = (1, 1) →
    is_filter_transformed_ self = true →
    invoke_all uninit self filter calls = Some (self', outs) →
    is_filter_transformed_ self' = true
    ∧ filter_transforms self' = filter_transforms self
    ∧ data (transformed_filter_ self') = data (transformed_filter_ self).
Proof.
  intros Hfilter Hic Hoc.
  induction calls as [|[[input bias] output] calls IH];
    intros self self' outs Hstrides Hdilations Hflag Hall.
  - cbn in Hall. by injection Hall as <- _.
  - cbn [invoke_all] in Hall.
    apply bind_Some in Hall as ([self1 out] & Hop & Hall).
    apply bind_Some in Hall as ([self2 outs'] & Hrest & Hall).
    injection Hall as <- _.
    destruct (operator_winograd _ _ _ _ _ _ _ _ _ Hfilter Hic Hoc
                Hstrides Hdilations Hop) as (p & _ & _ & _ & ->).
    destruct (IH (after_winograd_call uninit p self filter) self2 outs'
                Hstrides Hdilations eq_refl Hrest)
      as (Hflag' & Hcount & Hcache).
    rewrite Hflag', Hcount, Hcache. unfold after_winograd_call, filter_in_use.
    cbn [filter_transforms transformed_filter_ data with_transformed_filter
         with_scratch is_filter_transformed_].
    rewrite Hflag. cbn. split; [done |]. split; [lia | done].
Qed.

(** C8: on the Winograd path the filter transform runs on the first
    invocation of an operator instance and on no later one: whatever
    sequence of calls follows, the transform counter stands one above its
    initial value and the cache holds the transform of the filter.  A second
    invocation with the same filter and the same inputs succeeds, transforms
    nothing, and returns the output of the first. *)
Theorem filter_transformed_once (self : Conv2dFunctor F) (filter : Tensor F)
    oc ic :
  shape filter = [oc; ic; 3; 3] → 8 ≤ ic → 8 ≤ oc →
  strides_ self = (1, 1) → dilations_ self = (1, 1) →
  is_filter_transformed_ self = false →
  (∀ call calls self' outs,
     invoke_all uninit self filter (call :: calls) = Some (self', outs) →
     filter_transforms self' = (filter_transforms self + 1)%nat
     ∧ is_filter_transformed_ self' = true
     ∧ data (transformed_filter_ self') = TransformFilter (data filter))
  ∧ (∀ input bias output output' self1 out1,
       Conv2dFunctor_operator uninit self input filter bias output
       = Some (self1, out1) →
       filter_transforms self1 = (filter_transforms self + 1)%nat
       ∧ ∃ self2,
           Conv2dFunctor_operator uninit self1 input filter bias output'
           = Some (self2, out1)
           ∧ filter_transforms self2 = filter_transforms self1).
Proof.
  intros Hfilter Hic Hoc Hstrides Hdilations Hflag. split.
  - intros [[input bias] output] calls self' outs Hall.
    cbn [invoke_all] in Hall.
    apply bind_Some in Hall as ([self1 out] & Hop & Hall).
    apply bind_Some in Hall as ([self2 outs'] & Hrest & Hall).
    injection Hall as <- _.
    destruct (operator_winograd _ _ _ _ _ _ _ _ _ Hfilter Hic Hoc
                Hstrides Hdilations Hop) as (p & _ & _ & _ & ->).
    destruct (invoke_all_keeps_cache filter oc ic calls Hfilter Hic Hoc
                (after_winograd_call uninit p self filter) self2 outs'
                Hstrides Hdilations eq_refl Hrest)
      as (-> & -> & ->).
    unfold after_winograd_call, filter_in_use.
    cbn [filter_transforms transformed_filter_ data with_transformed_filter
         with_scratch is_filter_transformed_].
    rewrite Hflag. cbn. done.
  - intros input bias output output' self1 out1 Hop.
    destruct (operator_winograd _ _ _ _ _ _ _ _ _ Hfilter Hic Hoc
                Hstrides Hdilations Hop) as (p & Hplan & Hstrategy & Hex & ->).
    split.
    { unfold after_winograd_call.
      cbn [filter_transforms with_transformed_filter with_scratch].
      by rewrite Hflag. }
    unfold Conv2dFunctor_operator.
    change (plan _ _ _ _ (shape input) (shape filter))
      with (plan (paddings_ self) (padding_type_ self) (dilations_ self)
              (strides_ self) (shape input) (shape filter)).
    rewrite Hplan. cbn [mbind option_bind].
    rewrite execute_winograd in Hex |- * by done.
    rewrite Clear_Resize_zeros in Hex |- *.
    assert (Hsame : filter_in_use (after_winograd_call uninit p self filter)
                      filter = filter_in_use self filter) by done.
    rewrite Hsame.
    apply bind_Some in Hex as (pad_input & -> & Hex). cbn zeta in Hex.
    apply bind_Some in Hex as (conv & Hconv & Hex).
    apply bind_Some in Hex as (output_data & Hpost & Hex).
    injection Hex as <-.
    cbn [mbind option_bind]. cbn zeta. rewrite Hconv. cbn [mbind option_bind].
    rewrite (post_process_config p self); [|done..].
    rewrite Hpost. cbn [mbind option_bind].
    eexists. split; [reflexivity |].
    unfold after_winograd_call at 1.
    cbn [filter_transforms with_transformed_filter with_scratch
         is_filter_transformed_]. cbn. lia.
Qed.

End FilterTransformCache.

(** ** The fused 1x1 strategy and explicit padding *)

Section Fused1x1.
Context {F : Type} `{HS : Scalar F}.
Variable uninit : F.

Lemma zero_region_zeros n k :
  zero_region n (replicate k (fzero : F)) = replicate k fzero.
Proof.
  unfold zero_region. rewrite take_replicate, drop_replicate, fmap_replicate.
  rewrite <- replicate_add. f_equal. lia.
Qed.

Lemma output_extent_1x1 in_size :
  output_extent in_size 0 1 1 1 = in_size.
Proof. unfold output_extent. rewrite Z.div_1_r. lia. Qed.

(** X8: without padding the fused 1x1 strategy is the generic convolution:
    the input and output extents coincide, and the kernel is handed the
    tensors the generic strategy would be handed. *)
Lemma fused_1x1_matches_reference_without_padding (self : Conv2dFunctor F)
    (input filter : Tensor F) bias output oc ic :
  shape filter = [oc; ic; 1; 1] →
  strides_ self = (1, 1) → dilations_ self = (1, 1) →
  resolved_padding (paddings_ self) (padding_type_ self) (dilations_ self)
    1 1 = Some (0, 0) →
  Conv2dFunctor_operator uninit self input filter bias output
  = reference_operator uninit self input filter bias output.
Proof.
  intros Hfilter Hstrides Hdilations Hpad.
  unfold Conv2dFunctor_operator, reference_operator.
  destruct (plan _ _ _ _ _ _) as [p|] eqn:Hplan; [|done].
  cbn [mbind option_bind].
  apply plan_inv in Hplan
    as (n & ic' & ih & iw & oc' & kh & kw & ph & pw
        & Hin & Hf & Hpad' & _ & _ & ->).
  rewrite Hfilter in Hf. injection Hf as <- <- <- <-.
  rewrite Hpad in Hpad'. injection Hpad' as <- <-.
  rewrite Hstrides, Hdilations.
  unfold planned, force_generic. cbn [fst snd].
  rewrite !output_extent_1x1.
  cbn [batch channels height width input_channels input_height input_width
       paddings fst snd output_shape input_batch filter_h filter_w stride_h
       stride_w dilation_h dilation_w].
  set (fl := select_flags 1 1 1 1 1 1 ic oc).
  assert (Hfl : fl = {| use_winograd := false; use_neon_3x3_s1 := false;
                        use_neon_3x3_s2 := false; use_neon_1x1_s1 := true |})
    by done.
  rewrite Hfl. clear fl Hfl.
  rewrite !Clear_Resize_zeros. unfold execute.
  cbn [sizes flags tiling use_winograd andb scratch_ ].
  set (t := plan_tiling _ n oc ih iw ic ih iw 0 0).
  set (sz := scratch_sizes _ t n oc ih iw ic ih iw).
  destruct (init_scratch _ _) as [scratch views].
  unfold prepare_input, prepare_output.
  cbn [tiling input_height input_width height width batch channels].
  assert (Hin_same : needs_padded_input t ih iw = false).
  { apply bool_decide_eq_false_2. unfold t, plan_tiling. cbn. lia. }
  assert (Hout_same : needs_padded_output t ih iw = false).
  { apply bool_decide_eq_false_2. unfold t, plan_tiling. cbn. lia. }
  rewrite Hin_same, Hout_same. cbn [mbind option_bind data].
  unfold conv_func, conv_func_strategy.
  cbn [flags use_winograd use_neon_3x3_s1 use_neon_3x3_s2 use_neon_1x1_s1
       tiling batch channels height width input_channels filter_h filter_w
       stride_h stride_w dilation_h dilation_w deref output_data].
  unfold Conv2dNeonK1x1S1. rewrite zero_region_zeros.
  assert (Hext : extra_input_height t = ih ∧ extra_input_width t = iw
                 ∧ extra_output_height t = ih ∧ extra_output_width t = iw).
  { unfold t, plan_tiling. cbn. lia. }
  destruct Hext as (-> & -> & -> & ->).
  change (to_int 1) with 1.
  destruct (Conv2dNCHW _ _ _ _ _ _ _ _ _ _ _ _ _ _ _ _) as [out|]; [|done].
  reflexivity.
Qed.

End Fused1x1.

(** C1 fails on the code: a 1x1 stride-1 filter with an explicit total
    padding of 2 selects the fused 1x1 strategy, whose call reads the
    one-pixel input with the 3x3 extents of the output and so leaves its
    bounds, while the generic reference on the same inputs yields the padded
    convolution. *)
Theorem fused_1x1_diverges_from_reference_with_padding :
  let self := fresh_functor (1, 1) VALID [2; 2] (1, 1) NOOP 0 in
  let input := {| shape := [1; 1; 1; 1]; data := [5] |} in
  let filter := {| shape := [1; 1; 1; 1]; data := [3] |} in
  let output := {| shape := []; data := [] |} in
  (conv_func_strategy ∘ flags <$>
     plan (paddings_ self) (padding_type_ self) (dilations_ self)
       (strides_ self) (shape input) (shape filter)) = Some NeonK1x1S1
  ∧ Conv2dFunctor_operator 0 self input filter None output = None
  ∧ snd <$> reference_operator 0 self input filter None output
    = Some {| shape := [1; 1; 3; 3]; data := [0; 0; 0; 0; 15; 0; 0; 0; 0] |}.
Proof. vm_compute. done. Qed.

(** C7 fails on the code: the fused 1x1 closure is handed the unpadded
    input together with the height and width of the output.  With a total
    padding of 2 on a one-pixel input these are 3x3; the padded input that
    the call built is not used, and the kernel runs off the end of the
    input. *)
Theorem fused_1x1_ignores_padded_input :
  let self := fresh_functor (1, 1) VALID [2; 2] (1, 1) NOOP 0 in
  let input := {| shape := [1; 1; 1; 1]; data := [5] |} in
  let m := {| output_data := replicate 9 0; padded_output_data := [] |} in
  ∃ p,
    plan [2; 2] VALID (1, 1) (1, 1) [1; 1; 1; 1] [1; 1; 1; 1] = Some p
    ∧ conv_func_strategy (flags p) = NeonK1x1S1
    ∧ (input_height p, input_width p) = (1, 1)
    ∧ (height p, width p) = (3, 3)
    ∧ data <$> prepare_input 0 p input {| shape := []; data := [] |}
      = Some [0; 0; 0; 0; 5; 0; 0; 0; 0]
    ∧ Conv2dNeonK1x1S1 [5] [3] 1 (height p) (width p) 1 1 (replicate 9 0)
      = None
    ∧ conv_func p self [5] [3] [0; 0; 0; 0; 5; 0; 0; 0; 0] to_output m
      = None
    ∧ Conv2dNCHW [0; 0; 0; 0; 5; 0; 0; 0; 0] [3] 1 3 3 1 3 3 1 1 1 1 1 1 1
        (replicate 9 0)
      = Some [0; 0; 0; 0; 15; 0; 0; 0; 0].
Proof. eexists. split; [reflexivity |]. vm_compute. done. Qed.

(** ** Concrete instances *)

Lemma filter_transformed_once_witness :
  ∃ self1 out1 self2,
    Conv2dFunctor_operator 0 (fresh_functor (1, 1) SAME [] (1, 1) NOOP 0)
      (filled [1; 8; 1; 1] 1) (filled [8; 8; 3; 3] 1) None (filled [] 0)
    = Some (self1, out1)
    ∧ Conv2dFunctor_operator 0 self1
        (filled [1; 8; 1; 1] 1) (filled [8; 8; 3; 3] 1) None (filled [2] 7)
      = Some (self2, out1)
    ∧ filter_transforms self1 = 1%nat
    ∧ filter_transforms self2 = 1%nat.
Proof.
  assert (∃ r, Conv2dFunctor_operator 0
                 (fresh_functor (1, 1) SAME [] (1, 1) NOOP 0)
                 (filled [1; 8; 1; 1] 1) (filled [8; 8; 3; 3] 1) None
                 (filled [] 0) = Some r) as [[self1 out1] Hop].
  { vm_compute. eexists. reflexivity. }
  destruct (filter_transformed_once 0
              (fresh_functor (1, 1) SAME [] (1, 1) NOOP 0)
              (filled [8; 8; 3; 3] 1) 8 8
              eq_refl ltac:(lia) ltac:(lia) eq_refl eq_refl eq_refl)
    as [_ Hsecond].
  pose proof (Hsecond (filled [1; 8; 1; 1] 1) None (filled [] 0)
                (filled [2] 7) self1 out1 Hop) as Hboth.
  destruct Hboth as (Hcount & self2 & Hop2 & Hcount2).
  exists self1, out1, self2.
  split; [exact Hop |]. split; [exact Hop2 |].
  split; [exact Hcount | rewrite Hcount2; exact Hcount].
Defined.


(** * Further properties of the code *)

(** ** Loops *)

Section MoreLoops.
Context {S : Type}.
Implicit Types (body : Z → S → option S) (s : S).

Lemma loop_from_ext_inv (P : S → Prop) (f g : Z → S → option S) n i s :
  P s →
  (∀ j s, i ≤ j < i + Z.of_nat n → P s → f j s = g j s) →
  (∀ j s s', i ≤ j < i + Z.of_nat n → P s → g j s = Some s' → P s') →
  loop_from i n f s = loop_from i n g s.
Proof.
  revert i s. induction n as [|n IH]; intros i s Hs Hfg Hpres; [done |].
  cbn [loop_from]. rewrite (Hfg i s) by (done || lia).
  destruct (g i s) as [s1|] eqn:Hg; [|done]. cbn.
  apply IH.
  - apply (Hpres i s); (done || lia).
  - intros j s2 Hj. apply Hfg. lia.
  - intros j s2 s3 Hj. apply Hpres. lia.
Qed.

Lemma for_range_ext_inv (P : S → Prop) (f g : Z → S → option S) n s :
  P s →
  (∀ j s, 0 ≤ j < n → P s → f j s = g j s) →
  (∀ j s s', 0 ≤ j < n → P s → g j s = Some s' → P s') →
  for_range n f s = for_range n g s.
Proof.
  intros Hs Hfg Hpres. unfold for_range.
  apply (loop_from_ext_inv P); [done | |].
  - intros j s1 Hj. apply Hfg. lia.
  - intros j s1 s2 Hj. apply Hpres. lia.
Qed.

Lemma loop_from_preserves (P : S → Prop) body n i s s' :
  P s →
  (∀ j s s', i ≤ j < i + Z.of_nat n → P s → body j s = Some s' → P s') →
  loop_from i n body s = Some s' → P s'.
Proof.
  revert i s. induction n as [|n IH]; intros i s Hs Hpres Hloop.
  - cbn in Hloop. by injection Hloop as <-.
  - cbn [loop_from] in Hloop.
    apply bind_Some in Hloop as (s1 & Hbody & Hloop).
    apply (IH (i + 1) s1); [|intros j s2 s3 Hj; apply Hpres; lia | done].
    apply (Hpres i s); (done || lia).
Qed.

Lemma for_range_preserves (P : S → Prop) body n s s' :
  P s →
  (∀ j s s', 0 ≤ j < n → P s → body j s = Some s' → P s') →
  for_range n body s = Some s' → P s'.
Proof.
  intros Hs Hpres. unfold for_range. apply loop_from_preserves; [done |].
  intros j s1 s2 Hj. apply Hpres. lia.
Qed.

End MoreLoops.

(** ** One output element at a time *)

Section Cells.
Context {F : Type} `{HS : Scalar F}.
Implicit Types (buf : list F) (off : Z).

Lemma update_cell_length f off buf buf' :
  update_cell f off buf = Some buf' → length buf' = length buf.
Proof.
  unfold update_cell. intros Hu.
  apply bind_Some in Hu as (acc & _ & Hu).
  apply bind_Some in Hu as (acc' & _ & Hu).
  by apply store_length in Hu.
Qed.

Lemma store_store buf off v v' buf1 :
  store buf off v = Some buf1 → store buf1 off v' = store buf off v'.
Proof.
  unfold store. case_decide as Hoff; [|done]. intros [= <-].
  rewrite length_insert. rewrite decide_True by done.
  by rewrite list_insert_insert_eq.
Qed.

(** A loop of read-modify-writes of one element is one read-modify-write
    by the loop on the element's value. *)
Lemma loop_from_update_cell (body : Z → F → option F) off n i buf :
  0 ≤ off < Z.of_nat (length buf) →
  loop_from i n (λ j, update_cell (body j) off) buf
  = update_cell (loop_from i n body) off buf.
Proof.
  revert i buf. induction n as [|n IH]; intros i buf Hoff.
  - unfold update_cell. cbn [loop_from].
    destruct (load_is_Some buf off Hoff) as [acc Hacc]. rewrite Hacc. cbn.
    symmetry. by apply store_same.
  - destruct (load_is_Some buf off Hoff) as [acc Hacc].
    assert (Hloop : loop_from i (Datatypes.S n)
                      (λ j, update_cell (body j) off) buf
                    = (buf1 ← update_cell (body i) off buf;
                       loop_from (i + 1) n (λ j, update_cell (body j) off)
                         buf1)) by done.
    assert (Hstep : update_cell (body i) off buf
                    = (acc1 ← body i acc; store buf off acc1))
      by (unfold update_cell; by rewrite Hacc).
    assert (Hall : update_cell (loop_from i (Datatypes.S n) body) off buf
                   = (acc1 ← body i acc;
                      acc2 ← loop_from (i + 1) n body acc1;
                      store buf off acc2)).
    { unfold update_cell. rewrite Hacc. cbn [loop_from mbind option_bind].
      by destruct (body i acc). }
    rewrite Hloop, Hstep, Hall.
    destruct (body i acc) as [acc1|]; [|done]. cbn.
    destruct (store_is_Some buf off acc1 Hoff) as [buf1 Hstore].
    rewrite Hstore. cbn.
    rewrite IH by (rewrite (store_length _ _ _ _ Hstore); done).
    unfold update_cell. rewrite (load_store_eq _ _ _ _ Hstore). cbn.
    destruct (loop_from (i + 1) n body acc1) as [acc2|]; [|done]. cbn.
    by apply (store_store buf off acc1).
Qed.

Lemma for_range_update_cell (body : Z → F → option F) off n buf :
  0 ≤ off < Z.of_nat (length buf) →
  for_range n (λ j, update_cell (body j) off) buf
  = update_cell (for_range n body) off buf.
Proof. apply loop_from_update_cell. Qed.

End Cells.

Section GenericKernelCells.
Context {F : Type} `{HS : Scalar F}.
Implicit Types (buf : list F) (off : Z).

Lemma for_range_lift (f : Z → list F → option (list F))
    (g : Z → F → option F) off n buf :
  0 ≤ off < Z.of_nat (length buf) →
  (∀ j s, 0 ≤ j < n → length s = length buf →
          f j s = update_cell (g j) off s) →
  for_range n f buf = update_cell (for_range n g) off buf.
Proof.
  intros Hoff Hfg.
  rewrite <- for_range_update_cell by done.
  apply (for_range_ext_inv (λ s, length s = length buf)); [done | done |].
  intros j s s' _ Hlen Hu. by rewrite (update_cell_length _ _ _ _ Hu).
Qed.

Lemma conv_inner_loops (input filter : list F)
    in_height in_width in_channels filter_height filter_width
    stride_h stride_w dilation_h dilation_w b m h w off buf :
  0 ≤ off < Z.of_nat (length buf) →
  for_range in_channels (λ c,
    for_range filter_height (λ kh,
      for_range filter_width (λ kw output,
        x ← load input
              (((b * in_channels + c) * in_height
                + (h * stride_h + kh * dilation_h)) * in_width
               + (w * stride_w + kw * dilation_w));
        k ← load filter
              ((((m * in_channels) + c) * filter_height + kh)
               * filter_width + kw);
        acc ← load output off;
        store output off (fadd acc (fmul x k))))) buf
  = update_cell
      (conv_cell input filter in_height in_width in_channels
         filter_height filter_width stride_h stride_w dilation_h dilation_w
         b m h w) off buf.
Proof.
  intros Hoff. unfold conv_cell.
  apply for_range_lift; [done |]. intros c s1 _ Hlen1.
  apply for_range_lift; [lia |]. intros kh s2 _ Hlen2.
  apply for_range_lift; [lia |]. intros kw s3 _ Hlen3.
  unfold update_cell.
  destruct (load_is_Some s3 off) as [acc ->]; [lia |].
  destruct (load input _) as [x|]; [|done].
  by destruct (load filter _) as [k|].
Qed.

Lemma conv_cell_total (input filter : list F)
    batch in_height in_width in_channels out_height out_width out_channels
    filter_height filter_width stride_h stride_w dilation_h dilation_w
    b m h w acc :
  0 ≤ in_channels →
  0 ≤ stride_h → 0 ≤ stride_w → 0 ≤ dilation_h → 0 ≤ dilation_w →
  (out_height - 1) * stride_h + (filter_height - 1) * dilation_h
    < in_height →
  (out_width - 1) * stride_w + (filter_width - 1) * dilation_w < in_width →
  Z.of_nat (length input) = batch * in_channels * in_height * in_width →
  Z.of_nat (length filter)
  = out_channels * in_channels * filter_height * filter_width →
  0 ≤ b < batch → 0 ≤ m < out_channels →
  0 ≤ h < out_height → 0 ≤ w < out_width →
  is_Some (conv_cell input filter in_height in_width in_channels
             filter_height filter_width stride_h stride_w
             dilation_h dilation_w b m h w acc).
Proof.
  intros Hic Hsh Hsw Hdh Hdw Hwin_h Hwin_w Hin Hfilter Hb Hm Hh Hw.
  unfold conv_cell.
  assert (Hloop : ∀ (body : Z → F → option F) n (a : F),
            0 ≤ n → (∀ j a, 0 ≤ j < n → is_Some (body j a)) →
            is_Some (for_range n body a)).
  { intros body n a Hn Hbody.
    destruct (for_range_invariant (λ _ _, True) body n a Hn I)
      as (a' & -> & _); [|done].
    intros j a1 Hj _. destruct (Hbody j a1 Hj) as [a2 ->]. eauto. }
  revert acc.
  assert (0 ≤ filter_height ∨ filter_height < 0) as [Hfh | Hfh] by lia;
    [|intros acc; apply Hloop; [done |]; intros c a Hc;
      unfold for_range; by replace (Z.to_nat filter_height) with 0%nat
        by lia].
  assert (0 ≤ filter_width ∨ filter_width < 0) as [Hfw | Hfw] by lia;
    [|intros acc; apply Hloop; [done |]; intros c a Hc;
      apply Hloop; [done |]; intros kh a' Hkh;
      unfold for_range; by replace (Z.to_nat filter_width) with 0%nat
        by lia].
  intros acc. apply Hloop; [done |]. intros c a1 Hc.
  apply Hloop; [done |]. intros kh a2 Hkh.
  apply Hloop; [done |]. intros kw a3 Hkw.
  assert (0 ≤ h * stride_h + kh * dilation_h < in_height) as Hih.
  { assert (h * stride_h ≤ (out_height - 1) * stride_h)
      by (apply Z.mul_le_mono_nonneg_r; lia).
    assert (kh * dilation_h ≤ (filter_height - 1) * dilation_h)
      by (apply Z.mul_le_mono_nonneg_r; lia).
    assert (0 ≤ h * stride_h) by (apply Z.mul_nonneg_nonneg; lia).
    assert (0 ≤ kh * dilation_h) by (apply Z.mul_nonneg_nonneg; lia). lia. }
  assert (0 ≤ w * stride_w + kw * dilation_w < in_width) as Hiw.
  { assert (w * stride_w ≤ (out_width - 1) * stride_w)
      by (apply Z.mul_le_mono_nonneg_r; lia).
    assert (kw * dilation_w ≤ (filter_width - 1) * dilation_w)
      by (apply Z.mul_le_mono_nonneg_r; lia).
    assert (0 ≤ w * stride_w) by (apply Z.mul_nonneg_nonneg; lia).
    assert (0 ≤ kw * dilation_w) by (apply Z.mul_nonneg_nonneg; lia). lia. }
  pose proof (flat_index_bounds b c batch in_channels Hb Hc) as H1.
  pose proof (flat_index_bounds _ _ _ _ H1 Hih) as H2.
  pose proof (flat_index_bounds _ _ _ _ H2 Hiw) as H3.
  pose proof (flat_index_bounds m c out_channels in_channels Hm Hc) as G1.
  pose proof (flat_index_bounds _ _ _ _ G1 Hkh) as G2.
  pose proof (flat_index_bounds _ _ _ _ G2 Hkw) as G3.
  cbn zeta.
  destruct (load_is_Some input
              (((b * in_channels + c) * in_height
                + (h * stride_h + kh * dilation_h)) * in_width
               + (w * stride_w + kw * dilation_w))) as [x ->]; [lia |].
  destruct (load_is_Some filter
              ((((m * in_channels) + c) * filter_height + kh)
               * filter_width + kw)) as [k ->]; [lia |].
  cbn. eauto.
Qed.

End GenericKernelCells.

(** ** Sweeps *)

Lemma flat_div_mod q r M :
  0 ≤ r < M → (q * M + r) `div` M = q ∧ (q * M + r) `mod` M = r.
Proof.
  intros Hr. split.
  - symmetry. apply (Z.div_unique_pos _ _ _ r); lia.
  - symmetry. apply (Z.mod_unique_pos _ _ q); lia.
Qed.

Section Sweeps.
Context {F : Type}.
Implicit Types (buf : list F) (off : Z) (val : Z → F → option F).

Lemma sweeps_update_cell (f : F → option F) off val :
  (∀ acc, is_Some (f acc)) → (∀ acc, val off acc = f acc) →
  sweeps (update_cell f off) off 1 val.
Proof.
  intros Hf Hval buf Hlo Hlen.
  destruct (load_is_Some buf off) as [acc Hacc]; [lia |].
  destruct (Hf acc) as [acc' Hacc'].
  destruct (store_is_Some buf off acc') as [buf' Hstore]; [lia |].
  exists buf'. unfold update_cell. rewrite Hacc. cbn. rewrite Hacc'. cbn.
  split; [done |]. split; [by apply store_length in Hstore |]. split.
  - intros off' Hoff'. assert (off' = off) as -> by lia.
    rewrite (load_store_eq _ _ _ _ Hstore), Hacc. cbn.
    rewrite Hval, Hacc'. eauto.
  - intros off' Hoff'. apply (load_store_ne _ _ _ _ _ Hstore). lia.
Qed.

Lemma sweeps_ext (g g' : list F → option (list F)) lo len val :
  (∀ buf, 0 ≤ lo → lo + len ≤ Z.of_nat (length buf) → g buf = g' buf) →
  sweeps g' lo len val → sweeps g lo len val.
Proof.
  intros Hg Hs buf Hlo Hlen. rewrite Hg by done. by apply Hs.
Qed.

Lemma sweeps_for_range (body : Z → list F → option (list F)) lo n M val :
  0 ≤ n → 0 ≤ M →
  (∀ j, 0 ≤ j < n → sweeps (body j) (lo + j * M) M val) →
  sweeps (for_range n body) lo (n * M) val.
Proof.
  intros Hn HM Hbody buf Hlo Hlen.
  destruct (for_range_invariant
    (λ j buf', length buf' = length buf
       ∧ (∀ off, lo ≤ off < lo + j * M →
                 is_Some (load buf' off)
                 ∧ load buf' off = load buf off ≫= val off)
       ∧ (∀ off, ¬ (lo ≤ off < lo + j * M) → load buf' off = load buf off))
    body n buf Hn) as (buf' & Hloop & Hlen' & Hin & Hout).
  - split; [done |]. split; [intros off Hoff; lia | done].
  - intros j buf1 Hj (Hlen1 & Hin1 & Hout1).
    assert ((j + 1) * M ≤ n * M) by (apply Z.mul_le_mono_nonneg_r; lia).
    assert (0 ≤ j * M) by (apply Z.mul_nonneg_nonneg; lia).
    destruct (Hbody j Hj buf1) as (buf2 & Hstep & Hlen2 & Hin2 & Hout2);
      [lia | lia |].
    exists buf2. split; [done |]. split; [congruence |]. split.
    + intros off Hoff.
      destruct (decide (lo + j * M ≤ off)) as [Hblock | Hearlier].
      * destruct (Hin2 off) as [Hsome Heq]; [lia |].
        split; [done |]. rewrite Heq, Hout1 by lia. done.
      * rewrite Hout2 by lia. apply Hin1. lia.
    + intros off Hoff. rewrite Hout2 by lia. apply Hout1. lia.
  - exists buf'. done.
Qed.

End Sweeps.

Lemma sweeps_at {F : Type} (g : list F → option (list F)) lo lo' len len'
    val :
  lo = lo' → len = len' → sweeps g lo len val → sweeps g lo' len' val.
Proof. by intros -> ->. Qed.

Section GenericKernelElements.
Context {F : Type} `{HS : Scalar F}.

(** The generic kernel on buffers of the extents it is told. *)
Lemma Conv2dNCHW_element_spec (input filter output : list F)
    batch in_height in_width in_channels out_height out_width out_channels
    filter_height filter_width stride_h stride_w dilation_h dilation_w :
  0 ≤ batch → 0 ≤ in_channels →
  0 ≤ out_channels → 0 ≤ out_height → 0 ≤ out_width →
  0 ≤ stride_h → 0 ≤ stride_w → 0 ≤ dilation_h → 0 ≤ dilation_w →
  (out_height - 1) * stride_h + (filter_height - 1) * dilation_h
    < in_height →
  (out_width - 1) * stride_w + (filter_width - 1) * dilation_w < in_width →
  Z.of_nat (length input) = batch * in_channels * in_height * in_width →
  Z.of_nat (length filter)
  = out_channels * in_channels * filter_height * filter_width →
  Z.of_nat (length output)
  = batch * out_channels * out_height * out_width →
  ∃ output',
    Conv2dNCHW input filter batch in_height in_width in_channels
      out_height out_width out_channels filter_height filter_width
      stride_h stride_w dilation_h dilation_w output = Some output'
    ∧ length output' = length output
    ∧ ∀ b m h w,
        0 ≤ b < batch → 0 ≤ m < out_channels →
        0 ≤ h < out_height → 0 ≤ w < out_width →
        ∃ acc acc',
          load output
            (((b * out_channels + m) * out_height + h) * out_width + w)
          = Some acc
          ∧ conv_cell input filter in_height in_width in_channels
              filter_height filter_width stride_h stride_w
              dilation_h dilation_w b m h w acc = Some acc'
          ∧ load output'
              (((b * out_channels + m) * out_height + h) * out_width + w)
            = Some acc'.
Proof.
  intros Hb Hic Hoc Hoh How Hsh Hsw Hdh Hdw Hwin_h Hwin_w Hin Hfilter Hout.
  pose (val := λ (off : Z) (acc : F),
    conv_cell input filter in_height in_width in_channels
      filter_height filter_width stride_h stride_w dilation_h dilation_w
      (((off `div` out_width) `div` out_height) `div` out_channels)
      (((off `div` out_width) `div` out_height) `mod` out_channels)
      ((off `div` out_width) `mod` out_height)
      (off `mod` out_width) acc).
  assert (Hdecode : ∀ b m h w,
    0 ≤ m < out_channels → 0 ≤ h < out_height → 0 ≤ w < out_width →
    val (((b * out_channels + m) * out_height + h) * out_width + w)
    = conv_cell input filter in_height in_width in_channels
        filter_height filter_width stride_h stride_w dilation_h dilation_w
        b m h w).
  { intros b m h w Hm Hh Hw. unfold val.
    destruct (flat_div_mod ((b * out_channels + m) * out_height + h) w
                out_width Hw) as [-> ->].
    destruct (flat_div_mod (b * out_channels + m) h out_height Hh)
      as [-> ->].
    by destruct (flat_div_mod b m out_channels Hm) as [-> ->]. }
  assert (Hsweep :
    sweeps
      (Conv2dNCHW input filter batch in_height in_width in_channels
         out_height out_width out_channels filter_height filter_width
         stride_h stride_w dilation_h dilation_w)
      0 (batch * out_channels * out_height * out_width) val).
  { unfold Conv2dNCHW.
    apply (sweeps_at _ 0 0 (batch * (out_channels * (out_height
                                       * (out_width * 1)))));
      [done | ring |].
    apply sweeps_for_range; [done | | intros b Hb'].
    { repeat apply Z.mul_nonneg_nonneg; lia. }
    apply sweeps_for_range; [done | | intros m Hm].
    { repeat apply Z.mul_nonneg_nonneg; lia. }
    apply sweeps_for_range; [done | | intros h Hh].
    { repeat apply Z.mul_nonneg_nonneg; lia. }
    apply (sweeps_at _ _ _ (out_width * 1) (out_width * 1) val eq_refl
             eq_refl).
    apply sweeps_for_range; [done | lia | intros w Hw].
    apply (sweeps_at _
             (((b * out_channels + m) * out_height + h) * out_width + w)
             _ 1 1); [ring | done |].
    apply (sweeps_ext _
             (update_cell
                (conv_cell input filter in_height in_width in_channels
                   filter_height filter_width stride_h stride_w
                   dilation_h dilation_w b m h w)
                (((b * out_channels + m) * out_height + h) * out_width
                 + w))).
    { intros buf Hlo Hlen. apply conv_inner_loops. lia. }
    apply sweeps_update_cell.
    - intros acc.
      by apply (conv_cell_total input filter batch in_height in_width
                  in_channels out_height out_width out_channels).
    - intros acc. by rewrite Hdecode. }
  destruct (Hsweep output) as (output' & Hrun & Hlen & Hcells & _);
    [done | lia |].
  exists output'. split; [done |]. split; [done |].
  intros b m h w Hb' Hm Hh Hw.
  pose proof (flat_index_bounds b m batch out_channels Hb' Hm) as H1.
  pose proof (flat_index_bounds _ _ _ _ H1 Hh) as H2.
  pose proof (flat_index_bounds _ _ _ _ H2 Hw) as H3.
  destruct (Hcells (((b * out_channels + m) * out_height + h) * out_width
                    + w)) as [[acc' Hacc'] Heq]; [lia |].
  destruct (load_is_Some output
              (((b * out_channels + m) * out_height + h) * out_width + w))
    as [acc Hacc]; [lia |].
  exists acc, acc'. split; [done |].
  rewrite Hacc in Heq. cbn in Heq. rewrite Hdecode in Heq by done.
  split; [congruence | done].
Qed.

(** X1: the generic kernel is memory safe on buffers of the extents it is
    told whenever the last window fits the input, and it treats every output
    element on its own: the element ends as its earlier value with the
    products of its window accumulated in the order of the input channel,
    the filter row and the filter column, whatever the other output elements
    held. *)
Theorem Conv2dNCHW_each_element (input filter output : list F)
    batch in_height in_width in_channels out_height out_width out_channels
    filter_height filter_width stride_h stride_w dilation_h dilation_w :
  0 ≤ batch → 0 ≤ in_channels →
  0 ≤ out_channels → 0 ≤ out_height → 0 ≤ out_width →
  0 ≤ stride_h → 0 ≤ stride_w → 0 ≤ dilation_h → 0 ≤ dilation_w →
  (out_height - 1) * stride_h + (filter_height - 1) * dilation_h
    < in_height →
  (out_width - 1) * stride_w + (filter_width - 1) * dilation_w < in_width →
  Z.of_nat (length input) = batch * in_channels * in_height * in_width →
  Z.of_nat (length filter)
  = out_channels * in_channels * filter_height * filter_width →
  Z.of_nat (length output)
  = batch * out_channels * out_height * out_width →
  ∃ output',
    Conv2dNCHW input filter batch in_height in_width in_channels
      out_height out_width out_channels filter_height filter_width
      stride_h stride_w dilation_h dilation_w output = Some output'
    ∧ length output' = length output
    ∧ ∀ b m h w,
        0 ≤ b < batch → 0 ≤ m < out_channels →
        0 ≤ h < out_height → 0 ≤ w < out_width →
        ∃ acc acc',
          load output
            (((b * out_channels + m) * out_height + h) * out_width + w)
          = Some acc
          ∧ conv_cell input filter in_height in_width in_channels
              filter_height filter_width stride_h stride_w
              dilation_h dilation_w b m h w acc = Some acc'
          ∧ load output'
              (((b * out_channels + m) * out_height + h) * out_width + w)
            = Some acc'.
Proof.
  intros Hb Hic Hoc Hoh How Hsh Hsw Hdh Hdw Hwin_h Hwin_w Hin Hfilter Hout.
  by apply Conv2dNCHW_element_spec.
Qed.

End GenericKernelElements.

(** ** Unpacker *)

Section Unpacker.
Context {F : Type}.

(** The rows of the logical output, copied out of the oversized buffer. *)
Lemma unpack_output_spec (pad_output_data output_data : list F)
    batch channels height width extra_output_height extra_output_width :
  0 ≤ batch → 0 ≤ channels → 0 ≤ height → 0 ≤ width →
  height ≤ extra_output_height → width ≤ extra_output_width →
  Z.of_nat (length pad_output_data)
  = batch * channels * extra_output_height * extra_output_width →
  Z.of_nat (length output_data) = batch * channels * height * width →
  ∃ cropped,
    unpack_output pad_output_data batch channels height width
      extra_output_height extra_output_width output_data = Some cropped
    ∧ length cropped = length output_data
    ∧ ∀ b c h w,
        0 ≤ b < batch → 0 ≤ c < channels → 0 ≤ h < height → 0 ≤ w < width →
        ∃ x,
          load pad_output_data
            (((b * channels + c) * extra_output_height + h)
             * extra_output_width + w) = Some x
          ∧ load cropped (((b * channels + c) * height + h) * width + w)
            = Some x.
Proof.
  intros Hb Hc Hh Hw Hheight Hwidth Hpad Hout.
  pose (val := λ (off : Z) (_ : F),
    load pad_output_data
      ((((off `div` width) `div` height) * extra_output_height
        + (off `div` width) `mod` height) * extra_output_width
       + off `mod` width)).
  assert (Hdecode : ∀ b c h w acc,
    0 ≤ h < height → 0 ≤ w < width →
    val (((b * channels + c) * height + h) * width + w) acc
    = load pad_output_data
        (((b * channels + c) * extra_output_height + h)
         * extra_output_width + w)).
  { intros b c h w acc Hh' Hw'. unfold val.
    destruct (flat_div_mod ((b * channels + c) * height + h) w width Hw')
      as [-> ->].
    by destruct (flat_div_mod (b * channels + c) h height Hh') as [-> ->]. }
  assert (Hsource : ∀ b c h w,
    0 ≤ b < batch → 0 ≤ c < channels → 0 ≤ h < height → 0 ≤ w < width →
    0 ≤ ((b * channels + c) * extra_output_height + h)
        * extra_output_width + w
    < Z.of_nat (length pad_output_data)).
  { intros b c h w Hb' Hc' Hh' Hw'.
    pose proof (flat_index_bounds b c batch channels Hb' Hc') as H1.
    pose proof (flat_index_bounds _ h _ extra_output_height H1
                  ltac:(lia)) as H2.
    pose proof (flat_index_bounds _ w _ extra_output_width H2
                  ltac:(lia)) as H3. lia. }
  assert (Hsweep :
    sweeps
      (unpack_output pad_output_data batch channels height width
         extra_output_height extra_output_width)
      0 (batch * channels * height * width) val).
  { unfold unpack_output.
    apply (sweeps_at _ 0 0 (batch * (channels * (height * (width * 1)))));
      [done | ring |].
    apply sweeps_for_range; [done | | intros b Hb'].
    { repeat apply Z.mul_nonneg_nonneg; lia. }
    apply sweeps_for_range; [done | | intros c Hc'].
    { repeat apply Z.mul_nonneg_nonneg; lia. }
    apply sweeps_for_range; [done | lia | intros h Hh'].
    unfold memcpy.
    apply sweeps_for_range; [done | lia | intros w Hw'].
    apply (sweeps_at _
             (((b * channels + c) * height + h) * width + w) _ 1 1);
      [ring | done |].
    apply (sweeps_ext _
             (update_cell
                (λ _, load pad_output_data
                        (((b * channels + c) * extra_output_height + h)
                         * extra_output_width + w))
                (((b * channels + c) * height + h) * width + w))).
    { intros buf Hlo Hlen. unfold update_cell.
      replace (b * channels * height * width + c * height * width
               + h * width + w)
        with (((b * channels + c) * height + h) * width + w) by ring.
      replace (b * channels * extra_output_height * extra_output_width
               + c * extra_output_height * extra_output_width
               + h * extra_output_width + w)
        with (((b * channels + c) * extra_output_height + h)
              * extra_output_width + w) by ring.
      destruct (load_is_Some buf
                  (((b * channels + c) * height + h) * width + w))
        as [acc ->]; [lia |]. done. }
    apply sweeps_update_cell.
    - intros _. apply load_is_Some. by apply Hsource.
    - intros acc. by apply Hdecode. }
  destruct (Hsweep output_data) as (cropped & Hrun & Hlen & Hcells & _);
    [done | lia |].
  exists cropped. split; [done |]. split; [done |].
  intros b c h w Hb' Hc' Hh' Hw'.
  pose proof (flat_index_bounds b c batch channels Hb' Hc') as H1.
  pose proof (flat_index_bounds _ _ _ _ H1 Hh') as H2.
  pose proof (flat_index_bounds _ _ _ _ H2 Hw') as H3.
  destruct (Hcells (((b * channels + c) * height + h) * width + w))
    as [_ Heq]; [lia |].
  destruct (load_is_Some output_data
              (((b * channels + c) * height + h) * width + w))
    as [acc Hacc]; [lia |].
  rewrite Hacc in Heq. cbn in Heq. rewrite Hdecode in Heq by done.
  destruct (load_is_Some pad_output_data
              (((b * channels + c) * extra_output_height + h)
               * extra_output_width + w)) as [x Hx]; [by apply Hsource |].
  exists x. split; [done | congruence].
Qed.

(** X3: cropping succeeds on buffers of the extents it is told, and the
    output is then exactly the top left [height] x [width] corner of every
    channel of the oversized buffer: each logical element is copied from the
    element of the same batch, channel, row and column, and nothing of what
    the output held before remains. *)
Theorem unpack_output_crops (pad_output_data output_data : list F)
    batch channels height width extra_output_height extra_output_width :
  0 ≤ batch → 0 ≤ channels → 0 ≤ height → 0 ≤ width →
  height ≤ extra_output_height → width ≤ extra_output_width →
  Z.of_nat (length pad_output_data)
  = batch * channels * extra_output_height * extra_output_width →
  Z.of_nat (length output_data) = batch * channels * height * width →
  ∃ cropped,
    unpack_output pad_output_data batch channels height width
      extra_output_height extra_output_width output_data = Some cropped
    ∧ length cropped = length output_data
    ∧ ∀ b c h w,
        0 ≤ b < batch → 0 ≤ c < channels → 0 ≤ h < height → 0 ≤ w < width →
        ∃ x,
          load pad_output_data
            (((b * channels + c) * extra_output_height + h)
             * extra_output_width + w) = Some x
          ∧ load cropped (((b * channels + c) * height + h) * width + w)
            = Some x.
Proof.
  intros Hb Hc Hh Hw Hheight Hwidth Hpad Hout.
  by apply unpack_output_spec.
Qed.

End Unpacker.

(** ** What a call does to the functor *)

Section FunctorState.
Context {F : Type} `{HS : Scalar F}.
Variable uninit : F.

Lemma conv_func_state p (self self' : Conv2dFunctor F) input_data
    filter_data pad_input ptr m m' :
  conv_func p self input_data filter_data pad_input ptr m
  = Some (self', m') →
  (conv_func_strategy (flags p) ≠ Winograd ∧ self' = self)
  ∨ (conv_func_strategy (flags p) = Winograd
     ∧ self' = with_transformed_filter self
                 (if is_filter_transformed_ self
                  then data (transformed_filter_ self)
                  else TransformFilter filter_data)
                 (negb (is_filter_transformed_ self))).
Proof.
  unfold conv_func. intros Hconv.
  destruct (conv_func_strategy (flags p)) eqn:Hstrategy.
  - right. split; [done |]. unfold WinoGradConv3x3s1 in Hconv.
    apply bind_Some in Hconv as ([[tf tr] out] & Hkernel & Hconv).
    apply bind_Some in Hkernel as (out' & _ & Hkernel).
    by simplify_eq.
  - left. apply bind_Some in Hconv as (out & _ & Hconv). by simplify_eq.
  - left. apply bind_Some in Hconv as (out & _ & Hconv). by simplify_eq.
  - left. apply bind_Some in Hconv as (out & _ & Hconv). by simplify_eq.
  - left. apply bind_Some in Hconv as (out & _ & Hconv). by simplify_eq.
Qed.

Lemma execute_state p (self self' : Conv2dFunctor F) input filter bias
    output out :
  execute uninit p self input filter bias output = Some (self', out) →
  (conv_func_strategy (flags p) ≠ Winograd
   ∧ self' = with_scratch self (fst (init_scratch (scratch_ self) (sizes p)))
               (transformed_filter_ self))
  ∨ (conv_func_strategy (flags p) = Winograd
     ∧ self' = after_winograd_call uninit p self filter).
Proof.
  unfold execute, after_winograd_call. intros Hex.
  destruct (init_scratch _ _) as [scratch views]. cbn [fst].
  apply bind_Some in Hex as (pad_input & _ & Hex).
  destruct (prepare_output _ _ _ _) as [ptr m].
  apply bind_Some in Hex as ([self1 m1] & Hconv & Hex).
  apply bind_Some in Hex as (output_data & _ & Hex).
  injection Hex as <- _.
  apply conv_func_state in Hconv as [[Hstrategy ->] | [Hstrategy ->]].
  - left. split; [done |].
    assert (use_winograd (flags p) = false) as ->; [|done].
    unfold conv_func_strategy in Hstrategy.
    by destruct (use_winograd (flags p)).
  - right. split; [done |]. unfold filter_in_use.
    cbn [is_filter_transformed_ transformed_filter_ with_scratch].
    destruct (is_filter_transformed_ self); [|done].
    by rewrite andb_false_r.
Qed.

(** X4: a successful call never touches the configuration of the functor; it
    leaves the cursor of the scratch arena at the byte total of the call and
    the capacity at the larger of the earlier capacity and that total, so
    the arena never shrinks from call to call. *)
Theorem call_keeps_configuration (self self' : Conv2dFunctor F)
    input filter bias output out :
  Conv2dFunctor_operator uninit self input filter bias output
  = Some (self', out) →
  ∃ p,
    plan (paddings_ self) (padding_type_ self) (dilations_ self)
      (strides_ self) (shape input) (shape filter) = Some p
    ∧ strides_ self' = strides_ self
    ∧ padding_type_ self' = padding_type_ self
    ∧ paddings_ self' = paddings_ self
    ∧ dilations_ self' = dilations_ self
    ∧ activation_ self' = activation_ self
    ∧ relux_max_limit_ self' = relux_max_limit_ self
    ∧ offset_ (scratch_ self') = total_scratch_size (sizes p)
    ∧ size_ (scratch_ self')
      = Z.max (size_ (scratch_ self)) (total_scratch_size (sizes p))
    ∧ size_ (scratch_ self) ≤ size_ (scratch_ self').
Proof.
  intros Hop. unfold Conv2dFunctor_operator in Hop.
  apply bind_Some in Hop as (p & Hplan & Hex).
  exists p. split; [done |].
  assert (Hscratch :
    offset_ (fst (init_scratch (scratch_ self) (sizes p)))
    = total_scratch_size (sizes p)
    ∧ size_ (fst (init_scratch (scratch_ self) (sizes p)))
      = Z.max (size_ (scratch_ self)) (total_scratch_size (sizes p))).
  { unfold init_scratch, Scratch, GrowSize, Rewind.
    assert (Hsum : total_scratch_size (sizes p)
              = transformed_input_size (sizes p)
                + transformed_output_size (sizes p)
                + padded_input_size (sizes p) + padded_output_size (sizes p)).
    { apply plan_inv in Hplan
        as (n & ic & ih & iw & oc & kh & kw & ph & pw
            & _ & _ & _ & _ & _ & ->).
      unfold planned. cbn [sizes]. apply total_scratch_size_sum. }
    case_decide as Hgrow; cbn [size_] in Hgrow; cbn [fst offset_ size_]; lia. }
  destruct Hscratch as [Hoffset Hsize].
  apply execute_state in Hex as [[_ ->] | [_ ->]];
    unfold after_winograd_call;
    cbn [strides_ padding_type_ paddings_ dilations_ activation_
         relux_max_limit_ scratch_ with_scratch with_transformed_filter];
    rewrite Hoffset, Hsize; repeat split; lia.
Qed.

(** X5: the filter cache belongs to the Winograd strategy: a successful call
    on any other strategy leaves the flag, the cached tensor and the
    transform counter as they were. On every strategy a set flag stays set,
    a call with the flag set transforms nothing and keeps the cached values,
    and one call transforms at most once. *)
Theorem call_and_filter_cache (self self' : Conv2dFunctor F)
    input filter bias output out :
  Conv2dFunctor_operator uninit self input filter bias output
  = Some (self', out) →
  ∃ p,
    plan (paddings_ self) (padding_type_ self) (dilations_ self)
      (strides_ self) (shape input) (shape filter) = Some p
    ∧ (conv_func_strategy (flags p) ≠ Winograd →
       is_filter_transformed_ self' = is_filter_transformed_ self
       ∧ transformed_filter_ self' = transformed_filter_ self
       ∧ filter_transforms self' = filter_transforms self)
    ∧ (conv_func_strategy (flags p) = Winograd →
       is_filter_transformed_ self' = true
       ∧ data (transformed_filter_ self') = filter_in_use self filter)
    ∧ (is_filter_transformed_ self = true →
       is_filter_transformed_ self' = true
       ∧ data (transformed_filter_ self') = data (transformed_filter_ self)
       ∧ filter_transforms self' = filter_transforms self)
    ∧ (filter_transforms self ≤ filter_transforms self'
       ≤ filter_transforms self + 1)%nat.
Proof.
  intros Hop. unfold Conv2dFunctor_operator in Hop.
  apply bind_Some in Hop as (p & Hplan & Hex).
  exists p. split; [done |].
  apply execute_state in Hex as [[Hstrategy ->] | [Hstrategy ->]].
  - cbn [is_filter_transformed_ transformed_filter_ filter_transforms
         with_scratch].
    repeat split; (done || lia).
  - unfold after_winograd_call, filter_in_use.
    cbn [is_filter_transformed_ transformed_filter_ filter_transforms
         with_scratch with_transformed_filter data].
    split; [done |]. split; [done |]. split.
    + intros ->. cbn. repeat split; lia.
    + destruct (is_filter_transformed_ self); cbn; lia.
Qed.

End FunctorState.

(** ** The generic strategy, end to end *)

Section GenericCall.
Context {F : Type} `{HS : Scalar F}.
Variable uninit : F.

(** X2: whenever the generic strategy is the one selected, a call on an
    input and a filter of the sizes their shapes give succeeds, whatever the
    filter, with or without a bias and for every activation. Each element of
    the output is then the window sum of the generic kernel started from the
    zero the cleared output holds, taken over the buffer the kernel was
    handed (the input itself when nothing is padded), plus the bias of the
    channel when there is one, passed through the activation. *)
Theorem generic_call_elementwise (self : Conv2dFunctor F)
    (input filter : Tensor F) (bias : option (Tensor F)) (output : Tensor F)
    n ic ih iw oc kh kw ph pw :
  shape input = [n; ic; ih; iw] →
  Z.of_nat (length (data input)) = n * ic * ih * iw →
  shape filter = [oc; ic; kh; kw] →
  Z.of_nat (length (data filter)) = oc * ic * kh * kw →
  (∀ t, bias = Some t → oc ≤ Z.of_nat (length (data t))) →
  resolved_padding (paddings_ self) (padding_type_ self) (dilations_ self)
    kh kw = Some (ph, pw) →
  conv_func_strategy
    (select_flags kh kw (fst (strides_ self)) (snd (strides_ self))
       (fst (dilations_ self)) (snd (dilations_ self)) ic oc) = Generic →
  0 ≤ n → 0 ≤ ic → 0 ≤ oc → 0 ≤ ih → 0 ≤ iw → 0 ≤ ph → 0 ≤ pw →
  0 < kh < 2 ^ 31 → 0 < kw < 2 ^ 31 →
  0 < fst (strides_ self) < 2 ^ 31 → 0 < snd (strides_ self) < 2 ^ 31 →
  0 < fst (dilations_ self) < 2 ^ 31 → 0 < snd (dilations_ self) < 2 ^ 31 →
  0 < output_extent ih ph (fst (dilations_ self)) kh (fst (strides_ self)) →
  0 < output_extent iw pw (snd (dilations_ self)) kw (snd (strides_ self)) →
  ∃ self' out pad_input,
    Conv2dFunctor_operator uninit self input filter bias output
    = Some (self', out)
    ∧ Z.of_nat (length pad_input) = n * ic * (ih + ph) * (iw + pw)
    ∧ (ph = 0 → pw = 0 → pad_input = data input)
    ∧ ∀ b m h w,
        0 ≤ b < n → 0 ≤ m < oc →
        0 ≤ h < output_extent ih ph (fst (dilations_ self)) kh
                  (fst (strides_ self)) →
        0 ≤ w < output_extent iw pw (snd (dilations_ self)) kw
                  (snd (strides_ self)) →
        ∃ acc biased,
          conv_cell pad_input (data filter) (ih + ph) (iw + pw) ic kh kw
            (fst (strides_ self)) (snd (strides_ self))
            (fst (dilations_ self)) (snd (dilations_ self)) b m h w fzero
          = Some acc
          ∧ match bias with
            | Some t =>
                ∃ bias_m,
                  load (data t) m = Some bias_m ∧ biased = fadd acc bias_m
            | None => biased = acc
            end
          ∧ load (data out)
              (((b * oc + m)
                * output_extent ih ph (fst (dilations_ self)) kh
                    (fst (strides_ self)) + h)
               * output_extent iw pw (snd (dilations_ self)) kw
                   (snd (strides_ self)) + w)
            = Some (activate (activation_ self) (relux_max_limit_ self)
                      biased).
Proof.
  intros Hin Hinlen Hfilter Hfilterlen Hbias Hpad Hgeneric
    Hn Hic Hoc Hih Hiw Hph Hpw Hkh Hkw Hsh Hsw Hdh Hdw Hoh How.
  set (oh := output_extent ih ph _ kh _) in *.
  set (ow := output_extent iw pw _ kw _) in *.
  unfold Conv2dFunctor_operator. rewrite Hin, Hfilter.
  rewrite (plan_resolved _ _ _ _ n ic ih iw oc kh kw ph pw Hpad Hoh How).
  cbn [mbind option_bind].
  set (p := planned _ _ _ _ _ _ _ _ _ _ _).
  assert (Hstrategy : conv_func_strategy (flags p) = Generic) by exact Hgeneric.
  assert (Ht : tiling p
    = {| extra_input_height := ih + ph; extra_input_width := iw + pw;
         extra_output_height := oh; extra_output_width := ow;
         pad_top := Z.shiftr ph 1; pad_bottom := ph - Z.shiftr ph 1;
         pad_left := Z.shiftr pw 1; pad_right := pw - Z.shiftr pw 1;
         transformed_input_shape := []; transformed_output_shape := [];
         transformed_filter_shape := [] |})
    by (apply generic_tiling; exact Hgeneric).
  pose proof (shiftr_1_bounds ph Hph) as Hsph.
  pose proof (shiftr_1_bounds pw Hpw) as Hspw.
  assert (Hcount : num_elements [n; oc; oh; ow] = n * oc * oh * ow)
    by (cbn [num_elements foldr]; ring).
  assert (0 ≤ n * oc * oh * ow)
    by (repeat apply Z.mul_nonneg_nonneg; lia).
  rewrite Clear_Resize_zeros.
  change (output_shape p) with [n; oc; oh; ow]. rewrite Hcount.
  set (zeros := replicate (Z.to_nat (n * oc * oh * ow)) fzero).
  assert (Hzeros : Z.of_nat (length zeros) = n * oc * oh * ow)
    by (unfold zeros; rewrite length_replicate; lia).
  unfold execute. destruct (init_scratch _ _) as [scratch views].
  assert (Hprep : ∃ pad_input,
    prepare_input uninit p input (scratch_tensor (padded_input_view views))
    = Some pad_input
    ∧ Z.of_nat (length (data pad_input)) = n * ic * (ih + ph) * (iw + pw)
    ∧ (ph = 0 → pw = 0 → pad_input = input)).
  { unfold prepare_input, needs_padded_input. rewrite Ht.
    cbn [extra_input_height extra_input_width pad_top pad_bottom pad_left
         pad_right].
    change (input_height p) with ih. change (input_width p) with iw.
    case_bool_decide as Hneed.
    - destruct (padder_total uninit input
                  (Clear (scratch_tensor (padded_input_view views)))
                  n ic ih iw (Z.shiftr ph 1) (ph - Z.shiftr ph 1)
                  (Z.shiftr pw 1) (pw - Z.shiftr pw 1))
        as (result & -> & _ & Hlen); [done || lia ..|].
      exists result. split; [done |]. split; [| lia].
      rewrite Hlen. f_equal; [f_equal|]; lia.
    - exists input. split; [done |]. split; [| done].
      assert (ih + ph = ih ∧ iw + pw = iw) as [-> ->] by lia. done. }
  destruct Hprep as (pad_input & -> & Hpadlen & Hsame).
  cbn [mbind option_bind].
  assert (Hnopad : needs_padded_output (tiling p) (height p) (width p)
                   = false).
  { unfold needs_padded_output. rewrite Ht. apply bool_decide_eq_false_2.
    cbn. change (height p) with oh. change (width p) with ow. lia. }
  unfold prepare_output. rewrite Hnopad. cbn [data].
  unfold conv_func. rewrite Hstrategy. cbn [deref output_data].
  rewrite Ht. cbn [extra_input_height extra_input_width extra_output_height
                   extra_output_width].
  change (batch p) with n. change (channels p) with oc.
  change (input_channels p) with ic.
  change (filter_h p) with kh. change (filter_w p) with kw.
  change (stride_h p) with (fst (strides_ self)).
  change (stride_w p) with (snd (strides_ self)).
  change (dilation_h p) with (fst (dilations_ self)).
  change (dilation_w p) with (snd (dilations_ self)).
  rewrite !to_int_small by lia.
  pose proof (output_extent_window ih ph (fst (dilations_ self)) kh
                (fst (strides_ self)) ltac:(lia)) as Hwin_h.
  pose proof (output_extent_window iw pw (snd (dilations_ self)) kw
                (snd (strides_ self)) ltac:(lia)) as Hwin_w.
  fold oh in Hwin_h. fold ow in Hwin_w.
  destruct (Conv2dNCHW_element_spec (data pad_input) (data filter) zeros
              n (ih + ph) (iw + pw) ic oh ow oc kh kw
              (fst (strides_ self)) (snd (strides_ self))
              (fst (dilations_ self)) (snd (dilations_ self)))
    as (convolved & -> & Hconvlen & Hconv); [lia .. | done | done | done |].
  cbn [mbind option_bind assign].
  unfold post_process, crop_output. rewrite Hnopad.
  cbn [mbind option_bind output_data].
  unfold bias_and_activation.
  change (height p) with oh. change (width p) with ow.
  change (batch p) with n. change (channels p) with oc.
  assert (Hflat : ∀ b m h w,
    ((b * oc + m) * oh + h) * ow + w
    = (b * oc + m) * (oh * ow) + (h * ow + w)) by (intros; ring).
  assert (Hbiased : ∃ biased,
    match bias with
    | Some bias => add_bias (data bias) n oc oh ow convolved
    | None => Some convolved
    end = Some biased
    ∧ length biased = length convolved
    ∧ ∀ b m h w,
        0 ≤ b < n → 0 ≤ m < oc → 0 ≤ h < oh → 0 ≤ w < ow →
        ∃ x y,
          load convolved (((b * oc + m) * oh + h) * ow + w) = Some x
          ∧ match bias with
            | Some t =>
                ∃ bias_m, load (data t) m = Some bias_m ∧ y = fadd x bias_m
            | None => y = x
            end
          ∧ load biased (((b * oc + m) * oh + h) * ow + w) = Some y).
  { destruct bias as [t|].
    - destruct (add_bias_spec (data t) convolved n oc oh ow)
        as (biased & -> & Hlen & Hpoint);
        [lia | lia | apply Z.mul_nonneg_nonneg; lia
        | rewrite Hconvlen, Hzeros; ring | by apply Hbias |].
      exists biased. split; [done |]. split; [done |].
      intros b m h w Hb Hm Hh Hw.
      destruct (Hpoint b m (h * ow + w) Hb Hm
                  (flat_index_bounds h w oh ow Hh Hw))
        as (x & bias_m & Hx & Hbm & Hy).
      exists x, (fadd x bias_m). rewrite Hflat.
      split; [done |]. split; [eauto | done].
    - exists convolved. split; [done |]. split; [done |].
      intros b m h w Hb Hm Hh Hw.
      destruct (Hconv b m h w Hb Hm Hh Hw) as (acc & acc' & _ & _ & Hload).
      exists acc', acc'. done. }
  destruct Hbiased as (biased & -> & Hbiasedlen & Hpoint).
  cbn [mbind option_bind activation_ relux_max_limit_ with_scratch].
  replace (size {| shape := [n; oc; oh; ow]; data := zeros |})
    with (Z.of_nat (length biased)).
  2:{ unfold size. cbn [shape]. rewrite Hcount, Hbiasedlen, Hconvlen. lia. }
  rewrite DoActivation_spec. cbn [mbind option_bind].
  eexists _, _, (data pad_input). split; [reflexivity |]. cbn [shape data].
  split; [done |]. split; [by intros Hph0 Hpw0; rewrite Hsame |].
  intros b m h w Hb Hm Hh Hw.
  destruct (Hconv b m h w Hb Hm Hh Hw) as (acc & acc' & Hacc & Hcell & Hload).
  destruct (Hpoint b m h w Hb Hm Hh Hw) as (x & y & Hx & Hy & Hbiased).
  assert (acc = fzero) as ->.
  { unfold zeros in Hacc. rewrite load_replicate in Hacc; [by simplify_eq |].
    pose proof (flat_index_bounds b m n oc Hb Hm) as H1.
    pose proof (flat_index_bounds _ h _ oh H1 Hh) as H2.
    pose proof (flat_index_bounds _ w _ ow H2 Hw). lia. }
  assert (x = acc') as -> by congruence.
  exists acc', y. split; [done |]. split; [done |].
  by rewrite load_fmap, Hbiased.
Qed.

End GenericCall.

(** ** Checks and sizes of the planning stage *)

Lemma to_int_range z : - 2 ^ 31 ≤ to_int z < 2 ^ 31.
Proof.
  unfold to_int, wrap_signed.
  replace (2 ^ (32 - 1)) with (2 ^ 31) by reflexivity.
  pose proof (Z.mod_pos_bound (z + 2 ^ 31) (2 ^ 32) ltac:(lia)). lia.
Qed.

Lemma fold_left_to_int shape acc :
  fold_left (λ acc x, to_int (acc * x)) shape (to_int acc)
  = to_int (acc * num_elements shape).
Proof.
  revert acc. induction shape as [|x shape IH]; intros acc.
  - cbn. by rewrite Z.mul_1_r.
  - cbn [fold_left]. rewrite to_int_mul_l, IH. f_equal.
    unfold num_elements. cbn [foldr]. ring.
Qed.

(** X7: the element count of a Winograd work buffer is accumulated in an
    [int]: it is the product of the shape reduced to 32 bits, and so it is
    the number of elements of that shape exactly when that number fits an
    [int]. *)
Theorem accumulate_multiplies_is_int_product shape :
  accumulate_multiplies shape = to_int (num_elements shape)
  ∧ (accumulate_multiplies shape = num_elements shape
     ↔ - 2 ^ 31 ≤ num_elements shape < 2 ^ 31).
Proof.
  assert (Hacc : accumulate_multiplies shape = to_int (num_elements shape)).
  { unfold accumulate_multiplies.
    change 1 with (to_int 1) at 1. rewrite fold_left_to_int.
    by rewrite Z.mul_1_l. }
  split; [done |]. rewrite Hacc. split.
  - intros <-. apply to_int_range.
  - apply to_int_small.
Qed.

Section PlanningChecks.
Context {F : Type} `{HS : Scalar F}.
Variable uninit : F.

(** X6: a filter whose second dimension is not the channel count of the
    input never reaches a kernel: the call stops at the check, whatever the
    configuration, the bias and the output tensor. *)
Theorem mismatched_filter_is_rejected (self : Conv2dFunctor F)
    (input filter : Tensor F) (bias : option (Tensor F)) (output : Tensor F) :
  shape filter !! 1%nat ≠ shape input !! 1%nat →
  Conv2dFunctor_operator uninit self input filter bias output = None.
Proof.
  intros Hmismatch.
  destruct (Conv2dFunctor_operator uninit self input filter bias output)
    as [[self' out]|] eqn:Hop; [| done].
  exfalso. apply Hmismatch.
  unfold Conv2dFunctor_operator in Hop.
  apply bind_Some in Hop as (p & Hplan & _).
  apply plan_inv in Hplan
    as (n & ic & ih & iw & oc & kh & kw & ph & pw & -> & -> & _).
  done.
Qed.

End PlanningChecks.

(** ** Copies and flat indices *)

Lemma memcpy_spec {T : Type} (dst src : list T) dst_offset src_offset n :
  0 ≤ n →
  0 ≤ dst_offset → dst_offset + n ≤ Z.of_nat (length dst) →
  0 ≤ src_offset → src_offset + n ≤ Z.of_nat (length src) →
  ∃ dst',
    memcpy dst dst_offset src src_offset n = Some dst'
    ∧ length dst' = length dst
    ∧ (∀ i, 0 ≤ i < n →
         load dst' (dst_offset + i) = load src (src_offset + i))
    ∧ ∀ off, ¬ (dst_offset ≤ off < dst_offset + n) →
        load dst' off = load dst off.
Proof.
  intros Hn Hd0 Hd1 Hs0 Hs1. unfold memcpy.
  destruct (for_range_invariant
    (λ j d,
       length d = length dst
       ∧ (∀ i, 0 ≤ i < j →
            load d (dst_offset + i) = load src (src_offset + i))
       ∧ ∀ off, ¬ (dst_offset ≤ off < dst_offset + j) →
           load d off = load dst off)
    (λ i dst, x ← load src (src_offset + i); store dst (dst_offset + i) x)
    n dst Hn) as (dst' & Hrun & Hlen & Hcopied & Hrest).
  - split; [done |]. split; [intros i Hi; lia | done].
  - intros j d Hj (Hlen & Hcopied & Hrest).
    destruct (load_is_Some src (src_offset + j)) as [x Hx]; [lia |].
    destruct (store_is_Some d (dst_offset + j) x) as [d' Hstore]; [lia |].
    exists d'. rewrite Hx. cbn. split; [done |].
    split; [by rewrite (store_length _ _ _ _ Hstore) |]. split.
    + intros i Hi. destruct (decide (i = j)) as [-> | Hne].
      * by rewrite (load_store_eq _ _ _ _ Hstore).
      * rewrite (load_store_ne _ _ _ _ _ Hstore) by lia. apply Hcopied. lia.
    + intros off Hoff. rewrite (load_store_ne _ _ _ _ _ Hstore) by lia.
      apply Hrest. lia.
  - exists dst'. done.
Qed.

Lemma memcpy_whole {T : Type} (dst src : list T) n :
  Z.of_nat (length dst) = n → Z.of_nat (length src) = n →
  memcpy dst 0 src 0 n = Some src.
Proof.
  intros Hdst Hsrc.
  destruct (memcpy_spec dst src 0 0 n) as (dst' & -> & Hlen & Hcopied & _);
    [lia..|].
  f_equal. apply buffer_eq; [lia |]. intros off.
  destruct (decide (0 ≤ off < n)) as [Hoff | Hoff].
  - apply (Hcopied off Hoff).
  - unfold load. case_decide; [| done].
    rewrite !lookup_ge_None_2 by lia. done.
Qed.

Lemma memcpy_keeps_length {T : Type} (dst src dst' : list T)
    dst_offset src_offset n :
  memcpy dst dst_offset src src_offset n = Some dst' →
  length dst' = length dst.
Proof.
  unfold memcpy.
  apply (for_range_preserves (λ d, length d = length dst)); [done |].
  intros i d d1 _ Hd Hstep.
  apply bind_Some in Hstep as (x & _ & Hstore).
  rewrite <- Hd. by apply store_length in Hstore.
Qed.

Lemma length_Resize {T : Type} (uninit : T) (t : Tensor T) shape :
  length (data (Resize uninit t shape)) = Z.to_nat (num_elements shape).
Proof. cbn [Resize data]. apply length_resize. Qed.

Lemma load_replicate_inv {T : Type} n (x y : T) off :
  load (replicate n x) off = Some y → y = x.
Proof.
  unfold load. case_decide; [| done].
  intros Hlookup. by apply lookup_replicate in Hlookup as [-> _].
Qed.

Lemma flat_decode4 A B C D off :
  0 < B → 0 < C → 0 < D → 0 ≤ off < A * B * C * D →
  ∃ a b c d,
    0 ≤ a < A ∧ 0 ≤ b < B ∧ 0 ≤ c < C ∧ 0 ≤ d < D
    ∧ off = ((a * B + b) * C + c) * D + d.
Proof.
  intros HB HC HD Hoff.
  pose (q1 := off `div` D). pose (q2 := q1 `div` C).
  exists (q2 `div` B), (q2 `mod` B), (q1 `mod` C), (off `mod` D).
  pose proof (Z.div_mod off D ltac:(lia)) as E1.
  pose proof (Z.div_mod q1 C ltac:(lia)) as E2.
  pose proof (Z.div_mod q2 B ltac:(lia)) as E3.
  pose proof (Z.mod_pos_bound off D HD).
  pose proof (Z.mod_pos_bound q1 C HC).
  pose proof (Z.mod_pos_bound q2 B HB).
  assert (0 ≤ q1) by (apply Z.div_pos; lia).
  assert (0 ≤ q2) by (apply Z.div_pos; lia).
  assert (0 ≤ q2 `div` B) by (apply Z.div_pos; lia).
  assert (q1 < A * B * C) by (apply Z.div_lt_upper_bound; lia).
  assert (q2 < A * B) by (apply Z.div_lt_upper_bound; lia).
  assert (q2 `div` B < A) by (apply Z.div_lt_upper_bound; lia).
  repeat (split; [lia |]).
  fold q1 in E1. fold q2 in E2.
  rewrite E1 at 1. rewrite E2 at 1. rewrite E3 at 1. ring.
Qed.

(** * The fast strategies against the generic one *)

(** ** More on sweeps *)

Section MoreSweeps.
Context {F : Type}.
Implicit Types (buf : list F) (off : Z) (val : Z → F → option F).

Lemma sweeps_val_ext (g : list F → option (list F)) lo len val val' :
  (∀ off acc, lo ≤ off < lo + len → val off acc = val' off acc) →
  sweeps g lo len val → sweeps g lo len val'.
Proof.
  intros Hval Hs buf Hlo Hlen.
  destruct (Hs buf Hlo Hlen) as (buf' & Hrun & Hlen' & Hin & Hout).
  exists buf'. split; [done |]. split; [done |]. split; [| done].
  intros off Hoff. destruct (Hin off Hoff) as [Hsome Heq].
  split; [done |]. rewrite Heq.
  destruct (load buf off) as [acc|]; [cbn; by apply Hval | done].
Qed.

Lemma sweeps_widen (g : list F → option (list F)) lo len lo' len' val :
  lo' ≤ lo → lo + len ≤ lo' + len' →
  sweeps g lo len val →
  sweeps g lo' len'
    (λ off acc, if decide (lo ≤ off < lo + len) then val off acc
                else Some acc).
Proof.
  intros Hlo Hhi Hs buf Hlo' Hlen'.
  destruct (Hs buf) as (buf' & Hrun & Hlen & Hin & Hout); [lia | lia |].
  exists buf'. split; [done |]. split; [done |]. split.
  - intros off Hoff. case_decide as Hinner.
    + by apply Hin.
    + rewrite Hout by done.
      destruct (load_is_Some buf off) as [acc ->]; [lia |].
      split; [eauto | done].
  - intros off Hoff. apply Hout. lia.
Qed.

Lemma sweeps_memcpy (src : list F) dst_offset src_offset n :
  0 ≤ n → 0 ≤ src_offset → src_offset + n ≤ Z.of_nat (length src) →
  sweeps (λ dst, memcpy dst dst_offset src src_offset n) dst_offset n
    (λ off _, load src (src_offset + (off - dst_offset))).
Proof.
  intros Hn Hs0 Hs1 buf Hlo Hlen.
  destruct (memcpy_spec buf src dst_offset src_offset n)
    as (buf' & Hrun & Hlen' & Hcopied & Hrest); [lia..|].
  exists buf'. split; [done |]. split; [done |]. split; [| done].
  intros off Hoff.
  replace off with (dst_offset + (off - dst_offset)) at 1 2 by lia.
  rewrite Hcopied by lia.
  destruct (load_is_Some src (src_offset + (off - dst_offset)))
    as [x Hx]; [lia |].
  destruct (load_is_Some buf off) as [acc Hacc]; [lia |].
  rewrite Hx, Hacc. split; [eauto | done].
Qed.

End MoreSweeps.

(** ** The padded input *)

Section PaddedInput.
Context {F : Type} `{HS : Scalar F}.
Variable uninit : F.

Lemma padder_spec (input padded : Tensor F)
    batch channels height width pad_top pad_bottom pad_left pad_right :
  shape input = [batch; channels; height; width] →
  Z.of_nat (length (data input)) = batch * channels * height * width →
  0 ≤ batch → 0 ≤ channels → 0 ≤ height → 0 ≤ width →
  0 ≤ pad_top → 0 ≤ pad_bottom → 0 ≤ pad_left → 0 ≤ pad_right →
  ∃ result,
    ConstructNCHWInputWithSpecificPadding uninit input
      pad_top pad_bottom pad_left pad_right padded = Some result
    ∧ Z.of_nat (length (data result))
      = batch * channels * (height + pad_top + pad_bottom)
        * (width + pad_left + pad_right)
    ∧ ∀ b c r s,
        0 ≤ b < batch → 0 ≤ c < channels →
        0 ≤ r < height + pad_top + pad_bottom →
        0 ≤ s < width + pad_left + pad_right →
        load (data result)
          (((b * channels + c) * (height + pad_top + pad_bottom) + r)
           * (width + pad_left + pad_right) + s)
        = padded_pixel (data input) channels height width pad_top pad_left
            b c r s.
Proof.
  intros Hshape Hlen Hb Hc Hh Hw Hpt Hpb Hpl Hpr.
  unfold ConstructNCHWInputWithSpecificPadding. rewrite Hshape.
  set (PH := height + pad_top + pad_bottom).
  set (PW := width + pad_left + pad_right).
  rewrite Clear_Resize_zeros. cbn [data shape].
  assert (Hcount : 0 ≤ batch * channels * PH * PW)
    by (repeat apply Z.mul_nonneg_nonneg; lia).
  replace (num_elements [batch; channels; PH; PW])
    with (batch * channels * PH * PW) by (cbn [num_elements foldr]; ring).
  set (zeros := replicate _ fzero).
  assert (Hzeros : Z.of_nat (length zeros) = batch * channels * PH * PW).
  { unfold zeros. rewrite length_replicate. lia. }
  pose (val := λ (off : Z) (acc : F),
    if decide (pad_top ≤ (off `div` PW) `mod` PH < pad_top + height
               ∧ pad_left ≤ off `mod` PW < pad_left + width)
    then load (data input)
           ((((off `div` PW) `div` PH) * height
             + ((off `div` PW) `mod` PH - pad_top)) * width
            + (off `mod` PW - pad_left))
    else Some acc).
  assert (Hdecode : ∀ bc r s acc,
    0 ≤ r < PH → 0 ≤ s < PW →
    val ((bc * PH + r) * PW + s) acc
    = if decide (pad_top ≤ r < pad_top + height
                 ∧ pad_left ≤ s < pad_left + width)
      then load (data input)
             ((bc * height + (r - pad_top)) * width + (s - pad_left))
      else Some acc).
  { intros bc r s acc Hr Hs. unfold val.
    destruct (flat_div_mod (bc * PH + r) s PW Hs) as [-> ->].
    by destruct (flat_div_mod bc r PH Hr) as [-> ->]. }
  assert (Hsweep :
    sweeps
      (for_range batch (λ b,
         for_range channels (λ c,
           for_range height (λ h padded_data,
             memcpy padded_data
               (((b * channels + c) * PH + (h + pad_top)) * PW + pad_left)
               (data input) (((b * channels + c) * height + h) * width)
               width))))
      0 (batch * channels * PH * PW) val).
  { apply (sweeps_at _ 0 0 (batch * (channels * (PH * PW)))); [done | ring |].
    apply sweeps_for_range; [done | | intros b Hb'].
    { repeat apply Z.mul_nonneg_nonneg; lia. }
    apply sweeps_for_range; [done | | intros c Hc'].
    { repeat apply Z.mul_nonneg_nonneg; lia. }
    pose proof (flat_index_bounds b c batch channels Hb' Hc') as H1.
    apply (sweeps_val_ext _ _ _
             (λ off acc,
                if decide (((b * channels + c) * PH + pad_top) * PW ≤ off
                           < ((b * channels + c) * PH + pad_top) * PW
                             + height * PW)
                then val off acc else Some acc)).
    { intros off acc Hoff. case_decide as Hrows; [done |].
      assert (Hblock : ∃ r s, 0 ≤ r < PH ∧ 0 ≤ s < PW
                              ∧ off = ((b * channels + c) * PH + r) * PW + s).
      { exists ((off - (b * channels + c) * PH * PW) `div` PW),
          ((off - (b * channels + c) * PH * PW) `mod` PW).
        assert (0 < PW) by (destruct (decide (PW = 0)) as [E|]; [| lia];
                            rewrite E, !Z.mul_0_r in Hoff; lia).
        pose proof (Z.div_mod (off - (b * channels + c) * PH * PW) PW
                      ltac:(lia)) as E.
        pose proof (Z.mod_pos_bound
                      (off - (b * channels + c) * PH * PW) PW ltac:(lia)).
        assert (0 ≤ (off - (b * channels + c) * PH * PW) `div` PW)
          by (apply Z.div_pos; lia).
        assert ((off - (b * channels + c) * PH * PW) `div` PW < PH)
          by (apply Z.div_lt_upper_bound; lia).
        repeat (split; [lia |]). lia. }
      destruct Hblock as (r & s & Hr & Hs & ->).
      rewrite Hdecode by done. case_decide as Hregion; [| done].
      exfalso. apply Hrows.
      assert (pad_top * PW ≤ r * PW)
        by (apply Z.mul_le_mono_nonneg_r; lia).
      assert ((r + 1) * PW ≤ (pad_top + height) * PW)
        by (apply Z.mul_le_mono_nonneg_r; lia).
      lia. }
    apply sweeps_widen.
    { assert (0 ≤ pad_top * PW) by (apply Z.mul_nonneg_nonneg; lia). lia. }
    { assert ((pad_top + height) * PW ≤ PH * PW)
        by (apply Z.mul_le_mono_nonneg_r; lia).
      lia. }
    apply sweeps_for_range; [done | lia | intros h Hh'].
    pose proof (flat_index_bounds _ h _ height H1 Hh') as G2.
    apply (sweeps_val_ext _ _ _
             (λ off acc,
                if decide (((b * channels + c) * PH + (h + pad_top)) * PW
                           + pad_left ≤ off
                           < ((b * channels + c) * PH + (h + pad_top)) * PW
                             + pad_left + width)
                then load (data input)
                       (((b * channels + c) * height + h) * width
                        + (off - (((b * channels + c) * PH + (h + pad_top))
                                  * PW + pad_left)))
                else Some acc)).
    { intros off acc Hoff.
      assert (Hcol : ∃ s, 0 ≤ s < PW
                ∧ off = ((b * channels + c) * PH + (h + pad_top)) * PW + s).
      { exists (off - ((b * channels + c) * PH + (h + pad_top)) * PW).
        lia. }
      destruct Hcol as (s & Hs & ->).
      rewrite Hdecode by lia.
      case_decide as Hcopy; case_decide as Hregion;
        [f_equal; ring | exfalso; lia | exfalso; lia | done]. }
    apply (sweeps_at _
             (((b * channels + c) * PH + (h + pad_top)) * PW) _ PW PW);
      [ring | done |].
    apply (sweeps_widen
             (λ dst, memcpy dst
                       (((b * channels + c) * PH + (h + pad_top)) * PW
                        + pad_left)
                       (data input)
                       (((b * channels + c) * height + h) * width) width)
             (((b * channels + c) * PH + (h + pad_top)) * PW + pad_left)
             width _ PW
             (λ off _, load (data input)
                         (((b * channels + c) * height + h) * width
                          + (off - (((b * channels + c) * PH
                                     + (h + pad_top)) * PW + pad_left)))));
      [lia | unfold PW; lia |].
    apply sweeps_memcpy; [done | lia |].
    assert ((((b * channels + c) * height + h) + 1) * width
            ≤ batch * channels * height * width).
    { replace (batch * channels * height * width)
        with ((batch * channels * height) * width) by ring.
      apply Z.mul_le_mono_nonneg_r; lia. }
    lia. }
  destruct (Hsweep zeros) as (d & -> & Hd & Hcells & _); [done | lia |].
  cbn. eexists. split; [reflexivity |]. cbn [shape data].
  split; [lia |].
  intros b c r s Hb' Hc' Hr Hs.
  pose proof (flat_index_bounds b c batch channels Hb' Hc') as H1.
  pose proof (flat_index_bounds _ r _ PH H1 Hr) as H2.
  pose proof (flat_index_bounds _ s _ PW H2 Hs) as H3.
  destruct (Hcells (((b * channels + c) * PH + r) * PW + s)) as [_ ->];
    [lia |].
  unfold zeros. rewrite load_replicate by lia. cbn.
  rewrite Hdecode by done. done.
Qed.

End PaddedInput.

(** ** Windows and tilings *)

Section Windows.
Context {F : Type} `{HS : Scalar F}.

Lemma for_range_ext {S : Type} (f g : Z → S → option S) n s :
  (∀ j s, 0 ≤ j < n → f j s = g j s) → for_range n f s = for_range n g s.
Proof.
  intros Hfg. apply (for_range_ext_inv (λ _, True)); [done | | done].
  intros j s1 Hj _. by apply Hfg.
Qed.

(** The window sum reads the image through its window only. *)
Lemma conv_cell_ext (image image' filter : list F)
    in_height in_width in_height' in_width' in_channels
    filter_height filter_width stride_h stride_w dilation_h dilation_w
    b m h w acc :
  (∀ c kh kw,
     0 ≤ c < in_channels → 0 ≤ kh < filter_height → 0 ≤ kw < filter_width →
     load image
       (((b * in_channels + c) * in_height
         + (h * stride_h + kh * dilation_h)) * in_width
        + (w * stride_w + kw * dilation_w))
     = load image'
         (((b * in_channels + c) * in_height'
           + (h * stride_h + kh * dilation_h)) * in_width'
          + (w * stride_w + kw * dilation_w))) →
  conv_cell image filter in_height in_width in_channels
    filter_height filter_width stride_h stride_w dilation_h dilation_w
    b m h w acc
  = conv_cell image' filter in_height' in_width' in_channels
      filter_height filter_width stride_h stride_w dilation_h dilation_w
      b m h w acc.
Proof.
  intros Hwindow. unfold conv_cell.
  apply for_range_ext. intros c acc1 Hc.
  apply for_range_ext. intros kh acc2 Hkh.
  apply for_range_ext. intros kw acc3 Hkw.
  cbv zeta. by rewrite Hwindow.
Qed.

End Windows.

Lemma selected_applies kh kw sh sw dh dw ic oc :
  applies (conv_func_strategy (select_flags kh kw sh sw dh dw ic oc))
    kh kw sh sw dh dw ic oc = true.
Proof.
  unfold conv_func_strategy.
  rewrite use_winograd_applies, use_neon_3x3_s1_applies,
    use_neon_3x3_s2_applies, use_neon_1x1_s1_applies.
  repeat match goal with
         | |- context [if applies ?s ?a ?b ?c ?d ?e ?f ?g ?h then _ else _] =>
             destruct (applies s a b c d e f g h) eqn:?
         end; done.
Qed.

(** What every tiling but that of the fused 1x1 strategy guarantees: the
    padding fills the extended input, which holds the naturally padded one;
    the extended output holds the logical one; and the last window of the
    extended output lies inside the extended input. *)
Lemma tiling_facts fl n oc ic ih iw ph pw kh kw sh sw dh dw :
  let oh := output_extent ih ph dh kh sh in
  let ow := output_extent iw pw dw kw sw in
  let t := plan_tiling fl n oc oh ow ic ih iw ph pw in
  applies (conv_func_strategy fl) kh kw sh sw dh dw ic oc = true →
  conv_func_strategy fl ≠ NeonK1x1S1 →
  0 ≤ ih < 2 ^ 29 → 0 ≤ iw < 2 ^ 29 → 0 ≤ ph < 2 ^ 29 → 0 ≤ pw < 2 ^ 29 →
  0 < sh → 0 < sw → 0 < oh → 0 < ow →
  pad_top t = Z.shiftr ph 1 ∧ pad_left t = Z.shiftr pw 1
  ∧ 0 ≤ pad_bottom t ∧ 0 ≤ pad_right t
  ∧ extra_input_height t = ih + pad_top t + pad_bottom t
  ∧ extra_input_width t = iw + pad_left t + pad_right t
  ∧ ih + ph ≤ extra_input_height t ∧ iw + pw ≤ extra_input_width t
  ∧ oh ≤ extra_output_height t ∧ ow ≤ extra_output_width t
  ∧ (extra_output_height t - 1) * sh + (kh - 1) * dh < extra_input_height t
  ∧ (extra_output_width t - 1) * sw + (kw - 1) * dw < extra_input_width t
  ∧ (conv_func_strategy fl = Winograd →
     extra_input_height t - 2 = extra_output_height t
     ∧ extra_input_width t - 2 = extra_output_width t).
Proof.
  intros oh ow t Happ Hnot1x1 Hih Hiw Hph Hpw Hsh Hsw Hoh How.
  pose proof (shiftr_1_bounds ph ltac:(lia)) as Hsph.
  pose proof (shiftr_1_bounds pw ltac:(lia)) as Hspw.
  pose proof (output_extent_window ih ph dh kh sh Hsh) as Hwin_h.
  pose proof (output_extent_window iw pw dw kw sw Hsw) as Hwin_w.
  fold oh in Hwin_h. fold ow in Hwin_w.
  unfold conv_func_strategy in Happ, Hnot1x1 |- *.
  unfold t, plan_tiling.
  destruct (use_winograd fl); [| destruct (use_neon_3x3_s1 fl);
    [| destruct (use_neon_3x3_s2 fl); [| destruct (use_neon_1x1_s1 fl)]]];
    [..| done |];
    cbn [applies] in Happ; try apply bool_decide_eq_true in Happ;
    cbn [pad_top pad_bottom pad_left pad_right extra_input_height
         extra_input_width extra_output_height extra_output_width].
  - (* Winograd *)
    destruct Happ as (-> & -> & -> & -> & -> & -> & _ & _).
    assert (oh = ih + ph - 2) as Eh
      by (unfold oh, output_extent; rewrite Z.div_1_r; lia).
    assert (ow = iw + pw - 2) as Ew
      by (unfold ow, output_extent; rewrite Z.div_1_r; lia).
    destruct (RoundUp_rounds_up oh WINOGRAD_OUT_TILE_SIZE ltac:(lia)
                ltac:(done)) as [_ Hrh].
    destruct (RoundUp_rounds_up ow WINOGRAD_OUT_TILE_SIZE ltac:(lia)
                ltac:(done)) as [_ Hrw].
    change WINOGRAD_OUT_TILE_SIZE with 6 in *.
    rewrite !add_shortfall_exact by lia.
    repeat split; lia.
  - (* fused 3x3, stride 1 *)
    destruct Happ as (-> & -> & -> & -> & -> & ->).
    assert (oh = ih + ph - 2) as Eh
      by (unfold oh, output_extent; rewrite Z.div_1_r; lia).
    assert (ow = iw + pw - 2) as Ew
      by (unfold ow, output_extent; rewrite Z.div_1_r; lia).
    destruct (RoundUp_rounds_up oh 2 ltac:(lia) ltac:(done)) as [_ Hrh].
    destruct (RoundUp_rounds_up ow 4 ltac:(lia) ltac:(done)) as [_ Hrw].
    rewrite !add_shortfall_exact by lia.
    repeat split; (lia || done).
  - (* fused 3x3, stride 2 *)
    destruct Happ as (-> & -> & -> & -> & -> & ->).
    destruct (RoundUp_rounds_up ow 4 ltac:(lia) ltac:(done)) as [_ Hrw].
    assert (2 * oh ≤ ih + ph - 1 ∧ ih + ph - 2 ≤ 2 * oh) as Eh.
    { unfold oh, output_extent.
      pose proof (Z.div_mod (ih + ph - 1 * (3 - 1) - 1) 2 ltac:(lia)).
      pose proof (Z.mod_pos_bound (ih + ph - 1 * (3 - 1) - 1) 2
                    ltac:(lia)). lia. }
    assert (2 * ow ≤ iw + pw - 1 ∧ iw + pw - 2 ≤ 2 * ow) as Ew.
    { unfold ow, output_extent.
      pose proof (Z.div_mod (iw + pw - 1 * (3 - 1) - 1) 2 ltac:(lia)).
      pose proof (Z.mod_pos_bound (iw + pw - 1 * (3 - 1) - 1) 2
                    ltac:(lia)). lia. }
    rewrite !add_shortfall_exact by lia.
    repeat split; (lia || done).
  - (* generic *)
    repeat split; (lia || done).
Qed.

(** ** One call, element by element *)

Section CallCells.
Context {F : Type} `{HS : Scalar F}.
Variable uninit : F.

Lemma bias_and_activation_cells (q : Plan) (self : Conv2dFunctor F)
    (bias : option (Tensor F)) (cropped : list F) :
  0 ≤ batch q → 0 ≤ channels q → 0 ≤ height q → 0 ≤ width q →
  Z.of_nat (length cropped) = batch q * channels q * height q * width q →
  (∀ t, bias = Some t → channels q ≤ Z.of_nat (length (data t))) →
  ∃ out,
    bias_and_activation q self bias cropped
      (batch q * channels q * height q * width q) = Some out
    ∧ length out = length cropped
    ∧ ∀ b m h w,
        0 ≤ b < batch q → 0 ≤ m < channels q →
        0 ≤ h < height q → 0 ≤ w < width q →
        ∃ x biased,
          load cropped (((b * channels q + m) * height q + h) * width q + w)
          = Some x
          ∧ match bias with
            | Some t =>
                ∃ bias_m,
                  load (data t) m = Some bias_m ∧ biased = fadd x bias_m
            | None => biased = x
            end
          ∧ load out (((b * channels q + m) * height q + h) * width q + w)
            = Some (activate (activation_ self) (relux_max_limit_ self)
                      biased).
Proof.
  intros Hb Hc Hh Hw Hlen Hbias. unfold bias_and_activation.
  assert (Hflat : ∀ b m h w,
    ((b * channels q + m) * height q + h) * width q + w
    = (b * channels q + m) * (height q * width q) + (h * width q + w))
    by (intros; ring).
  assert (Hbiased : ∃ biased,
    match bias with
    | Some bias =>
        add_bias (data bias) (batch q) (channels q) (height q) (width q)
          cropped
    | None => Some cropped
    end = Some biased
    ∧ length biased = length cropped
    ∧ ∀ b m h w,
        0 ≤ b < batch q → 0 ≤ m < channels q →
        0 ≤ h < height q → 0 ≤ w < width q →
        ∃ x y,
          load cropped (((b * channels q + m) * height q + h) * width q + w)
          = Some x
          ∧ match bias with
            | Some t =>
                ∃ bias_m, load (data t) m = Some bias_m ∧ y = fadd x bias_m
            | None => y = x
            end
          ∧ load biased (((b * channels q + m) * height q + h) * width q + w)
            = Some y).
  { destruct bias as [t|].
    - destruct (add_bias_spec (data t) cropped (batch q) (channels q)
                  (height q) (width q))
        as (biased & -> & Hlen' & Hpoint);
        [lia | lia | apply Z.mul_nonneg_nonneg; lia
        | rewrite Hlen; ring | by apply Hbias |].
      exists biased. split; [done |]. split; [done |].
      intros b m h w Hb' Hm Hh' Hw'.
      destruct (Hpoint b m (h * width q + w) Hb' Hm
                  (flat_index_bounds h w (height q) (width q) Hh' Hw'))
        as (x & bias_m & Hx & Hbm & Hy).
      exists x, (fadd x bias_m). rewrite Hflat.
      split; [done |]. split; [eauto | done].
    - exists cropped. split; [done |]. split; [done |].
      intros b m h w Hb' Hm Hh' Hw'.
      pose proof (flat_index_bounds b m _ _ Hb' Hm) as H1.
      pose proof (flat_index_bounds _ h _ _ H1 Hh') as H2.
      pose proof (flat_index_bounds _ w _ _ H2 Hw') as H3.
      destruct (load_is_Some cropped
                  (((b * channels q + m) * height q + h) * width q + w))
        as [x Hx]; [lia |].
      exists x, x. done. }
  destruct Hbiased as (biased & -> & Hlen' & Hpoint).
  cbn [mbind option_bind].
  replace (batch q * channels q * height q * width q)
    with (Z.of_nat (length biased)) by lia.
  rewrite DoActivation_spec.
  eexists. split; [reflexivity |]. split; [by rewrite length_fmap |].
  intros b m h w Hb' Hm Hh' Hw'.
  destruct (Hpoint b m h w Hb' Hm Hh' Hw') as (x & y & Hx & Hy & Hload).
  exists x, y. split; [done |]. split; [done |].
  by rewrite load_fmap, Hload.
Qed.

(** With an output of zeros, every strategy but the fused 1x1 one convolves
    as the generic kernel does on the extended extents. *)
Lemma conv_func_on_zeros (q : Plan) (self : Conv2dFunctor F)
    (input_data filter_data pad_input out : list F) (ptr : OutputPtr)
    (m : OutputStore F) k :
  applies (conv_func_strategy (flags q)) (filter_h q) (filter_w q)
    (stride_h q) (stride_w q) (dilation_h q) (dilation_w q)
    (input_channels q) (channels q) = true →
  conv_func_strategy (flags q) ≠ NeonK1x1S1 →
  (conv_func_strategy (flags q) = Winograd →
   extra_input_height (tiling q) - 2 = extra_output_height (tiling q)
   ∧ extra_input_width (tiling q) - 2 = extra_output_width (tiling q)) →
  (is_filter_transformed_ self = true →
   data (transformed_filter_ self) = filter_data) →
  0 < filter_h q < 2 ^ 31 → 0 < filter_w q < 2 ^ 31 →
  0 < stride_h q < 2 ^ 31 → 0 < stride_w q < 2 ^ 31 →
  0 < dilation_h q < 2 ^ 31 → 0 < dilation_w q < 2 ^ 31 →
  deref m ptr = replicate k fzero →
  Conv2dNCHW pad_input filter_data (batch q)
    (extra_input_height (tiling q)) (extra_input_width (tiling q))
    (input_channels q)
    (extra_output_height (tiling q)) (extra_output_width (tiling q))
    (channels q) (filter_h q) (filter_w q) (stride_h q) (stride_w q)
    (dilation_h q) (dilation_w q) (replicate k fzero) = Some out →
  ∃ self',
    conv_func q self input_data filter_data pad_input ptr m
    = Some (self', assign m ptr out).
Proof.
  intros Happ Hnot1x1 Hwino Hcache Hkh Hkw Hsh Hsw Hdh Hdw Hzeros Hconv.
  unfold conv_func. rewrite Hzeros.
  destruct (conv_func_strategy (flags q)) eqn:Hstrategy;
    cbn [applies] in Happ; try apply bool_decide_eq_true in Happ.
  - destruct Happ as (Ekh & Ekw & Esh & Esw & Edh & Edw & _ & _).
    destruct (Hwino eq_refl) as [Eoh Eow].
    rewrite Ekh, Ekw, Esh, Esw, Edh, Edw in Hconv.
    unfold WinoGradConv3x3s1. rewrite Eoh, Eow, zero_region_zeros.
    assert ((if is_filter_transformed_ self
             then data (transformed_filter_ self)
             else TransformFilter filter_data) = filter_data) as ->.
    { destruct (is_filter_transformed_ self); [by apply Hcache | done]. }
    rewrite Hconv. cbn. eauto.
  - destruct Happ as (Ekh & Ekw & Esh & Esw & Edh & Edw).
    rewrite Ekh, Ekw, Esh, Esw, Edh, Edw in Hconv.
    unfold Conv2dNeonK3x3S1. rewrite zero_region_zeros, Hconv. cbn. eauto.
  - destruct Happ as (Ekh & Ekw & Esh & Esw & Edh & Edw).
    rewrite Ekh, Ekw, Esh, Esw, Edh, Edw in Hconv.
    unfold Conv2dNeonK3x3S2. rewrite zero_region_zeros, Hconv. cbn. eauto.
  - done.
  - rewrite !to_int_small by lia. rewrite Hconv. cbn. eauto.
Qed.

(** A call on a cleared output, for every strategy but the fused 1x1 one:
    it succeeds, the buffer handed to the kernel is the padded image on the
    extended extents, and each output element is the window sum over that
    buffer, with the bias added and the activation applied. *)
Lemma execute_cells (q : Plan) (self : Conv2dFunctor F)
    (input filter : Tensor F) (bias : option (Tensor F)) (output : Tensor F) :
  shape input
  = [batch q; input_channels q; input_height q; input_width q] →
  Z.of_nat (length (data input))
  = batch q * input_channels q * input_height q * input_width q →
  Z.of_nat (length (data filter))
  = channels q * input_channels q * filter_h q * filter_w q →
  (∀ t, bias = Some t → channels q ≤ Z.of_nat (length (data t))) →
  height q
  = output_extent (input_height q) (fst (paddings q)) (dilation_h q)
      (filter_h q) (stride_h q) →
  width q
  = output_extent (input_width q) (snd (paddings q)) (dilation_w q)
      (filter_w q) (stride_w q) →
  tiling q
  = plan_tiling (flags q) (batch q) (channels q) (height q) (width q)
      (input_channels q) (input_height q) (input_width q)
      (fst (paddings q)) (snd (paddings q)) →
  applies (conv_func_strategy (flags q)) (filter_h q) (filter_w q)
    (stride_h q) (stride_w q) (dilation_h q) (dilation_w q)
    (input_channels q) (channels q) = true →
  conv_func_strategy (flags q) ≠ NeonK1x1S1 →
  (is_filter_transformed_ self = true →
   data (transformed_filter_ self) = data filter) →
  0 ≤ batch q → 0 ≤ input_channels q → 0 ≤ channels q →
  0 ≤ input_height q < 2 ^ 29 → 0 ≤ input_width q < 2 ^ 29 →
  0 ≤ fst (paddings q) < 2 ^ 29 → 0 ≤ snd (paddings q) < 2 ^ 29 →
  0 < filter_h q < 2 ^ 31 → 0 < filter_w q < 2 ^ 31 →
  0 < stride_h q < 2 ^ 31 → 0 < stride_w q < 2 ^ 31 →
  0 < dilation_h q < 2 ^ 31 → 0 < dilation_w q < 2 ^ 31 →
  0 < height q → 0 < width q →
  shape output = [batch q; channels q; height q; width q] →
  data output
  = replicate (Z.to_nat (batch q * channels q * height q * width q)) fzero →
  ∃ self' out pad_input,
    execute uninit q self input filter bias output = Some (self', out)
    ∧ shape out = shape output
    ∧ Z.of_nat (length (data out))
      = batch q * channels q * height q * width q
    ∧ (∀ b c r s,
         0 ≤ b < batch q → 0 ≤ c < input_channels q →
         0 ≤ r < extra_input_height (tiling q) →
         0 ≤ s < extra_input_width (tiling q) →
         load pad_input
           (((b * input_channels q + c) * extra_input_height (tiling q) + r)
            * extra_input_width (tiling q) + s)
         = padded_pixel (data input) (input_channels q) (input_height q)
             (input_width q) (Z.shiftr (fst (paddings q)) 1)
             (Z.shiftr (snd (paddings q)) 1) b c r s)
    ∧ ∀ b m h w,
        0 ≤ b < batch q → 0 ≤ m < channels q →
        0 ≤ h < height q → 0 ≤ w < width q →
        ∃ acc biased,
          conv_cell pad_input (data filter)
            (extra_input_height (tiling q)) (extra_input_width (tiling q))
            (input_channels q) (filter_h q) (filter_w q)
            (stride_h q) (stride_w q) (dilation_h q) (dilation_w q)
            b m h w fzero = Some acc
          ∧ match bias with
            | Some t =>
                ∃ bias_m,
                  load (data t) m = Some bias_m ∧ biased = fadd acc bias_m
            | None => biased = acc
            end
          ∧ load (data out)
              (((b * channels q + m) * height q + h) * width q + w)
            = Some (activate (activation_ self) (relux_max_limit_ self)
                      biased).
Proof.
  intros Hin Hinlen Hfilterlen Hbias Hheight Hwidth Htiling Happ Hnot1x1
    Hcache Hn Hic Hoc Hih Hiw Hph Hpw Hkh Hkw Hsh Hsw Hdh Hdw Hoh How
    Hshape Hzeros.
  pose proof (tiling_facts (flags q) (batch q) (channels q)
                (input_channels q) (input_height q) (input_width q)
                (fst (paddings q)) (snd (paddings q))
                (filter_h q) (filter_w q) (stride_h q) (stride_w q)
                (dilation_h q) (dilation_w q)) as Hfacts.
  cbv zeta in Hfacts. rewrite <- Hheight, <- Hwidth, <- Htiling in Hfacts.
  destruct Hfacts
    as (Hpt & Hpl & Hpb & Hpr & Heih & Heiw & Hnat_h & Hnat_w & Heoh & Heow
        & Hwin_h & Hwin_w & Hwino); [done | done | lia..|].
  clear Htiling. set (t := tiling q) in *.
  pose proof (shiftr_1_bounds (fst (paddings q)) ltac:(lia)) as Hsph.
  pose proof (shiftr_1_bounds (snd (paddings q)) ltac:(lia)) as Hspw.
  unfold execute. destruct (init_scratch _ _) as [scratch views].
  (* the input handed to the kernel *)
  assert (Hprep : ∃ pad_input,
    prepare_input uninit q input (scratch_tensor (padded_input_view views))
    = Some pad_input
    ∧ Z.of_nat (length (data pad_input))
      = batch q * input_channels q * extra_input_height t
        * extra_input_width t
    ∧ ∀ b c r s,
        0 ≤ b < batch q → 0 ≤ c < input_channels q →
        0 ≤ r < extra_input_height t → 0 ≤ s < extra_input_width t →
        load (data pad_input)
          (((b * input_channels q + c) * extra_input_height t + r)
           * extra_input_width t + s)
        = padded_pixel (data input) (input_channels q) (input_height q)
            (input_width q) (Z.shiftr (fst (paddings q)) 1)
            (Z.shiftr (snd (paddings q)) 1) b c r s).
  { unfold prepare_input. fold t.
    destruct (needs_padded_input t (input_height q) (input_width q))
      eqn:Hneed.
    - destruct (padder_spec uninit input
                  (Clear (scratch_tensor (padded_input_view views)))
                  (batch q) (input_channels q) (input_height q)
                  (input_width q) (pad_top t) (pad_bottom t) (pad_left t)
                  (pad_right t))
        as (result & -> & Hlen & Hpixels); [done || lia ..|].
      rewrite <- Heih, <- Heiw in Hlen, Hpixels.
      rewrite Hpt, Hpl in Hpixels.
      exists result. done.
    - apply bool_decide_eq_false in Hneed.
      assert (extra_input_height t = input_height q
              ∧ extra_input_width t = input_width q) as [Eh Ew] by lia.
      exists input. split; [done |]. rewrite Eh, Ew. split; [done |].
      intros b c r s Hb' Hc' Hr Hs.
      assert (fst (paddings q) = 0 ∧ snd (paddings q) = 0) as [-> ->]
        by lia.
      change (Z.shiftr 0 1) with 0. unfold padded_pixel.
      rewrite decide_True by lia. by rewrite !Z.sub_0_r. }
  destruct Hprep as (pad_input & -> & Hpadlen & Hpixels).
  cbn [mbind option_bind].
  (* the kernel on the extended extents *)
  set (zeros_ext :=
    replicate (Z.to_nat (batch q * channels q * extra_output_height t
                         * extra_output_width t)) (fzero : F)).
  assert (Hcount_ext : 0 ≤ batch q * channels q * extra_output_height t
                           * extra_output_width t)
    by (repeat apply Z.mul_nonneg_nonneg; lia).
  assert (Hcount : 0 ≤ batch q * channels q * height q * width q)
    by (repeat apply Z.mul_nonneg_nonneg; lia).
  destruct (Conv2dNCHW_element_spec (data pad_input) (data filter) zeros_ext
              (batch q) (extra_input_height t) (extra_input_width t)
              (input_channels q) (extra_output_height t)
              (extra_output_width t) (channels q) (filter_h q) (filter_w q)
              (stride_h q) (stride_w q) (dilation_h q) (dilation_w q))
    as (convolved & Hconv & Hconvlen & Hconvcells);
    [lia.. | done | done | unfold zeros_ext; rewrite length_replicate; lia |].
  assert (Hconvlen' : Z.of_nat (length convolved)
                      = batch q * channels q * extra_output_height t
                        * extra_output_width t).
  { rewrite Hconvlen. unfold zeros_ext. rewrite length_replicate. lia. }
  assert (Hstage : ∃ self2 cropped,
    (let '(pad_output, m) :=
       prepare_output uninit q output
         (scratch_tensor (padded_output_view views)) in
     '(self, m) ←
       conv_func q
         (with_scratch self scratch
            (if use_winograd (flags q) && negb (is_filter_transformed_ self)
             then Resize uninit (transformed_filter_ self)
                    (transformed_filter_shape t)
             else transformed_filter_ self))
         (data input) (data filter) (data pad_input) pad_output m;
     output_data ← post_process q self bias pad_output m (size output);
     Some (self, {| shape := shape output; data := output_data |}))
    = (output_data ←
         bias_and_activation q self2 bias cropped (size output);
       Some (self2, {| shape := shape output; data := output_data |}))
    ∧ activation_ self2 = activation_ self
    ∧ relux_max_limit_ self2 = relux_max_limit_ self
    ∧ Z.of_nat (length cropped)
      = batch q * channels q * height q * width q
    ∧ ∀ b m h w,
        0 ≤ b < batch q → 0 ≤ m < channels q →
        0 ≤ h < height q → 0 ≤ w < width q →
        load cropped (((b * channels q + m) * height q + h) * width q + w)
        = load convolved
            (((b * channels q + m) * extra_output_height t + h)
             * extra_output_width t + w)).
  { set (self1 := with_scratch self scratch _).
    assert (Hcache1 : is_filter_transformed_ self1 = true →
                      data (transformed_filter_ self1) = data filter).
    { unfold self1. cbn [is_filter_transformed_ transformed_filter_
                         with_scratch].
      intros Hflag. rewrite Hflag, andb_false_r. by apply Hcache. }
    unfold prepare_output. fold t.
    destruct (needs_padded_output t (height q) (width q)) eqn:Hneed.
    - rewrite Clear_Resize_zeros. cbn [data].
      replace (num_elements [batch q; channels q; extra_output_height t;
                             extra_output_width t])
        with (batch q * channels q * extra_output_height t
              * extra_output_width t) by (cbn [num_elements foldr]; ring).
      fold zeros_ext.
      destruct (conv_func_on_zeros q self1 (data input) (data filter)
                  (data pad_input) convolved to_padded_output
                  {| output_data := data output;
                     padded_output_data := zeros_ext |}
                  (Z.to_nat (batch q * channels q * extra_output_height t
                             * extra_output_width t)))
        as (self2 & Hrun); [done.. |].
      rewrite Hrun. cbn [mbind option_bind assign output_data
                          padded_output_data].
      unfold post_process, crop_output. fold t. rewrite Hneed.
      cbn [deref output_data padded_output_data].
      destruct (unpack_output_spec convolved (data output)
                  (batch q) (channels q) (height q) (width q)
                  (extra_output_height t) (extra_output_width t))
        as (cropped & -> & Hcroplen & Hcrop);
        [lia.. | done | rewrite Hzeros, length_replicate; lia |].
      cbn [mbind option_bind].
      exists self2, cropped.
      split; [done |].
      apply conv_func_state in Hrun as [[_ ->] | [_ ->]];
        (split; [done |]); (split; [done |]);
        (split; [rewrite Hcroplen, Hzeros, length_replicate; lia |]);
        intros b m h w Hb' Hm Hh Hw;
        destruct (Hcrop b m h w Hb' Hm Hh Hw) as (x & -> & ->); done.
    - pose proof Hneed as Hdirect. apply bool_decide_eq_false in Hneed.
      assert (extra_output_height t = height q
              ∧ extra_output_width t = width q) as [Eh Ew] by lia.
      destruct (conv_func_on_zeros q self1 (data input) (data filter)
                  (data pad_input) convolved to_output
                  {| output_data := data output;
                     padded_output_data :=
                       data (scratch_tensor (padded_output_view views)) |}
                  (Z.to_nat (batch q * channels q * extra_output_height t
                             * extra_output_width t)))
        as (self2 & Hrun); [done.. | by rewrite Eh, Ew | done |].
      rewrite Hrun. cbn [mbind option_bind assign output_data
                          padded_output_data].
      unfold post_process, crop_output. fold t.
      rewrite Hdirect.
      cbn [mbind option_bind output_data].
      exists self2, convolved.
      split; [done |].
      apply conv_func_state in Hrun as [[_ ->] | [_ ->]];
        (split; [done |]); (split; [done |]);
        (split; [rewrite Hconvlen', Eh, Ew; done |]);
        intros b m h w Hb' Hm Hh Hw; by rewrite Eh, Ew. }
  fold t.
  destruct Hstage as (self2 & cropped & -> & Hact & Hlimit & Hcroplen
                      & Hcrop).
  replace (size output)
    with (batch q * channels q * height q * width q)
    by (unfold size; rewrite Hshape; cbn [num_elements foldr]; ring).
  destruct (bias_and_activation_cells q self2 bias cropped)
    as (out_data & -> & Houtlen & Hout); [lia.. | done | done |].
  cbn [mbind option_bind].
  exists self2, {| shape := shape output; data := out_data |},
    (data pad_input).
  split; [done |]. cbn [shape data]. split; [done |].
  split; [lia |]. split; [done |].
  intros b m h w Hb' Hm Hh Hw.
  destruct (Hconvcells b m h w Hb' Hm ltac:(lia) ltac:(lia))
    as (acc0 & acc & Hacc0 & Hcell & Hload).
  apply load_replicate_inv in Hacc0 as ->.
  destruct (Hout b m h w Hb' Hm Hh Hw) as (x & biased & Hx & Hbiased & Hy).
  rewrite Hcrop, Hload in Hx by done. injection Hx as <-.
  exists acc, biased. rewrite <- Hact, <- Hlimit. done.
Qed.

End CallCells.

(** ** Agreement with the generic strategy *)

Section Agreement.
Context {F : Type} `{HS : Scalar F}.
Variable uninit : F.

(** X19: whatever strategy but the fused 1x1 one the flags select, the call
    gives the output tensor that the same call gives with the generic
    strategy in its place. The fused kernels and the padder are taken by
    their contracts; what is proved is that the extended extents, the extra
    bottom and right padding, the oversized output buffer and its cropping
    change nothing of the result. For the Winograd strategy the cache, if it
    is marked as filled, has to hold the filter of the call. *)
Theorem fast_strategies_match_reference (self : Conv2dFunctor F)
    (input filter : Tensor F) (bias : option (Tensor F)) (output : Tensor F)
    n ic ih iw oc kh kw ph pw :
  shape input = [n; ic; ih; iw] →
  Z.of_nat (length (data input)) = n * ic * ih * iw →
  shape filter = [oc; ic; kh; kw] →
  Z.of_nat (length (data filter)) = oc * ic * kh * kw →
  (∀ t, bias = Some t → oc ≤ Z.of_nat (length (data t))) →
  resolved_padding (paddings_ self) (padding_type_ self) (dilations_ self)
    kh kw = Some (ph, pw) →
  conv_func_strategy
    (select_flags kh kw (fst (strides_ self)) (snd (strides_ self))
       (fst (dilations_ self)) (snd (dilations_ self)) ic oc)
  ≠ NeonK1x1S1 →
  (is_filter_transformed_ self = true →
   data (transformed_filter_ self) = data filter) →
  0 ≤ n → 0 ≤ ic → 0 ≤ oc →
  0 ≤ ih < 2 ^ 29 → 0 ≤ iw < 2 ^ 29 → 0 ≤ ph < 2 ^ 29 → 0 ≤ pw < 2 ^ 29 →
  0 < kh < 2 ^ 31 → 0 < kw < 2 ^ 31 →
  0 < fst (strides_ self) < 2 ^ 31 → 0 < snd (strides_ self) < 2 ^ 31 →
  0 < fst (dilations_ self) < 2 ^ 31 → 0 < snd (dilations_ self) < 2 ^ 31 →
  0 < output_extent ih ph (fst (dilations_ self)) kh (fst (strides_ self)) →
  0 < output_extent iw pw (snd (dilations_ self)) kw (snd (strides_ self)) →
  ∃ self1 self2 out,
    Conv2dFunctor_operator uninit self input filter bias output
    = Some (self1, out)
    ∧ reference_operator uninit self input filter bias output
      = Some (self2, out)
    ∧ shape out
      = [n; oc;
         output_extent ih ph (fst (dilations_ self)) kh (fst (strides_ self));
         output_extent iw pw (snd (dilations_ self)) kw
           (snd (strides_ self))].
Proof.
  intros Hin Hinlen Hfilter Hfilterlen Hbias Hpad Hnot1x1 Hcache
    Hn Hic Hoc Hih Hiw Hph Hpw Hkh Hkw Hsh Hsw Hdh Hdw Hoh How.
  set (sh := fst (strides_ self)) in *. set (sw := snd (strides_ self)) in *.
  set (dh := fst (dilations_ self)) in *.
  set (dw := snd (dilations_ self)) in *.
  set (oh := output_extent ih ph dh kh sh) in *.
  set (ow := output_extent iw pw dw kw sw) in *.
  unfold Conv2dFunctor_operator, reference_operator.
  rewrite Hin, Hfilter.
  rewrite (plan_resolved _ _ _ _ n ic ih iw oc kh kw ph pw Hpad Hoh How).
  cbn [mbind option_bind].
  set (p := planned _ _ _ _ _ _ _ _ _ _ _).
  rewrite Clear_Resize_zeros.
  change (output_shape p) with [n; oc; oh; ow].
  replace (num_elements [n; oc; oh; ow]) with (n * oc * oh * ow)
    by (cbn [num_elements foldr]; ring).
  set (cleared := {| shape := [n; oc; oh; ow];
                     data := replicate (Z.to_nat (n * oc * oh * ow)) fzero |}).
  destruct (execute_cells uninit p self input filter bias cleared)
    as (self1 & [shape1 data1] & pad1 & -> & Hshape1 & Hlen1 & Hpix1
        & Hcells1);
    [done | done | done | done | done | done | done
    | apply selected_applies | done | done | done..|].
  destruct (execute_cells uninit (force_generic p) self input filter bias
              cleared)
    as (self2 & [shape2 data2] & pad2 & -> & Hshape2 & Hlen2 & Hpix2
        & Hcells2); [done..|].
  cbn [shape data] in *.
  pose proof (tiling_facts (flags p) n oc ic ih iw ph pw kh kw sh sw dh dw
                (selected_applies kh kw sh sw dh dw ic oc) Hnot1x1
                ltac:(lia) ltac:(lia) ltac:(lia) ltac:(lia) ltac:(lia)
                ltac:(lia) Hoh How)
    as (_ & _ & _ & _ & _ & _ & Hnat_h1 & Hnat_w1 & _).
  pose proof (tiling_facts (flags (force_generic p)) n oc ic ih iw ph pw
                kh kw sh sw dh dw eq_refl ltac:(done)
                ltac:(lia) ltac:(lia) ltac:(lia) ltac:(lia) ltac:(lia)
                ltac:(lia) Hoh How)
    as (_ & _ & _ & _ & _ & _ & Hnat_h2 & Hnat_w2 & _).
  assert (Hnat1 : ih + ph ≤ extra_input_height (tiling p)
                  ∧ iw + pw ≤ extra_input_width (tiling p))
    by exact (conj Hnat_h1 Hnat_w1).
  assert (Hnat2 : ih + ph ≤ extra_input_height (tiling (force_generic p))
                  ∧ iw + pw ≤ extra_input_width (tiling (force_generic p)))
    by exact (conj Hnat_h2 Hnat_w2).
  clear Hnat_h1 Hnat_w1 Hnat_h2 Hnat_w2.
  change (batch p) with n in *. change (channels p) with oc in *.
  change (height p) with oh in *. change (width p) with ow in *.
  change (input_channels p) with ic in *.
  change (input_height p) with ih in *. change (input_width p) with iw in *.
  change (filter_h p) with kh in *. change (filter_w p) with kw in *.
  change (stride_h p) with sh in *. change (stride_w p) with sw in *.
  change (dilation_h p) with dh in *. change (dilation_w p) with dw in *.
  change (batch (force_generic p)) with n in *.
  change (channels (force_generic p)) with oc in *.
  change (height (force_generic p)) with oh in *.
  change (width (force_generic p)) with ow in *.
  change (input_channels (force_generic p)) with ic in *.
  change (input_height (force_generic p)) with ih in *.
  change (input_width (force_generic p)) with iw in *.
  change (filter_h (force_generic p)) with kh in *.
  change (filter_w (force_generic p)) with kw in *.
  change (stride_h (force_generic p)) with sh in *.
  change (stride_w (force_generic p)) with sw in *.
  change (dilation_h (force_generic p)) with dh in *.
  change (dilation_w (force_generic p)) with dw in *.
  change (fst (paddings p)) with ph in *.
  change (snd (paddings p)) with pw in *.
  change (fst (paddings (force_generic p))) with ph in *.
  change (snd (paddings (force_generic p))) with pw in *.
  set (t1 := tiling p) in *. set (t2 := tiling (force_generic p)) in *.
  pose proof (output_extent_window ih ph dh kh sh ltac:(lia)) as Hwin_h.
  pose proof (output_extent_window iw pw dw kw sw ltac:(lia)) as Hwin_w.
  fold oh in Hwin_h. fold ow in Hwin_w.
  assert (Hsame : data1 = data2).
  { apply buffer_eq; [lia |]. intros off.
    destruct (decide (0 ≤ off < n * oc * oh * ow)) as [Hoff | Hoff].
    - destruct (decide (oc = 0)) as [-> | Hoc'].
      { replace (n * 0 * oh * ow) with 0 in Hoff by ring. lia. }
      destruct (flat_decode4 n oc oh ow off)
        as (b & m & h & w & Hb & Hm & Hh & Hw & ->); [lia.. | done |].
      destruct (Hcells1 b m h w Hb Hm Hh Hw)
        as (acc1 & biased1 & Hacc1 & Hbiased1 & ->).
      destruct (Hcells2 b m h w Hb Hm Hh Hw)
        as (acc2 & biased2 & Hacc2 & Hbiased2 & ->).
      assert (acc1 = acc2) as ->.
      { assert (Some acc1 = Some acc2) as [= ->]; [| done].
        rewrite <- Hacc1, <- Hacc2. apply conv_cell_ext.
        intros c r s Hc Hr Hs.
        assert (0 ≤ h * sh + r * dh < ih + ph).
        { assert (0 ≤ h * sh) by (apply Z.mul_nonneg_nonneg; lia).
          assert (0 ≤ r * dh) by (apply Z.mul_nonneg_nonneg; lia).
          assert (h * sh ≤ (oh - 1) * sh)
            by (apply Z.mul_le_mono_nonneg_r; lia).
          assert (r * dh ≤ (kh - 1) * dh)
            by (apply Z.mul_le_mono_nonneg_r; lia).
          lia. }
        assert (0 ≤ w * sw + s * dw < iw + pw).
        { assert (0 ≤ w * sw) by (apply Z.mul_nonneg_nonneg; lia).
          assert (0 ≤ s * dw) by (apply Z.mul_nonneg_nonneg; lia).
          assert (w * sw ≤ (ow - 1) * sw)
            by (apply Z.mul_le_mono_nonneg_r; lia).
          assert (s * dw ≤ (kw - 1) * dw)
            by (apply Z.mul_le_mono_nonneg_r; lia).
          lia. }
        rewrite Hpix1, Hpix2 by lia. done. }
      f_equal. f_equal.
      destruct bias as [t|].
      + destruct Hbiased1 as (bias1 & Hload1 & ->).
        destruct Hbiased2 as (bias2 & Hload2 & ->). congruence.
      + congruence.
    - unfold load. case_decide; [| done].
      rewrite !lookup_ge_None_2 by lia. done. }
  subst data2. cbn [shape] in Hshape1, Hshape2. subst shape1 shape2.
  eexists _, _, _. split; [reflexivity |]. split; [reflexivity |]. done.
Qed.

End Agreement.

(** ** Concrete instances of the further properties *)

Lemma Conv2dNCHW_each_element_witness :
  ∃ output',
    Conv2dNCHW [1; 2; 3; 4; 5; 6; 7; 8; 9] [1; 0; 0; 2] 1 3 3 1 2 2 1 2 2
      1 1 1 1 [10; 20; 30; 40] = Some output'
    ∧ length output' = 4%nat
    ∧ ∀ b m h w,
        0 ≤ b < 1 → 0 ≤ m < 1 → 0 ≤ h < 2 → 0 ≤ w < 2 →
        ∃ acc acc',
          load [10; 20; 30; 40] (((b * 1 + m) * 2 + h) * 2 + w) = Some acc
          ∧ conv_cell [1; 2; 3; 4; 5; 6; 7; 8; 9] [1; 0; 0; 2] 3 3 1 2 2
              1 1 1 1 b m h w acc = Some acc'
          ∧ load output' (((b * 1 + m) * 2 + h) * 2 + w) = Some acc'.
Proof.
  apply (Conv2dNCHW_each_element [1; 2; 3; 4; 5; 6; 7; 8; 9] [1; 0; 0; 2]
           [10; 20; 30; 40] 1 3 3 1 2 2 1 2 2 1 1 1 1);
    (lia || reflexivity).
Defined.

Lemma unpack_output_crops_witness :
  ∃ cropped,
    unpack_output [1; 2; 3; 4; 5; 6; 7; 8; 9; 10; 11; 12] 1 1 2 3 3 4
      [0; 0; 0; 0; 0; 0] = Some cropped
    ∧ length cropped = 6%nat
    ∧ ∀ b c h w,
        0 ≤ b < 1 → 0 ≤ c < 1 → 0 ≤ h < 2 → 0 ≤ w < 3 →
        ∃ x,
          load [1; 2; 3; 4; 5; 6; 7; 8; 9; 10; 11; 12]
            (((b * 1 + c) * 3 + h) * 4 + w) = Some x
          ∧ load cropped (((b * 1 + c) * 2 + h) * 3 + w) = Some x.
Proof.
  apply (unpack_output_crops [1; 2; 3; 4; 5; 6; 7; 8; 9; 10; 11; 12]
           [0; 0; 0; 0; 0; 0] 1 1 2 3 3 4);
    (lia || reflexivity).
Defined.

Lemma call_keeps_configuration_witness :
  ∃ self' out,
    Conv2dFunctor_operator 0 (fresh_functor (1, 1) VALID [] (2, 2) RELUX 6)
      (filled [1; 2; 5; 5] 1) (filled [2; 2; 2; 2] 1) None (filled [3] 9)
    = Some (self', out)
    ∧ strides_ self' = (1, 1)
    ∧ padding_type_ self' = VALID
    ∧ dilations_ self' = (2, 2)
    ∧ activation_ self' = RELUX
    ∧ relux_max_limit_ self' = 6
    ∧ offset_ (scratch_ self') ≤ size_ (scratch_ self').
Proof.
  assert (∃ r, Conv2dFunctor_operator 0
                 (fresh_functor (1, 1) VALID [] (2, 2) RELUX 6)
                 (filled [1; 2; 5; 5] 1) (filled [2; 2; 2; 2] 1) None
                 (filled [3] 9) = Some r) as [[self' out] Hop].
  { vm_compute. eexists. reflexivity. }
  pose proof (call_keeps_configuration 0 _ _ _ _ _ _ _ Hop) as Hkeeps.
  destruct Hkeeps
    as (p & _ & Hs & Hpt & _ & Hd & Ha & Hl & Hoffset & Hsize & Hle).
  exists self', out.
  split; [exact Hop |]. split; [exact Hs |]. split; [exact Hpt |].
  split; [exact Hd |]. split; [exact Ha |]. split; [exact Hl |].
  rewrite Hoffset, Hsize. lia.
Defined.

Lemma call_and_filter_cache_witness :
  ∃ self' out,
    Conv2dFunctor_operator 0 (fresh_functor (1, 1) SAME [] (1, 1) NOOP 0)
      (filled [1; 8; 1; 1] 1) (filled [8; 8; 3; 3] 1) None (filled [] 0)
    = Some (self', out)
    ∧ (filter_transforms self' ≤ 1)%nat.
Proof.
  assert (∃ r, Conv2dFunctor_operator 0
                 (fresh_functor (1, 1) SAME [] (1, 1) NOOP 0)
                 (filled [1; 8; 1; 1] 1) (filled [8; 8; 3; 3] 1) None
                 (filled [] 0) = Some r) as [[self' out] Hop].
  { vm_compute. eexists. reflexivity. }
  pose proof (call_and_filter_cache 0 _ _ _ _ _ _ _ Hop) as Hcache.
  destruct Hcache as (p & _ & _ & _ & _ & _ & Hcount).
  exists self', out. split; [exact Hop | exact Hcount].
Defined.

Lemma generic_call_elementwise_witness :
  ∃ self' out,
    Conv2dFunctor_operator 0 (fresh_functor (1, 1) VALID [] (2, 2) RELUX 6)
      (filled [1; 2; 5; 5] 1) (filled [2; 2; 2; 2] 1)
      (Some {| shape := [2]; data := [-10; 20] |}) (filled [3] 9)
    = Some (self', out)
    ∧ ∃ acc,
        conv_cell (data (filled [1; 2; 5; 5] 1))
          (data (filled [2; 2; 2; 2] 1)) 5 5 2 2 2 1 1 2 2 0 1 2 2 0
        = Some acc
        ∧ load (data out) 17 = Some (activate RELUX 6 (acc + 20)).
Proof.
  pose proof (generic_call_elementwise 0
                (fresh_functor (1, 1) VALID [] (2, 2) RELUX 6)
                (filled [1; 2; 5; 5] 1) (filled [2; 2; 2; 2] 1)
                (Some {| shape := [2]; data := [-10; 20] |}) (filled [3] 9)
                1 2 5 5 2 2 2 0 0
                eq_refl eq_refl eq_refl eq_refl
                ltac:(intros t [= <-]; cbn; lia)
                eq_refl eq_refl
                ltac:(lia) ltac:(lia) ltac:(lia) ltac:(lia) ltac:(lia)
                ltac:(lia) ltac:(lia)
                ltac:(lia) ltac:(lia)
                ltac:(cbn; lia) ltac:(cbn; lia)
                ltac:(cbn; lia) ltac:(cbn; lia)
                ltac:(vm_compute; reflexivity) ltac:(vm_compute; reflexivity))
    as (self' & out & pad_input & Hop & _ & Hsame & Hpoint).
  exists self', out. split; [exact Hop |].
  rewrite (Hsame eq_refl eq_refl) in Hpoint.
  destruct (Hpoint 0 1 2 2 ltac:(lia) ltac:(lia)
              ltac:(vm_compute; split; [discriminate | reflexivity])
              ltac:(vm_compute; split; [discriminate | reflexivity]))
    as (acc & biased & Hacc & (bias_m & Hbias & ->) & Hload).
  exists acc. split; [exact Hacc |].
  injection Hbias as <-. exact Hload.
Defined.

Lemma mismatched_filter_is_rejected_witness :
  Conv2dFunctor_operator 0 (fresh_functor (1, 1) VALID [] (1, 1) NOOP 0)
    (filled [1; 2; 5; 5] 1) (filled [2; 3; 2; 2] 1) None (filled [] 0)
  = None.
Proof.
  apply (mismatched_filter_is_rejected 0). cbn. discriminate.
Defined.

Lemma fused_1x1_matches_reference_without_padding_witness :
  Conv2dFunctor_operator 0 (fresh_functor (1, 1) VALID [] (1, 1) NOOP 0)
    (filled [1; 2; 2; 2] 3) (filled [2; 2; 1; 1] 1) None (filled [] 0)
  = reference_operator 0 (fresh_functor (1, 1) VALID [] (1, 1) NOOP 0)
      (filled [1; 2; 2; 2] 3) (filled [2; 2; 1; 1] 1) None (filled [] 0).
Proof.
  apply (fused_1x1_matches_reference_without_padding 0 _ _ _ _ _ 2 2);
    reflexivity.
Defined.

Lemma fast_strategies_match_reference_witness :
  let self := fresh_functor (1, 1) SAME [] (1, 1) RELU 0 in
  let input :=
    {| shape := [1; 2; 3; 3]; data := Z.of_nat <$> seq 0 18 |} in
  let filter :=
    {| shape := [2; 2; 3; 3]; data := (λ i, Z.of_nat i - 17) <$> seq 0 36 |} in
  let bias := Some {| shape := [2]; data := [5; -5] |} in
  ∃ self1 self2 out,
    Conv2dFunctor_operator 0 self input filter bias (filled [] 0)
    = Some (self1, out)
    ∧ reference_operator 0 self input filter bias (filled [] 0)
      = Some (self2, out)
    ∧ shape out = [1; 2; 3; 3].
Proof.
  intros self input filter bias.
  apply (fast_strategies_match_reference 0 self input filter bias
           (filled [] 0) 1 2 3 3 2 3 3 2 2);
    [reflexivity | reflexivity | reflexivity | reflexivity
    | intros t [= <-]; cbn; lia | reflexivity | discriminate | discriminate
    | lia | lia | lia | lia | lia | lia | lia | lia | lia
    | cbn; lia | cbn; lia | cbn; lia | cbn; lia
    | vm_compute; reflexivity | vm_compute; reflexivity].
Defined.

(** * Properties of the bilinear resize functor *)

(** ** Descending loops and field assignments *)

Lemma loop_down_invariant {S : Type} (P : Z → S → Prop)
    (body : Z → S → option S) n s :
  P (Z.of_nat n) s →
  (∀ i s, 0 ≤ i < Z.of_nat n → P (i + 1) s →
          ∃ s', body i s = Some s' ∧ P i s') →
  ∃ s', loop_down n body s = Some s' ∧ P 0 s'.
Proof.
  revert s. induction n as [|k IH]; intros s Hs Hbody.
  - exists s. done.
  - cbn [loop_down].
    destruct (Hbody (Z.of_nat k) s) as (s1 & -> & Hs1); [lia | |].
    { by replace (Z.of_nat k + 1) with (Z.of_nat (Datatypes.S k)) by lia. }
    cbn. apply IH; [done |]. intros i s2 Hi. apply Hbody. lia.
Qed.

Lemma modify_Some {A : Type} (table : list A) i (f : A → A) e :
  load table i = Some e →
  ∃ table',
    modify table i f = Some table'
    ∧ length table' = length table
    ∧ load table' i = Some (f e)
    ∧ ∀ j, j ≠ i → load table' j = load table j.
Proof.
  intros Hload. pose proof (load_Some_bounds _ _ _ Hload) as Hi.
  destruct (store_is_Some table i (f e) Hi) as [table' Hstore].
  exists table'. unfold modify. rewrite Hload. cbn.
  split; [done |]. split; [by apply store_length in Hstore |]. split.
  - by apply load_store_eq in Hstore.
  - intros j Hj. by apply (load_store_ne _ _ _ _ _ Hstore).
Qed.

Lemma modify_is_Some {A : Type} (table : list A) i (f : A → A) :
  is_Some (modify table i f) ↔ 0 ≤ i < Z.of_nat (length table).
Proof.
  split.
  - intros [table' Hmod]. unfold modify in Hmod.
    apply bind_Some in Hmod as (e & Hload & _).
    by apply load_Some_bounds in Hload.
  - intros Hi. destruct (load_is_Some table i Hi) as [e Hload].
    destruct (modify_Some table i f e Hload) as (table' & -> & _). eauto.
Qed.

(** ** The interpolation tables *)

Section InterpolationTables.
Context {F : Type} `{HS : Scalar F} `{HF : Float F}.
Implicit Types (table : list (CachedInterpolation F)) (scale : F).

Lemma ComputeInterpolationWeights_spec table out_size in_size scale :
  0 ≤ out_size < Z.of_nat (length table) →
  ∃ table',
    ComputeInterpolationWeights out_size in_size scale table = Some table'
    ∧ length table' = length table
    ∧ (∀ i, 0 ≤ i < out_size →
         ∃ e,
           load table' i = Some e
           ∧ lower e = to_index (fmul (of_index i) scale)
           ∧ upper e = Z.min (lower e + 1) (in_size - 1)
           ∧ lerp e = fsub (fmul (of_index i) scale) (of_index (lower e)))
    ∧ (∃ e0 e,
         load table out_size = Some e0
         ∧ load table' out_size = Some e
         ∧ lower e = 0 ∧ upper e = 0 ∧ lerp e = lerp e0)
    ∧ ∀ i, out_size < i → load table' i = load table i.
Proof.
  intros Hsize. unfold ComputeInterpolationWeights.
  destruct (load_is_Some table out_size Hsize) as [e0 He0].
  destruct (modify_Some table out_size (with_lower 0) e0 He0)
    as (table1 & -> & Hlen1 & Hat1 & Hother1).
  cbn [mbind option_bind].
  destruct (modify_Some table1 out_size (with_upper 0) _ Hat1)
    as (table2 & -> & Hlen2 & Hat2 & Hother2).
  cbn [mbind option_bind]. unfold for_down_from.
  replace (out_size - 1 + 1) with out_size by lia.
  destruct (loop_down_invariant
    (λ k t,
       length t = length table
       ∧ (∀ i, k ≤ i < out_size →
            ∃ e,
              load t i = Some e
              ∧ lower e = to_index (fmul (of_index i) scale)
              ∧ upper e = Z.min (lower e + 1) (in_size - 1)
              ∧ lerp e
                = fsub (fmul (of_index i) scale) (of_index (lower e)))
       ∧ ∀ i, out_size ≤ i → load t i = load table2 i)
    (λ i interpolation,
       interpolation ←
         modify interpolation i
           (with_lower (to_index (fmul (of_index i) scale)));
       interpolation ←
         modify interpolation i
           (λ e, with_upper (Z.min (lower e + 1) (in_size - 1)) e);
       modify interpolation i
         (λ e, with_lerp
                 (fsub (fmul (of_index i) scale) (of_index (lower e))) e))
    (Z.to_nat out_size) table2) as (table' & Hloop & Hlen & Hdone & Hrest).
  - rewrite Z2Nat.id by lia. split; [congruence |]. split; [| done].
    intros i Hi. lia.
  - rewrite Z2Nat.id by lia. intros i t Hi (Hlen & Hdone & Hrest).
    destruct (load_is_Some t i) as [e He]; [lia |].
    destruct (modify_Some t i
                (with_lower (to_index (fmul (of_index i) scale))) e He)
      as (ta & -> & Hlena & Hata & Hothera).
    cbn [mbind option_bind].
    destruct (modify_Some ta i
                (λ e, with_upper (Z.min (lower e + 1) (in_size - 1)) e)
                _ Hata)
      as (tb & -> & Hlenb & Hatb & Hotherb).
    cbn [mbind option_bind].
    destruct (modify_Some tb i
                (λ e, with_lerp
                        (fsub (fmul (of_index i) scale)
                           (of_index (lower e))) e)
                _ Hatb)
      as (tc & -> & Hlenc & Hatc & Hotherc).
    exists tc. split; [done |]. split; [congruence |]. split.
    + intros j Hj. destruct (decide (j = i)) as [-> | Hne].
      * eexists. split; [exact Hatc |]. done.
      * rewrite Hotherc, Hotherb, Hothera by done. apply Hdone. lia.
    + intros j Hj. rewrite Hotherc, Hotherb, Hothera by lia.
      apply Hrest. lia.
  - exists table'. split; [exact Hloop |]. split; [done |].
    split; [intros i Hi; apply Hdone; lia |]. split.
    + exists e0. eexists. split; [done |].
      split; [by rewrite Hrest by lia |]. done.
    + intros i Hi. rewrite Hrest, Hother2, Hother1 by lia. done.
Qed.

(** X9: a table of more than [out_size] entries is filled without fault: the
    entry of every output index [i] below [out_size] holds the truncated
    source position [i * scale] as its lower index, the next index capped at
    the last source index as its upper index, and the distance of the source
    position from the lower index as its weight. The entry at [out_size] has
    both indices zero and keeps its weight; entries after it are not
    touched. *)
Theorem interpolation_table_entries table out_size in_size scale :
  0 ≤ out_size < Z.of_nat (length table) →
  ∃ table',
    ComputeInterpolationWeights out_size in_size scale table = Some table'
    ∧ length table' = length table
    ∧ (∀ i, 0 ≤ i < out_size →
         ∃ e,
           load table' i = Some e
           ∧ lower e = to_index (fmul (of_index i) scale)
           ∧ upper e = Z.min (lower e + 1) (in_size - 1)
           ∧ lerp e = fsub (fmul (of_index i) scale) (of_index (lower e)))
    ∧ (∃ e0 e,
         load table out_size = Some e0
         ∧ load table' out_size = Some e
         ∧ lower e = 0 ∧ upper e = 0 ∧ lerp e = lerp e0)
    ∧ ∀ i, out_size < i → load table' i = load table i.
Proof. apply ComputeInterpolationWeights_spec. Qed.

(** X10: the table needs one entry more than there are output indices: the
    computation succeeds exactly on the tables that have an entry at
    [out_size]. *)
Theorem interpolation_table_needs_extra_entry table out_size in_size scale :
  is_Some (ComputeInterpolationWeights out_size in_size scale table)
  ↔ 0 ≤ out_size < Z.of_nat (length table).
Proof.
  split.
  - intros [table' Hrun]. unfold ComputeInterpolationWeights in Hrun.
    apply bind_Some in Hrun as (table1 & Hmod & _).
    apply (modify_is_Some table out_size (with_lower 0)). eauto.
  - intros Hsize.
    destruct (ComputeInterpolationWeights_spec table out_size in_size scale
                Hsize) as (table' & -> & _).
    eauto.
Qed.

End InterpolationTables.

(** ** The kernels *)

Section ResizeKernels.
Context {F T : Type}.
Variable ComputeLerp : T → T → T → T → F → F → T.
Implicit Types (xs ys : list (CachedInterpolation F)) (images output : list T).

(** The four neighbours of an output element in the image of its batch and
    channel, and the value interpolated from them. *)
Lemma ResizeImageNCHW_element_spec images output
    batch in_height in_width out_height out_width channels xs ys :
  0 ≤ batch → 0 ≤ channels → 0 ≤ out_height → 0 ≤ out_width →
  Z.of_nat (length images) = batch * channels * in_height * in_width →
  Z.of_nat (length output) = batch * channels * out_height * out_width →
  (∀ y, 0 ≤ y < out_height →
     ∃ e, load ys y = Some e
          ∧ 0 ≤ lower e < in_height ∧ 0 ≤ upper e < in_height) →
  (∀ x, 0 ≤ x < out_width →
     ∃ e, load xs x = Some e
          ∧ 0 ≤ lower e < in_width ∧ 0 ≤ upper e < in_width) →
  ∃ output',
    ResizeImageNCHW ComputeLerp images batch in_height in_width
      out_height out_width channels xs ys output = Some output'
    ∧ length output' = length output
    ∧ ∀ b c y x,
        0 ≤ b < batch → 0 ≤ c < channels →
        0 ≤ y < out_height → 0 ≤ x < out_width →
        ∃ ey ex top_left top_right bottom_left bottom_right,
          load ys y = Some ey ∧ load xs x = Some ex
          ∧ load images
              (((b * channels + c) * in_height + lower ey) * in_width
               + lower ex) = Some top_left
          ∧ load images
              (((b * channels + c) * in_height + lower ey) * in_width
               + upper ex) = Some top_right
          ∧ load images
              (((b * channels + c) * in_height + upper ey) * in_width
               + lower ex) = Some bottom_left
          ∧ load images
              (((b * channels + c) * in_height + upper ey) * in_width
               + upper ex) = Some bottom_right
          ∧ load output'
              (((b * channels + c) * out_height + y) * out_width + x)
            = Some (ComputeLerp top_left top_right bottom_left bottom_right
                      (lerp ex) (lerp ey)).
Proof.
  intros Hb Hc Hoh How Himages Houtput Hys Hxs.
  pose (cell := λ (bc y x : Z),
    ey ← load ys y;
    ex ← load xs x;
    top_left ← load images ((bc * in_height + lower ey) * in_width + lower ex);
    top_right ←
      load images ((bc * in_height + lower ey) * in_width + upper ex);
    bottom_left ←
      load images ((bc * in_height + upper ey) * in_width + lower ex);
    bottom_right ←
      load images ((bc * in_height + upper ey) * in_width + upper ex);
    Some (ComputeLerp top_left top_right bottom_left bottom_right
            (lerp ex) (lerp ey))).
  pose (val := λ (off : Z) (_ : T),
    cell ((off `div` out_width) `div` out_height)
      ((off `div` out_width) `mod` out_height) (off `mod` out_width)).
  assert (Hdecode : ∀ bc y x acc,
    0 ≤ y < out_height → 0 ≤ x < out_width →
    val ((bc * out_height + y) * out_width + x) acc = cell bc y x).
  { intros bc y x acc Hy Hx. unfold val.
    destruct (flat_div_mod (bc * out_height + y) x out_width Hx) as [-> ->].
    by destruct (flat_div_mod bc y out_height Hy) as [-> ->]. }
  assert (Hpixel : ∀ b c r s,
    0 ≤ b < batch → 0 ≤ c < channels →
    0 ≤ r < in_height → 0 ≤ s < in_width →
    ∃ v, load images (((b * channels + c) * in_height + r) * in_width + s)
         = Some v).
  { intros b c r s Hb' Hc' Hr Hs. apply load_is_Some.
    pose proof (flat_index_bounds b c batch channels Hb' Hc') as H1.
    pose proof (flat_index_bounds _ r _ in_height H1 Hr) as H2.
    pose proof (flat_index_bounds _ s _ in_width H2 Hs) as H3. lia. }
  assert (Hcell : ∀ b c y x,
    0 ≤ b < batch → 0 ≤ c < channels →
    0 ≤ y < out_height → 0 ≤ x < out_width →
    ∃ ey ex top_left top_right bottom_left bottom_right,
      load ys y = Some ey ∧ load xs x = Some ex
      ∧ load images
          (((b * channels + c) * in_height + lower ey) * in_width
           + lower ex) = Some top_left
      ∧ load images
          (((b * channels + c) * in_height + lower ey) * in_width
           + upper ex) = Some top_right
      ∧ load images
          (((b * channels + c) * in_height + upper ey) * in_width
           + lower ex) = Some bottom_left
      ∧ load images
          (((b * channels + c) * in_height + upper ey) * in_width
           + upper ex) = Some bottom_right
      ∧ cell (b * channels + c) y x
        = Some (ComputeLerp top_left top_right bottom_left bottom_right
                  (lerp ex) (lerp ey))).
  { intros b c y x Hb' Hc' Hy Hx.
    destruct (Hys y Hy) as (ey & Hey & Hly & Huy).
    destruct (Hxs x Hx) as (ex & Hex & Hlx & Hux).
    destruct (Hpixel b c (lower ey) (lower ex)) as [tl Htl]; [done..|].
    destruct (Hpixel b c (lower ey) (upper ex)) as [tr Htr]; [done..|].
    destruct (Hpixel b c (upper ey) (lower ex)) as [bl Hbl]; [done..|].
    destruct (Hpixel b c (upper ey) (upper ex)) as [br Hbr]; [done..|].
    exists ey, ex, tl, tr, bl, br. unfold cell.
    rewrite Hey, Hex. cbn [mbind option_bind].
    rewrite Htl, Htr, Hbl, Hbr. done. }
  assert (Hsweep :
    sweeps
      (ResizeImageNCHW ComputeLerp images batch in_height in_width
         out_height out_width channels xs ys)
      0 (batch * channels * out_height * out_width) val).
  { unfold ResizeImageNCHW.
    apply (sweeps_at _ 0 0
             (batch * (channels * (out_height * (out_width * 1)))));
      [done | ring |].
    apply sweeps_for_range; [done | | intros b Hb'].
    { repeat apply Z.mul_nonneg_nonneg; lia. }
    apply sweeps_for_range; [done | | intros c Hc'].
    { repeat apply Z.mul_nonneg_nonneg; lia. }
    cbv zeta.
    apply sweeps_for_range; [done | lia | intros y Hy].
    destruct (Hys y Hy) as (ey & Hey & _).
    apply (sweeps_ext _
             (for_range out_width (λ x output,
                update_cell (λ _, cell (b * channels + c) y x)
                  (((b * channels + c) * out_height + y) * out_width + x)
                  output))).
    { intros buf Hlo Hlen. rewrite Hey. cbn [mbind option_bind].
      apply (for_range_ext_inv (λ s, length s = length buf)); [done | |].
      - intros x s Hx Hs.
        destruct (Hcell b c y x Hb' Hc' Hy Hx)
          as (ey' & ex & tl & tr & bl & br
              & Hey' & Hex & Htl & Htr & Hbl & Hbr & Hval).
        assert (ey' = ey) as -> by congruence.
        unfold update_cell. rewrite Hval, Hex. cbn [mbind option_bind].
        replace ((b * channels + c) * in_height * in_width
                 + lower ey * in_width + lower ex)
          with (((b * channels + c) * in_height + lower ey) * in_width
                + lower ex) by ring.
        replace ((b * channels + c) * in_height * in_width
                 + lower ey * in_width + upper ex)
          with (((b * channels + c) * in_height + lower ey) * in_width
                + upper ex) by ring.
        replace ((b * channels + c) * in_height * in_width
                 + upper ey * in_width + lower ex)
          with (((b * channels + c) * in_height + upper ey) * in_width
                + lower ex) by ring.
        replace ((b * channels + c) * in_height * in_width
                 + upper ey * in_width + upper ex)
          with (((b * channels + c) * in_height + upper ey) * in_width
                + upper ex) by ring.
        rewrite Htl, Htr, Hbl, Hbr. cbn [mbind option_bind].
        replace ((b * channels + c) * out_height * out_width
                 + (y * out_width + x))
          with (((b * channels + c) * out_height + y) * out_width + x)
          by ring.
        destruct (load_is_Some s
                    (((b * channels + c) * out_height + y) * out_width + x))
          as [acc ->]; [| done].
        rewrite Hs. lia.
      - intros x s s' Hx Hs Hstep.
        rewrite <- Hs. by apply update_cell_length in Hstep. }
    apply sweeps_for_range; [done | lia | intros x Hx].
    apply (sweeps_at _
             (((b * channels + c) * out_height + y) * out_width + x) _ 1 1);
      [ring | done |].
    apply sweeps_update_cell.
    - intros _.
      destruct (Hcell b c y x Hb' Hc' Hy Hx)
        as (? & ? & ? & ? & ? & ? & _ & _ & _ & _ & _ & _ & ->).
      eauto.
    - intros acc. by apply Hdecode. }
  destruct (Hsweep output) as (output' & Hrun & Hlen & Hcells & _);
    [done | lia |].
  exists output'. split; [done |]. split; [done |].
  intros b c y x Hb' Hc' Hy Hx.
  pose proof (flat_index_bounds b c batch channels Hb' Hc') as H1.
  pose proof (flat_index_bounds _ _ _ _ H1 Hy) as H2.
  pose proof (flat_index_bounds _ _ _ _ H2 Hx) as H3.
  destruct (Hcells (((b * channels + c) * out_height + y) * out_width + x))
    as [_ Heq]; [lia |].
  destruct (load_is_Some output
              (((b * channels + c) * out_height + y) * out_width + x))
    as [acc Hacc]; [lia |].
  rewrite Hacc in Heq. cbn in Heq. rewrite Hdecode in Heq by done.
  destruct (Hcell b c y x Hb' Hc' Hy Hx)
    as (ey & ex & tl & tr & bl & br
        & Hey & Hex & Htl & Htr & Hbl & Hbr & Hval).
  exists ey, ex, tl, tr, bl, br.
  repeat (split; [done |]). congruence.
Qed.

(** The same for the layout with the channel last. *)
Lemma ResizeImageNHWC_element_spec images output
    batch in_height in_width out_height out_width channels xs ys :
  0 ≤ batch → 0 ≤ channels → 0 ≤ out_height → 0 ≤ out_width →
  Z.of_nat (length images) = batch * in_height * in_width * channels →
  Z.of_nat (length output) = batch * out_height * out_width * channels →
  (∀ y, 0 ≤ y < out_height →
     ∃ e, load ys y = Some e
          ∧ 0 ≤ lower e < in_height ∧ 0 ≤ upper e < in_height) →
  (∀ x, 0 ≤ x < out_width →
     ∃ e, load xs x = Some e
          ∧ 0 ≤ lower e < in_width ∧ 0 ≤ upper e < in_width) →
  ∃ output',
    ResizeImageNHWC ComputeLerp images batch in_height in_width
      out_height out_width channels xs ys output = Some output'
    ∧ length output' = length output
    ∧ ∀ b y x c,
        0 ≤ b < batch → 0 ≤ y < out_height →
        0 ≤ x < out_width → 0 ≤ c < channels →
        ∃ ey ex top_left top_right bottom_left bottom_right,
          load ys y = Some ey ∧ load xs x = Some ex
          ∧ load images
              (((b * in_height + lower ey) * in_width + lower ex) * channels
               + c) = Some top_left
          ∧ load images
              (((b * in_height + lower ey) * in_width + upper ex) * channels
               + c) = Some top_right
          ∧ load images
              (((b * in_height + upper ey) * in_width + lower ex) * channels
               + c) = Some bottom_left
          ∧ load images
              (((b * in_height + upper ey) * in_width + upper ex) * channels
               + c) = Some bottom_right
          ∧ load output'
              (((b * out_height + y) * out_width + x) * channels + c)
            = Some (ComputeLerp top_left top_right bottom_left bottom_right
                      (lerp ex) (lerp ey)).
Proof.
  intros Hb Hc Hoh How Himages Houtput Hys Hxs.
  pose (cell := λ (b y x c : Z),
    ey ← load ys y;
    ex ← load xs x;
    top_left ←
      load images
        (((b * in_height + lower ey) * in_width + lower ex) * channels + c);
    top_right ←
      load images
        (((b * in_height + lower ey) * in_width + upper ex) * channels + c);
    bottom_left ←
      load images
        (((b * in_height + upper ey) * in_width + lower ex) * channels + c);
    bottom_right ←
      load images
        (((b * in_height + upper ey) * in_width + upper ex) * channels + c);
    Some (ComputeLerp top_left top_right bottom_left bottom_right
            (lerp ex) (lerp ey))).
  pose (val := λ (off : Z) (_ : T),
    cell (((off `div` channels) `div` out_width) `div` out_height)
      (((off `div` channels) `div` out_width) `mod` out_height)
      ((off `div` channels) `mod` out_width) (off `mod` channels)).
  assert (Hdecode : ∀ b y x c acc,
    0 ≤ y < out_height → 0 ≤ x < out_width → 0 ≤ c < channels →
    val (((b * out_height + y) * out_width + x) * channels + c) acc
    = cell b y x c).
  { intros b y x c acc Hy Hx Hc'. unfold val.
    destruct (flat_div_mod ((b * out_height + y) * out_width + x) c channels
                Hc') as [-> ->].
    destruct (flat_div_mod (b * out_height + y) x out_width Hx) as [-> ->].
    by destruct (flat_div_mod b y out_height Hy) as [-> ->]. }
  assert (Hpixel : ∀ b r s c,
    0 ≤ b < batch → 0 ≤ r < in_height →
    0 ≤ s < in_width → 0 ≤ c < channels →
    ∃ v, load images (((b * in_height + r) * in_width + s) * channels + c)
         = Some v).
  { intros b r s c Hb' Hr Hs Hc'. apply load_is_Some.
    pose proof (flat_index_bounds b r batch in_height Hb' Hr) as H1.
    pose proof (flat_index_bounds _ s _ in_width H1 Hs) as H2.
    pose proof (flat_index_bounds _ c _ channels H2 Hc') as H3. lia. }
  assert (Hcell : ∀ b y x c,
    0 ≤ b < batch → 0 ≤ y < out_height →
    0 ≤ x < out_width → 0 ≤ c < channels →
    ∃ ey ex top_left top_right bottom_left bottom_right,
      load ys y = Some ey ∧ load xs x = Some ex
      ∧ load images
          (((b * in_height + lower ey) * in_width + lower ex) * channels
           + c) = Some top_left
      ∧ load images
          (((b * in_height + lower ey) * in_width + upper ex) * channels
           + c) = Some top_right
      ∧ load images
          (((b * in_height + upper ey) * in_width + lower ex) * channels
           + c) = Some bottom_left
      ∧ load images
          (((b * in_height + upper ey) * in_width + upper ex) * channels
           + c) = Some bottom_right
      ∧ cell b y x c
        = Some (ComputeLerp top_left top_right bottom_left bottom_right
                  (lerp ex) (lerp ey))).
  { intros b y x c Hb' Hy Hx Hc'.
    destruct (Hys y Hy) as (ey & Hey & Hly & Huy).
    destruct (Hxs x Hx) as (ex & Hex & Hlx & Hux).
    destruct (Hpixel b (lower ey) (lower ex) c) as [tl Htl]; [done..|].
    destruct (Hpixel b (lower ey) (upper ex) c) as [tr Htr]; [done..|].
    destruct (Hpixel b (upper ey) (lower ex) c) as [bl Hbl]; [done..|].
    destruct (Hpixel b (upper ey) (upper ex) c) as [br Hbr]; [done..|].
    exists ey, ex, tl, tr, bl, br. unfold cell.
    rewrite Hey, Hex. cbn [mbind option_bind].
    rewrite Htl, Htr, Hbl, Hbr. done. }
  assert (Hsweep :
    sweeps
      (ResizeImageNHWC ComputeLerp images batch in_height in_width
         out_height out_width channels xs ys)
      0 (batch * out_height * out_width * channels) val).
  { unfold ResizeImageNHWC.
    apply (sweeps_at _ 0 0
             (batch * (out_height * (out_width * (channels * 1)))));
      [done | ring |].
    apply sweeps_for_range; [done | | intros b Hb'].
    { repeat apply Z.mul_nonneg_nonneg; lia. }
    cbv zeta.
    apply sweeps_for_range; [done | | intros y Hy].
    { repeat apply Z.mul_nonneg_nonneg; lia. }
    destruct (Hys y Hy) as (ey & Hey & _).
    apply (sweeps_ext _
             (for_range out_width (λ x,
                for_range channels (λ c output,
                  update_cell (λ _, cell b y x c)
                    (((b * out_height + y) * out_width + x) * channels + c)
                    output)))).
    { intros buf Hlo Hlen. rewrite Hey. cbn [mbind option_bind].
      apply (for_range_ext_inv (λ s, length s = length buf)); [done | |].
      - intros x s Hx Hs.
        destruct (Hxs x Hx) as (ex & Hex & _).
        rewrite Hex. cbn [mbind option_bind].
        apply (for_range_ext_inv (λ s', length s' = length buf)); [done | |].
        + intros c s' Hc' Hs'.
          destruct (Hcell b y x c Hb' Hy Hx Hc')
            as (ey' & ex' & tl & tr & bl & br
                & Hey' & Hex' & Htl & Htr & Hbl & Hbr & Hval).
          assert (ey' = ey) as -> by congruence.
          assert (ex' = ex) as -> by congruence.
          unfold update_cell. rewrite Hval.
          replace (b * channels * in_height * in_width
                   + lower ey * in_width * channels + lower ex * channels
                   + c)
            with (((b * in_height + lower ey) * in_width + lower ex)
                  * channels + c) by ring.
          replace (b * channels * in_height * in_width
                   + lower ey * in_width * channels + upper ex * channels
                   + c)
            with (((b * in_height + lower ey) * in_width + upper ex)
                  * channels + c) by ring.
          replace (b * channels * in_height * in_width
                   + upper ey * in_width * channels + lower ex * channels
                   + c)
            with (((b * in_height + upper ey) * in_width + lower ex)
                  * channels + c) by ring.
          replace (b * channels * in_height * in_width
                   + upper ey * in_width * channels + upper ex * channels
                   + c)
            with (((b * in_height + upper ey) * in_width + upper ex)
                  * channels + c) by ring.
          rewrite Htl, Htr, Hbl, Hbr. cbn [mbind option_bind].
          replace (b * channels * out_height * out_width
                   + (y * out_width + x) * channels + c)
            with (((b * out_height + y) * out_width + x) * channels + c)
            by ring.
          destruct (load_is_Some s'
                      (((b * out_height + y) * out_width + x) * channels
                       + c)) as [acc ->]; [| done].
          rewrite Hs'.
          pose proof (flat_index_bounds x c out_width channels Hx Hc').
          assert (((b * out_height + y) * out_width + x) * channels + c
                  = 0 + b * (out_height * (out_width * (channels * 1)))
                    + y * (out_width * (channels * 1)) + (x * channels + c))
            as -> by ring.
          lia.
        + intros c s1 s2 Hc' Hs1 Hstep.
          rewrite <- Hs1. by apply update_cell_length in Hstep.
      - intros x s s' Hx Hs Hstep. rewrite <- Hs.
        apply (for_range_preserves (λ t, length t = length s) _ _ _ _
                 eq_refl) in Hstep; [done |].
        intros c s1 s2 Hc' Hs1 Hcellstep.
        rewrite <- Hs1. by apply update_cell_length in Hcellstep. }
    apply sweeps_for_range; [done | | intros x Hx].
    { repeat apply Z.mul_nonneg_nonneg; lia. }
    apply sweeps_for_range; [done | lia | intros c Hc'].
    apply (sweeps_at _
             (((b * out_height + y) * out_width + x) * channels + c) _ 1 1);
      [ring | done |].
    apply sweeps_update_cell.
    - intros _.
      destruct (Hcell b y x c Hb' Hy Hx Hc')
        as (? & ? & ? & ? & ? & ? & _ & _ & _ & _ & _ & _ & ->).
      eauto.
    - intros acc. by apply Hdecode. }
  destruct (Hsweep output) as (output' & Hrun & Hlen & Hcells & _);
    [done | lia |].
  exists output'. split; [done |]. split; [done |].
  intros b y x c Hb' Hy Hx Hc'.
  pose proof (flat_index_bounds b y batch out_height Hb' Hy) as H1.
  pose proof (flat_index_bounds _ _ _ _ H1 Hx) as H2.
  pose proof (flat_index_bounds _ _ _ _ H2 Hc') as H3.
  destruct (Hcells (((b * out_height + y) * out_width + x) * channels + c))
    as [_ Heq]; [lia |].
  destruct (load_is_Some output
              (((b * out_height + y) * out_width + x) * channels + c))
    as [acc Hacc]; [lia |].
  rewrite Hacc in Heq. cbn in Heq. rewrite Hdecode in Heq by done.
  destruct (Hcell b y x c Hb' Hy Hx Hc')
    as (ey & ex & tl & tr & bl & br
        & Hey & Hex & Htl & Htr & Hbl & Hbr & Hval).
  exists ey, ex, tl, tr, bl, br.
  repeat (split; [done |]). congruence.
Qed.

Lemma ResizeImageNCHW_keeps_length images output output'
    batch in_height in_width out_height out_width channels xs ys :
  ResizeImageNCHW ComputeLerp images batch in_height in_width
    out_height out_width channels xs ys output = Some output' →
  length output' = length output.
Proof.
  unfold ResizeImageNCHW.
  apply (for_range_preserves (λ s, length s = length output)); [done |].
  intros b s1 s2 _ Hs1.
  apply (for_range_preserves (λ s, length s = length output)); [done |].
  intros c s3 s4 _ Hs3. cbv zeta.
  apply (for_range_preserves (λ s, length s = length output)); [done |].
  intros y s5 s6 _ Hs5 Hstep.
  apply bind_Some in Hstep as (ey & _ & Hstep). revert Hstep.
  apply (for_range_preserves (λ s, length s = length output)); [done |].
  intros x s7 s8 _ Hs7 Hstep.
  apply bind_Some in Hstep as (ex & _ & Hstep).
  apply bind_Some in Hstep as (tl & _ & Hstep).
  apply bind_Some in Hstep as (tr & _ & Hstep).
  apply bind_Some in Hstep as (bl & _ & Hstep).
  apply bind_Some in Hstep as (br & _ & Hstep).
  rewrite <- Hs7. by apply store_length in Hstep.
Qed.

Lemma ResizeImageNHWC_keeps_length images output output'
    batch in_height in_width out_height out_width channels xs ys :
  ResizeImageNHWC ComputeLerp images batch in_height in_width
    out_height out_width channels xs ys output = Some output' →
  length output' = length output.
Proof.
  unfold ResizeImageNHWC.
  apply (for_range_preserves (λ s, length s = length output)); [done |].
  intros b s1 s2 _ Hs1. cbv zeta.
  apply (for_range_preserves (λ s, length s = length output)); [done |].
  intros y s3 s4 _ Hs3 Hstep.
  apply bind_Some in Hstep as (ey & _ & Hstep). revert Hstep.
  apply (for_range_preserves (λ s, length s = length output)); [done |].
  intros x s5 s6 _ Hs5 Hstep.
  apply bind_Some in Hstep as (ex & _ & Hstep). revert Hstep.
  apply (for_range_preserves (λ s, length s = length output)); [done |].
  intros c s7 s8 _ Hs7 Hstep.
  apply bind_Some in Hstep as (tl & _ & Hstep).
  apply bind_Some in Hstep as (tr & _ & Hstep).
  apply bind_Some in Hstep as (bl & _ & Hstep).
  apply bind_Some in Hstep as (br & _ & Hstep).
  rewrite <- Hs7. by apply store_length in Hstep.
Qed.

(** X11: with tables whose indices lie inside the image, the kernel of the
    channel-first layout is memory safe on buffers of the extents it is
    told, and it writes every output element once: the value interpolated
    from the four elements of the same batch and channel at the lower and
    upper rows of the row table and the lower and upper columns of the
    column table, with the weights of the two entries. *)
Theorem ResizeImageNCHW_each_element images output
    batch in_height in_width out_height out_width channels xs ys :
  0 ≤ batch → 0 ≤ channels → 0 ≤ out_height → 0 ≤ out_width →
  Z.of_nat (length images) = batch * channels * in_height * in_width →
  Z.of_nat (length output) = batch * channels * out_height * out_width →
  (∀ y, 0 ≤ y < out_height →
     ∃ e, load ys y = Some e
          ∧ 0 ≤ lower e < in_height ∧ 0 ≤ upper e < in_height) →
  (∀ x, 0 ≤ x < out_width →
     ∃ e, load xs x = Some e
          ∧ 0 ≤ lower e < in_width ∧ 0 ≤ upper e < in_width) →
  ∃ output',
    ResizeImageNCHW ComputeLerp images batch in_height in_width
      out_height out_width channels xs ys output = Some output'
    ∧ length output' = length output
    ∧ ∀ b c y x,
        0 ≤ b < batch → 0 ≤ c < channels →
        0 ≤ y < out_height → 0 ≤ x < out_width →
        ∃ ey ex top_left top_right bottom_left bottom_right,
          load ys y = Some ey ∧ load xs x = Some ex
          ∧ load images
              (((b * channels + c) * in_height + lower ey) * in_width
               + lower ex) = Some top_left
          ∧ load images
              (((b * channels + c) * in_height + lower ey) * in_width
               + upper ex) = Some top_right
          ∧ load images
              (((b * channels + c) * in_height + upper ey) * in_width
               + lower ex) = Some bottom_left
          ∧ load images
              (((b * channels + c) * in_height + upper ey) * in_width
               + upper ex) = Some bottom_right
          ∧ load output'
              (((b * channels + c) * out_height + y) * out_width + x)
            = Some (ComputeLerp top_left top_right bottom_left bottom_right
                      (lerp ex) (lerp ey)).
Proof.
  intros Hb Hc Hoh How Himages Houtput Hys Hxs.
  by apply ResizeImageNCHW_element_spec.
Qed.

(** X12: the kernel of the channel-last layout under the same conditions:
    every output element of a batch, row, column and channel is interpolated
    from the four elements of that batch and channel at the rows and columns
    the two tables give. *)
Theorem ResizeImageNHWC_each_element images output
    batch in_height in_width out_height out_width channels xs ys :
  0 ≤ batch → 0 ≤ channels → 0 ≤ out_height → 0 ≤ out_width →
  Z.of_nat (length images) = batch * in_height * in_width * channels →
  Z.of_nat (length output) = batch * out_height * out_width * channels →
  (∀ y, 0 ≤ y < out_height →
     ∃ e, load ys y = Some e
          ∧ 0 ≤ lower e < in_height ∧ 0 ≤ upper e < in_height) →
  (∀ x, 0 ≤ x < out_width →
     ∃ e, load xs x = Some e
          ∧ 0 ≤ lower e < in_width ∧ 0 ≤ upper e < in_width) →
  ∃ output',
    ResizeImageNHWC ComputeLerp images batch in_height in_width
      out_height out_width channels xs ys output = Some output'
    ∧ length output' = length output
    ∧ ∀ b y x c,
        0 ≤ b < batch → 0 ≤ y < out_height →
        0 ≤ x < out_width → 0 ≤ c < channels →
        ∃ ey ex top_left top_right bottom_left bottom_right,
          load ys y = Some ey ∧ load xs x = Some ex
          ∧ load images
              (((b * in_height + lower ey) * in_width + lower ex) * channels
               + c) = Some top_left
          ∧ load images
              (((b * in_height + lower ey) * in_width + upper ex) * channels
               + c) = Some top_right
          ∧ load images
              (((b * in_height + upper ey) * in_width + lower ex) * channels
               + c) = Some bottom_left
          ∧ load images
              (((b * in_height + upper ey) * in_width + upper ex) * channels
               + c) = Some bottom_right
          ∧ load output'
              (((b * out_height + y) * out_width + x) * channels + c)
            = Some (ComputeLerp top_left top_right bottom_left bottom_right
                      (lerp ex) (lerp ey)).
Proof.
  intros Hb Hc Hoh How Himages Houtput Hys Hxs.
  by apply ResizeImageNHWC_element_spec.
Qed.

End ResizeKernels.

(** ** The functor *)

Section ResizeOperator.
Context {F : Type} `{HS : Scalar F} `{HF : Float F}.

Lemma length_fresh_table n :
  0 ≤ n → Z.of_nat (length (fresh_table (F := F) n)) = n.
Proof. intros Hn. unfold fresh_table. rewrite length_replicate. lia. Qed.

(** The two tables of a call, as the kernels need them. *)
Lemma tables_of_call out_size in_size scale :
  0 < out_size →
  (∀ i, 0 ≤ i < out_size →
     0 ≤ to_index (fmul (of_index i) scale) < in_size) →
  ∃ table,
    ComputeInterpolationWeights out_size in_size scale
      (fresh_table (out_size + 1)) = Some table
    ∧ (∀ i, 0 ≤ i < out_size →
         ∃ e,
           load table i = Some e
           ∧ lower e = to_index (fmul (of_index i) scale)
           ∧ upper e = Z.min (lower e + 1) (in_size - 1)
           ∧ lerp e = fsub (fmul (of_index i) scale) (of_index (lower e)))
    ∧ ∀ i, 0 ≤ i < out_size →
        ∃ e, load table i = Some e
             ∧ 0 ≤ lower e < in_size ∧ 0 ≤ upper e < in_size.
Proof.
  intros Hout Htrunc.
  destruct (ComputeInterpolationWeights_spec
              (fresh_table (out_size + 1)) out_size in_size scale)
    as (table & Hrun & _ & Hentries & _).
  { rewrite length_fresh_table; lia. }
  exists table. split; [done |]. split; [done |].
  intros i Hi. destruct (Hentries i Hi) as (e & He & Hl & Hu & _).
  exists e. split; [done |]. specialize (Htrunc i Hi).
  rewrite Hu, Hl. lia.
Qed.

Section Float32.
Variable uninit : F.

Lemma resize_copy_spec (self : ResizeBilinearFunctor)
    (input output : Tensor F) batch channels in_height in_width :
  shape input !! 0%nat = Some batch →
  shape input !! 1%nat = Some channels →
  shape input !! 2%nat = Some in_height →
  shape input !! 3%nat = Some in_width →
  out_height_ self = in_height → out_width_ self = in_width →
  0 ≤ batch → 0 ≤ channels → 0 < in_height → 0 < in_width →
  Z.of_nat (length (data input)) = batch * channels * in_height * in_width →
  ResizeBilinearFunctor_operator uninit self input output
  = Some {| shape := [batch; channels; in_height; in_width];
            data := data input |}.
Proof.
  intros H0 H1 H2 H3 Hh Hw Hb Hc Hih Hiw Hlen.
  unfold ResizeBilinearFunctor_operator.
  rewrite H0, H1, H2, H3, Hh, Hw. cbn [mbind option_bind].
  unfold MACE_CHECK. rewrite decide_True by done. cbn [mbind option_bind].
  rewrite decide_True by done.
  rewrite (memcpy_whole _ (data input)
             (batch * channels * in_height * in_width)); [done | | done].
  rewrite length_Resize. cbn [num_elements foldr].
  assert (0 ≤ batch * channels * in_height * in_width)
    by (repeat apply Z.mul_nonneg_nonneg; lia).
  rewrite Z2Nat.id; [ring |].
  replace (batch * (channels * (in_height * (in_width * 1))))
    with (batch * channels * in_height * in_width) by ring. done.
Qed.

(** X13: a call whose target size is the size of the input copies the input:
    the output has the shape and the elements of the input, whatever the
    output tensor held and whatever the corner alignment; no interpolation
    table is built. *)
Theorem resize_to_same_size_copies (self : ResizeBilinearFunctor)
    (input output : Tensor F) batch channels in_height in_width :
  shape input !! 0%nat = Some batch →
  shape input !! 1%nat = Some channels →
  shape input !! 2%nat = Some in_height →
  shape input !! 3%nat = Some in_width →
  out_height_ self = in_height → out_width_ self = in_width →
  0 ≤ batch → 0 ≤ channels → 0 < in_height → 0 < in_width →
  Z.of_nat (length (data input)) = batch * channels * in_height * in_width →
  ResizeBilinearFunctor_operator uninit self input output
  = Some {| shape := [batch; channels; in_height; in_width];
            data := data input |}.
Proof.
  intros H0 H1 H2 H3 Hh Hw Hb Hc Hih Hiw Hlen.
  by apply resize_copy_spec.
Qed.

Lemma resize_operator_spec (self : ResizeBilinearFunctor)
    (input output : Tensor F) batch channels in_height in_width :
  shape input !! 0%nat = Some batch →
  shape input !! 1%nat = Some channels →
  shape input !! 2%nat = Some in_height →
  shape input !! 3%nat = Some in_width →
  0 ≤ batch → 0 ≤ channels →
  0 < out_height_ self → 0 < out_width_ self →
  ¬ (out_height_ self = in_height ∧ out_width_ self = in_width) →
  Z.of_nat (length (data input)) = batch * channels * in_height * in_width →
  (∀ y, 0 ≤ y < out_height_ self →
     0 ≤ to_index
           (fmul (of_index y)
              (CalculateResizeScale in_height (out_height_ self)
                 (align_corners_ self))) < in_height) →
  (∀ x, 0 ≤ x < out_width_ self →
     0 ≤ to_index
           (fmul (of_index x)
              (CalculateResizeScale in_width (out_width_ self)
                 (align_corners_ self))) < in_width) →
  ∃ out,
    ResizeBilinearFunctor_operator uninit self input output = Some out
    ∧ shape out = [batch; channels; out_height_ self; out_width_ self]
    ∧ Z.of_nat (length (data out))
      = batch * channels * out_height_ self * out_width_ self
    ∧ ∀ b c y x,
        0 ≤ b < batch → 0 ≤ c < channels →
        0 ≤ y < out_height_ self → 0 ≤ x < out_width_ self →
        ∃ top_left top_right bottom_left bottom_right,
          let in_y :=
            fmul (of_index y)
              (CalculateResizeScale in_height (out_height_ self)
                 (align_corners_ self)) in
          let in_x :=
            fmul (of_index x)
              (CalculateResizeScale in_width (out_width_ self)
                 (align_corners_ self)) in
          let y_lower := to_index in_y in
          let y_upper := Z.min (y_lower + 1) (in_height - 1) in
          let x_lower := to_index in_x in
          let x_upper := Z.min (x_lower + 1) (in_width - 1) in
          load (data input)
            (((b * channels + c) * in_height + y_lower) * in_width
             + x_lower) = Some top_left
          ∧ load (data input)
              (((b * channels + c) * in_height + y_lower) * in_width
               + x_upper) = Some top_right
          ∧ load (data input)
              (((b * channels + c) * in_height + y_upper) * in_width
               + x_lower) = Some bottom_left
          ∧ load (data input)
              (((b * channels + c) * in_height + y_upper) * in_width
               + x_upper) = Some bottom_right
          ∧ load (data out)
              (((b * channels + c) * out_height_ self + y)
               * out_width_ self + x)
            = Some (ComputeLerp_float top_left top_right bottom_left
                      bottom_right
                      (fsub in_x (of_index x_lower))
                      (fsub in_y (of_index y_lower))).
Proof.
  intros H0 H1 H2 H3 Hb Hc Hoh How Hdiffer Hlen Hys Hxs.
  unfold ResizeBilinearFunctor_operator.
  rewrite H0, H1, H2, H3. cbn [mbind option_bind].
  unfold MACE_CHECK.
  rewrite (decide_True (P := 0 < out_height_ self ∧ 0 < out_width_ self))
    by done.
  cbn [mbind option_bind].
  rewrite decide_False by done. unfold resize_image.
  destruct (tables_of_call (out_height_ self) in_height _ Hoh Hys)
    as (ys & -> & Hys_entries & Hys_bounds).
  destruct (tables_of_call (out_width_ self) in_width _ How Hxs)
    as (xs & -> & Hxs_entries & Hxs_bounds).
  cbn [mbind option_bind].
  assert (Hcount :
    0 ≤ batch * channels * out_height_ self * out_width_ self)
    by (repeat apply Z.mul_nonneg_nonneg; lia).
  destruct (ResizeImageNCHW_element_spec ComputeLerp_float (data input)
              (data (Resize uninit output
                       [batch; channels; out_height_ self;
                        out_width_ self]))
              batch in_height in_width (out_height_ self) (out_width_ self)
              channels xs ys)
    as (output' & -> & Hlen' & Hcells); [lia.. | done | | done | done |].
  { rewrite length_Resize. cbn [num_elements foldr].
    rewrite Z2Nat.id; [ring |].
    replace (batch * (channels * (out_height_ self
                                  * (out_width_ self * 1))))
      with (batch * channels * out_height_ self * out_width_ self) by ring.
    done. }
  cbn [mbind option_bind]. eexists. split; [reflexivity |]. cbn [shape data].
  split; [done |]. split.
  { rewrite Hlen', length_Resize. cbn [num_elements foldr].
    rewrite Z2Nat.id; [ring |].
    replace (batch * (channels * (out_height_ self
                                  * (out_width_ self * 1))))
      with (batch * channels * out_height_ self * out_width_ self) by ring.
    done. }
  intros b c y x Hb' Hc' Hy Hx.
  destruct (Hcells b c y x Hb' Hc' Hy Hx)
    as (ey & ex & tl & tr & bl & br
        & Hey & Hex & Htl & Htr & Hbl & Hbr & Hout).
  destruct (Hys_entries y Hy) as (ey' & Hey' & Hly & Huy & Hpy).
  destruct (Hxs_entries x Hx) as (ex' & Hex' & Hlx & Hux & Hpx).
  assert (ey' = ey) as -> by congruence.
  assert (ex' = ex) as -> by congruence.
  rewrite Hpx, Hpy in Hout.
  exists tl, tr, bl, br. cbv zeta.
  rewrite <- Hly, <- Hlx, <- Huy, <- Hux. done.
Qed.

(** X14: a call to another size succeeds whenever every truncated source
    position lies inside the input, and each output element is then
    interpolated from the four input elements of its batch and channel at
    the lower and upper rows and columns of its position, with the distances
    of the source position from the lower row and column as weights. *)
Theorem resize_call_interpolates (self : ResizeBilinearFunctor)
    (input output : Tensor F) batch channels in_height in_width :
  shape input !! 0%nat = Some batch →
  shape input !! 1%nat = Some channels →
  shape input !! 2%nat = Some in_height →
  shape input !! 3%nat = Some in_width →
  0 ≤ batch → 0 ≤ channels →
  0 < out_height_ self → 0 < out_width_ self →
  ¬ (out_height_ self = in_height ∧ out_width_ self = in_width) →
  Z.of_nat (length (data input)) = batch * channels * in_height * in_width →
  (∀ y, 0 ≤ y < out_height_ self →
     0 ≤ to_index
           (fmul (of_index y)
              (CalculateResizeScale in_height (out_height_ self)
                 (align_corners_ self))) < in_height) →
  (∀ x, 0 ≤ x < out_width_ self →
     0 ≤ to_index
           (fmul (of_index x)
              (CalculateResizeScale in_width (out_width_ self)
                 (align_corners_ self))) < in_width) →
  ∃ out,
    ResizeBilinearFunctor_operator uninit self input output = Some out
    ∧ shape out = [batch; channels; out_height_ self; out_width_ self]
    ∧ ∀ b c y x,
        0 ≤ b < batch → 0 ≤ c < channels →
        0 ≤ y < out_height_ self → 0 ≤ x < out_width_ self →
        ∃ top_left top_right bottom_left bottom_right,
          let in_y :=
            fmul (of_index y)
              (CalculateResizeScale in_height (out_height_ self)
                 (align_corners_ self)) in
          let in_x :=
            fmul (of_index x)
              (CalculateResizeScale in_width (out_width_ self)
                 (align_corners_ self)) in
          let y_lower := to_index in_y in
          let y_upper := Z.min (y_lower + 1) (in_height - 1) in
          let x_lower := to_index in_x in
          let x_upper := Z.min (x_lower + 1) (in_width - 1) in
          load (data input)
            (((b * channels + c) * in_height + y_lower) * in_width
             + x_lower) = Some top_left
          ∧ load (data input)
              (((b * channels + c) * in_height + y_lower) * in_width
               + x_upper) = Some top_right
          ∧ load (data input)
              (((b * channels + c) * in_height + y_upper) * in_width
               + x_lower) = Some bottom_left
          ∧ load (data input)
              (((b * channels + c) * in_height + y_upper) * in_width
               + x_upper) = Some bottom_right
          ∧ load (data out)
              (((b * channels + c) * out_height_ self + y)
               * out_width_ self + x)
            = Some (ComputeLerp_float top_left top_right bottom_left
                      bottom_right
                      (fsub in_x (of_index x_lower))
                      (fsub in_y (of_index y_lower))).
Proof.
  intros H0 H1 H2 H3 Hb Hc Hoh How Hdiffer Hlen Hys Hxs.
  destruct (resize_operator_spec self input output batch channels
              in_height in_width)
    as (out & Hrun & Hshape & _ & Hcells); [done..|].
  exists out. done.
Qed.



(** X16: every successful call of a functor built by the constructor had a
    size list of exactly two entries, both positive, and gives an output of
    the batch and channel counts of the input and of the target height and
    width, with as many elements as that shape has. *)
Theorem resize_call_shape (size : list Z) (align_corners : bool)
    (self : ResizeBilinearFunctor) (input output out : Tensor F) :
  ResizeBilinearFunctor_new size align_corners = Some self →
  ResizeBilinearFunctor_operator uninit self input output = Some out →
  size = [out_height_ self; out_width_ self]
  ∧ align_corners_ self = align_corners
  ∧ 0 < out_height_ self ∧ 0 < out_width_ self
  ∧ ∃ batch channels,
      shape input !! 0%nat = Some batch
      ∧ shape input !! 1%nat = Some channels
      ∧ shape out = [batch; channels; out_height_ self; out_width_ self]
      ∧ length (data out) = Z.to_nat (num_elements (shape out)).
Proof.
  intros Hnew Hop. unfold ResizeBilinearFunctor_new in Hnew.
  apply bind_Some in Hnew as ([] & Hcheck & Hnew).
  unfold MACE_CHECK in Hcheck. case_decide as Hsize; [| done].
  destruct size as [|oh [|ow [|? ?]]]; try done.
  cbn in Hnew. injection Hnew as <-.
  cbn [out_height_ out_width_ align_corners_].
  split; [done |]. split; [done |].
  unfold ResizeBilinearFunctor_operator in Hop.
  apply bind_Some in Hop as (batch & H0 & Hop).
  apply bind_Some in Hop as (channels & H1 & Hop).
  apply bind_Some in Hop as (in_height & H2 & Hop).
  apply bind_Some in Hop as (in_width & H3 & Hop).
  apply bind_Some in Hop as ([] & Hpositive & Hop).
  cbn [out_height_ out_width_ align_corners_] in Hpositive, Hop.
  unfold MACE_CHECK in Hpositive.
  destruct (decide (0 < oh ∧ 0 < ow)) as [Hpos | ?]; [| done].
  split; [lia |]. split; [lia |].
  exists batch, channels. split; [done |]. split; [done |].
  destruct (decide (oh = in_height ∧ ow = in_width)) as [Hsame | Hdiffer].
  - apply bind_Some in Hop as (output_data & Hcopy & Hop).
    injection Hop as <-. cbn [shape data]. split; [done |].
    apply memcpy_keeps_length in Hcopy. by rewrite Hcopy, length_Resize.
  - apply bind_Some in Hop as (output_data & Hresize & Hop).
    injection Hop as <-. cbn [shape data]. split; [done |].
    unfold resize_image in Hresize.
    apply bind_Some in Hresize as (ys & _ & Hresize).
    apply bind_Some in Hresize as (xs & _ & Hresize).
    apply ResizeImageNCHW_keeps_length in Hresize.
    by rewrite Hresize, length_Resize.
Qed.

End Float32.
Section Uint8.
Variable Saturate_roundf : F → Z.
Variable uninit : Z.

(** X17: the functor for 8-bit images copies in the same way: a call whose
    target size is the size of the input gives the shape and the elements of
    the input, in the channel-last layout, without any rounding. *)
Theorem resize_uint8_to_same_size_copies (self : ResizeBilinearFunctor)
    (input output : Tensor Z) batch in_height in_width channels :
  shape input !! 0%nat = Some batch →
  shape input !! 1%nat = Some in_height →
  shape input !! 2%nat = Some in_width →
  shape input !! 3%nat = Some channels →
  out_height_ self = in_height → out_width_ self = in_width →
  0 ≤ batch → 0 ≤ channels → 0 < in_height → 0 < in_width →
  Z.of_nat (length (data input)) = batch * in_height * in_width * channels →
  ResizeBilinearFunctor_uint8_operator Saturate_roundf uninit self
    input output
  = Some {| shape := [batch; in_height; in_width; channels];
            data := data input |}.
Proof.
  intros H0 H1 H2 H3 Hh Hw Hb Hc Hih Hiw Hlen.
  unfold ResizeBilinearFunctor_uint8_operator.
  rewrite H0, H1, H2, H3, Hh, Hw. cbn [mbind option_bind].
  unfold MACE_CHECK. rewrite decide_True by done. cbn [mbind option_bind].
  rewrite decide_True by done.
  rewrite (memcpy_whole _ (data input)
             (batch * in_height * in_width * channels)); [done | | done].
  rewrite length_Resize. cbn [num_elements foldr].
  assert (0 ≤ batch * in_height * in_width * channels)
    by (repeat apply Z.mul_nonneg_nonneg; lia).
  rewrite Z2Nat.id; [ring |].
  replace (batch * (in_height * (in_width * (channels * 1))))
    with (batch * in_height * in_width * channels) by ring. done.
Qed.

(** X18: a call of the functor for 8-bit images to another size succeeds
    whenever every truncated source position lies inside the input; each
    output element of a batch, row, column and channel is then the rounded
    and saturated interpolation of the four input elements of that batch and
    channel at the lower and upper rows and columns of its position. *)
Theorem resize_uint8_call_interpolates (self : ResizeBilinearFunctor)
    (input output : Tensor Z) batch in_height in_width channels :
  shape input !! 0%nat = Some batch →
  shape input !! 1%nat = Some in_height →
  shape input !! 2%nat = Some in_width →
  shape input !! 3%nat = Some channels →
  0 ≤ batch → 0 ≤ channels →
  0 < out_height_ self → 0 < out_width_ self →
  ¬ (out_height_ self = in_height ∧ out_width_ self = in_width) →
  Z.of_nat (length (data input)) = batch * in_height * in_width * channels →
  (∀ y, 0 ≤ y < out_height_ self →
     0 ≤ to_index
           (fmul (of_index y)
              (CalculateResizeScale in_height (out_height_ self)
                 (align_corners_ self))) < in_height) →
  (∀ x, 0 ≤ x < out_width_ self →
     0 ≤ to_index
           (fmul (of_index x)
              (CalculateResizeScale in_width (out_width_ self)
                 (align_corners_ self))) < in_width) →
  ∃ out,
    ResizeBilinearFunctor_uint8_operator Saturate_roundf uninit self
      input output = Some out
    ∧ shape out = [batch; out_height_ self; out_width_ self; channels]
    ∧ ∀ b y x c,
        0 ≤ b < batch → 0 ≤ y < out_height_ self →
        0 ≤ x < out_width_ self → 0 ≤ c < channels →
        ∃ top_left top_right bottom_left bottom_right,
          let in_y :=
            fmul (of_index y)
              (CalculateResizeScale in_height (out_height_ self)
                 (align_corners_ self)) in
          let in_x :=
            fmul (of_index x)
              (CalculateResizeScale in_width (out_width_ self)
                 (align_corners_ self)) in
          let y_lower := to_index in_y in
          let y_upper := Z.min (y_lower + 1) (in_height - 1) in
          let x_lower := to_index in_x in
          let x_upper := Z.min (x_lower + 1) (in_width - 1) in
          load (data input)
            (((b * in_height + y_lower) * in_width + x_lower) * channels
             + c) = Some top_left
          ∧ load (data input)
              (((b * in_height + y_lower) * in_width + x_upper) * channels
               + c) = Some top_right
          ∧ load (data input)
              (((b * in_height + y_upper) * in_width + x_lower) * channels
               + c) = Some bottom_left
          ∧ load (data input)
              (((b * in_height + y_upper) * in_width + x_upper) * channels
               + c) = Some bottom_right
          ∧ load (data out)
              (((b * out_height_ self + y) * out_width_ self + x) * channels
               + c)
            = Some (ComputeLerp_uint8 Saturate_roundf top_left top_right
                      bottom_left bottom_right
                      (fsub in_x (of_index x_lower))
                      (fsub in_y (of_index y_lower))).
Proof.
  intros H0 H1 H2 H3 Hb Hc Hoh How Hdiffer Hlen Hys Hxs.
  unfold ResizeBilinearFunctor_uint8_operator.
  rewrite H0, H1, H2, H3. cbn [mbind option_bind].
  unfold MACE_CHECK.
  rewrite (decide_True (P := 0 < out_height_ self ∧ 0 < out_width_ self))
    by done.
  cbn [mbind option_bind].
  rewrite decide_False by done. unfold resize_image.
  destruct (tables_of_call (out_height_ self) in_height _ Hoh Hys)
    as (ys & -> & Hys_entries & Hys_bounds).
  destruct (tables_of_call (out_width_ self) in_width _ How Hxs)
    as (xs & -> & Hxs_entries & Hxs_bounds).
  cbn [mbind option_bind].
  assert (Hcount :
    0 ≤ batch * out_height_ self * out_width_ self * channels)
    by (repeat apply Z.mul_nonneg_nonneg; lia).
  destruct (ResizeImageNHWC_element_spec
              (ComputeLerp_uint8 Saturate_roundf) (data input)
              (data (Resize uninit output
                       [batch; out_height_ self; out_width_ self;
                        channels]))
              batch in_height in_width (out_height_ self) (out_width_ self)
              channels xs ys)
    as (output' & -> & Hlen' & Hcells); [lia.. | done | | done | done |].
  { rewrite length_Resize. cbn [num_elements foldr].
    rewrite Z2Nat.id; [ring |].
    replace (batch * (out_height_ self
                      * (out_width_ self * (channels * 1))))
      with (batch * out_height_ self * out_width_ self * channels) by ring.
    done. }
  cbn [mbind option_bind]. eexists. split; [reflexivity |]. cbn [shape data].
  split; [done |].
  intros b y x c Hb' Hy Hx Hc'.
  destruct (Hcells b y x c Hb' Hy Hx Hc')
    as (ey & ex & tl & tr & bl & br
        & Hey & Hex & Htl & Htr & Hbl & Hbr & Hout).
  destruct (Hys_entries y Hy) as (ey' & Hey' & Hly & Huy & Hpy).
  destruct (Hxs_entries x Hx) as (ex' & Hex' & Hlx & Hux & Hpx).
  assert (ey' = ey) as -> by congruence.
  assert (ex' = ex) as -> by congruence.
  rewrite Hpx, Hpy in Hout.
  exists tl, tr, bl, br. cbv zeta.
  rewrite <- Hly, <- Hlx, <- Huy, <- Hux. done.
Qed.

End Uint8.
End ResizeOperator.

(** ** Concrete instances *)

Lemma interpolation_table_entries_witness :
  ∃ table,
    ComputeInterpolationWeights 2 4 2 (fresh_table (F := Z) 3) = Some table
    ∧ ∃ e, load table 1 = Some e ∧ lower e = 2 ∧ upper e = 3 ∧ lerp e = 0.
Proof.
  destruct (interpolation_table_entries (fresh_table (F := Z) 3) 2 4 2)
    as (table & Hrun & _ & Hentries & _).
  { vm_compute. split; [discriminate | reflexivity]. }
  exists table. split; [exact Hrun |].
  destruct (Hentries 1 ltac:(lia)) as (e & He & Hl & Hu & Hp).
  exists e. split; [exact He |]. split; [exact Hl |].
  split; [rewrite Hu, Hl; reflexivity | rewrite Hp, Hl; reflexivity].
Defined.

Lemma ResizeImageNCHW_each_element_witness :
  ∃ output',
    ResizeImageNCHW ComputeLerp_float [1; 2; 3; 4] 1 2 2 1 1 1
      [{| lower := 0; upper := 1; lerp := 0 |}]
      [{| lower := 1; upper := 1; lerp := 0 |}] [9] = Some output'
    ∧ length output' = 1%nat.
Proof.
  destruct (ResizeImageNCHW_each_element (F := Z) ComputeLerp_float
              [1; 2; 3; 4] [9] 1 2 2 1 1 1
              [{| lower := 0; upper := 1; lerp := 0 |}]
              [{| lower := 1; upper := 1; lerp := 0 |}])
    as (output' & Hrun & Hlen & _); [lia | lia | lia | lia | done | done | |
                                      | eauto].
  - intros y Hy. assert (y = 0) as -> by lia.
    eexists. split; [reflexivity |]. cbn. lia.
  - intros x Hx. assert (x = 0) as -> by lia.
    eexists. split; [reflexivity |]. cbn. lia.
Defined.

Lemma ResizeImageNHWC_each_element_witness :
  ∃ output',
    ResizeImageNHWC ComputeLerp_float [1; 2; 3; 4; 5; 6; 7; 8] 1 2 2 1 1 2
      [{| lower := 0; upper := 1; lerp := 0 |}]
      [{| lower := 1; upper := 1; lerp := 0 |}] [9; 9] = Some output'
    ∧ length output' = 2%nat.
Proof.
  destruct (ResizeImageNHWC_each_element (F := Z) ComputeLerp_float
              [1; 2; 3; 4; 5; 6; 7; 8] [9; 9] 1 2 2 1 1 2
              [{| lower := 0; upper := 1; lerp := 0 |}]
              [{| lower := 1; upper := 1; lerp := 0 |}])
    as (output' & Hrun & Hlen & _); [lia | lia | lia | lia | done | done | |
                                      | eauto].
  - intros y Hy. assert (y = 0) as -> by lia.
    eexists. split; [reflexivity |]. cbn. lia.
  - intros x Hx. assert (x = 0) as -> by lia.
    eexists. split; [reflexivity |]. cbn. lia.
Defined.

Lemma resize_to_same_size_copies_witness :
  ResizeBilinearFunctor_operator 0
    {| align_corners_ := true; out_height_ := 2; out_width_ := 3 |}
    (filled [1; 2; 2; 3] 7) (filled [4] 1)
  = Some (filled [1; 2; 2; 3] 7).
Proof.
  apply (resize_to_same_size_copies (F := Z) 0
           {| align_corners_ := true; out_height_ := 2; out_width_ := 3 |}
           (filled [1; 2; 2; 3] 7) (filled [4] 1) 1 2 2 3);
    (reflexivity || lia).
Defined.

Lemma resize_call_interpolates_witness :
  ∃ out,
    ResizeBilinearFunctor_operator 0
      {| align_corners_ := false; out_height_ := 2; out_width_ := 2 |}
      (filled [1; 1; 4; 4] 7) (filled [] 0) = Some out
    ∧ shape out = [1; 1; 2; 2].
Proof.
  destruct (resize_call_interpolates (F := Z) 0
              {| align_corners_ := false; out_height_ := 2; out_width_ := 2 |}
              (filled [1; 1; 4; 4] 7) (filled [] 0) 1 1 4 4)
    as (out & Hrun & Hshape & _);
    [reflexivity | reflexivity | reflexivity | reflexivity
    | lia | lia | cbn; lia | cbn; lia | cbn; intros [Heq _]; discriminate Heq
    | reflexivity | | | eauto].
  - intros y Hy. cbn in Hy. change (0 ≤ y * 2 < 4). lia.
  - intros x Hx. cbn in Hx. change (0 ≤ x * 2 < 4). lia.
Defined.


Lemma resize_call_shape_witness :
  ∃ self out,
    ResizeBilinearFunctor_new [2; 2] true = Some self
    ∧ ResizeBilinearFunctor_operator 0 self (filled [1; 1; 4; 4] 7)
        (filled [] 0) = Some out
    ∧ shape out = [1; 1; 2; 2].
Proof.
  assert (∃ self, ResizeBilinearFunctor_new [2; 2] true = Some self)
    as [self Hnew] by (eexists; reflexivity).
  assert (∃ out, ResizeBilinearFunctor_operator 0 self
                   (filled [1; 1; 4; 4] 7) (filled [] 0) = Some out)
    as [out Hop].
  { injection Hnew as <-. vm_compute. eexists. reflexivity. }
  pose proof (resize_call_shape (F := Z) 0 [2; 2] true self
                (filled [1; 1; 4; 4] 7) (filled [] 0) out Hnew Hop)
    as (_ & _ & _ & _ & batch & channels & H0 & H1 & Hshape & _).
  exists self, out. split; [exact Hnew |]. split; [exact Hop |].
  injection Hnew as <-. injection H0 as <-. injection H1 as <-.
  exact Hshape.
Defined.

Lemma resize_uint8_to_same_size_copies_witness :
  ResizeBilinearFunctor_uint8_operator (F := Z)
    (λ v, Z.max 0 (Z.min 255 v)) 0
    {| align_corners_ := true; out_height_ := 2; out_width_ := 3 |}
    (filled [1; 2; 3; 2] 7) (filled [4] 1)
  = Some (filled [1; 2; 3; 2] 7).
Proof.
  apply (resize_uint8_to_same_size_copies (F := Z)
           (λ v, Z.max 0 (Z.min 255 v)) 0
           {| align_corners_ := true; out_height_ := 2; out_width_ := 3 |}
           (filled [1; 2; 3; 2] 7) (filled [4] 1) 1 2 3 2);
    (reflexivity || lia).
Defined.

Lemma resize_uint8_call_interpolates_witness :
  ∃ out,
    ResizeBilinearFunctor_uint8_operator (F := Z)
      (λ v, Z.max 0 (Z.min 255 v)) 0
      {| align_corners_ := false; out_height_ := 2; out_width_ := 2 |}
      (filled [1; 4; 4; 3] 7) (filled [] 0) = Some out
    ∧ shape out = [1; 2; 2; 3].
Proof.
  destruct (resize_uint8_call_interpolates (F := Z)
              (λ v, Z.max 0 (Z.min 255 v)) 0
              {| align_corners_ := false; out_height_ := 2; out_width_ := 2 |}
              (filled [1; 4; 4; 3] 7) (filled [] 0) 1 4 4 3)
    as (out & Hrun & Hshape & _);
    [reflexivity | reflexivity | reflexivity | reflexivity
    | lia | lia | cbn; lia | cbn; lia | cbn; intros [Heq _]; discriminate Heq
    | reflexivity | | | eauto].
  - intros y Hy. cbn in Hy. change (0 ≤ y * 2 < 4). lia.
  - intros x Hx. cbn in Hx. change (0 ≤ x * 2 < 4). lia.
Defined.
